(** * Bazel BEP failure analyzer: the synthetic BEP generator, the engine's
      limits and the record framing they share

    The development embeds [utils/generate_large_bep_files.py] and
    [bin/config.py] and relates the generator's output to the length-prefixed
    record format read by the analyzer's [RecordStream]. *)

From Stdlib Require Import ZArith NArith PArith Lia Bool List.
From Stdlib Require Import Strings.Ascii Strings.String Strings.Byte.
From Stdlib Require Import SpecFloat.
From Stdlib Require Import DecimalString DecimalPos DecimalN DecimalZ.
Import ListNotations.

Local Open Scope Z_scope.
Local Open Scope list_scope.

(* ================================================================= *)
(** ** Python values used by the sources *)

Module Py.

(** The exceptions the embedded code can raise. *)
Inductive exn : Set :=
| ZeroDivisionError
| OverflowError
| ValueError
| UnicodeEncodeError.

(** A computation that returns or raises. *)
Inductive result (A : Type) : Type :=
| Ok (a : A)
| Raise (e : exn).
Arguments Ok {A} a.
Arguments Raise {A} e.

Definition rbind {A B} (r : result A) (k : A -> result B) : result B :=
  match r with
  | Ok a => k a
  | Raise e => Raise e
  end.

Fixpoint rmap {A B} (f : A -> result B) (l : list A) : result (list B) :=
  match l with
  | [] => Ok []
  | x :: l' =>
      rbind (f x) (fun y => rbind (rmap f l') (fun ys => Ok (y :: ys)))
  end.

(** [bytes] objects. *)
Definition bytes := list byte.

Definition byte_val (b : byte) : Z := Z.of_N (Byte.to_N b).

(** The low eight bits of a number, as a byte. *)
Definition byte_of_N (n : N) : byte := byte_of_ascii (ascii_of_N n).

(** [bytes(l)] for a list of ints: every element must be in [range(256)]. *)
Definition bytes_of_ints (l : list Z) : result bytes :=
  rmap (fun x =>
          if (0 <=? x) && (x <? 256)
          then Ok (byte_of_N (Z.to_N x))
          else Raise ValueError) l.

(** [len] of a sequence, as a Python int. *)
Definition len {A} (l : list A) : Z := Z.of_nat (List.length l).

(** [str] objects: sequences of code points. *)
Definition str := list N.

(** A literal of the source text; the literals of the embedded code are
    ASCII. *)
Definition lit (s : string) : str :=
  List.map N_of_ascii (list_ascii_of_string s).

(** [s.encode('utf-8')]: lone surrogates cannot be encoded.  No [str] holds
    a code point above [0x10FFFF]; the encoder is given none. *)
Definition utf8_char (c : N) : result bytes :=
  (if c <? 0x80 then Ok [byte_of_N c]
   else if c <? 0x800 then
     Ok [byte_of_N (N.lor 0xC0 (N.shiftr c 6));
         byte_of_N (N.lor 0x80 (N.land c 0x3F))]
   else if (0xD800 <=? c) && (c <=? 0xDFFF) then Raise UnicodeEncodeError
   else if c <? 0x10000 then
     Ok [byte_of_N (N.lor 0xE0 (N.shiftr c 12));
         byte_of_N (N.lor 0x80 (N.land (N.shiftr c 6) 0x3F));
         byte_of_N (N.lor 0x80 (N.land c 0x3F))]
   else if 0x10FFFF <? c then Raise ValueError
   else
     Ok [byte_of_N (N.lor 0xF0 (N.shiftr c 18));
         byte_of_N (N.lor 0x80 (N.land (N.shiftr c 12) 0x3F));
         byte_of_N (N.lor 0x80 (N.land (N.shiftr c 6) 0x3F));
         byte_of_N (N.lor 0x80 (N.land c 0x3F))])%N.

Fixpoint encode_utf8 (s : str) : result bytes :=
  match s with
  | [] => Ok []
  | c :: s' =>
      rbind (utf8_char c) (fun bc =>
      rbind (encode_utf8 s') (fun bs => Ok (bc ++ bs)))
  end.

(** [str(n)] and the f-string field [{n}] for an int. *)
Definition str_of_int (n : Z) : str :=
  lit (NilEmpty.string_of_int (Z.to_int n)).

(** The f-string field [{n:0Wd}]: sign-aware zero padding to width [W]. *)
Definition format_0d (width : nat) (n : Z) : str :=
  let sign := if n <? 0 then lit "-" else [] in
  let digits := str_of_int (Z.abs n) in
  sign
    ++ List.repeat 48%N (width - List.length sign - List.length digits)
    ++ digits.

(** [s.split(sep)] for a one-character separator. *)
Fixpoint split (sep : N) (s : str) : list str :=
  match s with
  | [] => [[]]
  | c :: s' =>
      if (c =? sep)%N then [] :: split sep s'
      else match split sep s' with
           | [] => [[c]]
           | w :: ws => (c :: w) :: ws
           end
  end.

(** [s.lstrip(chars)]: drop the leading characters that occur in [chars]. *)
Fixpoint lstrip (chars : str) (s : str) : str :=
  match s with
  | [] => []
  | c :: s' =>
      if List.existsb (N.eqb c) chars then lstrip chars s' else s
  end.

(** [needle in hay] for sequences; used at [bytes] and at [str]. *)
Section Contains.
Context {A : Type} (eqb : A -> A -> bool).

Fixpoint starts_with (needle hay : list A) : bool :=
  match needle, hay with
  | [], _ => true
  | _ :: _, [] => false
  | x :: needle', y :: hay' => eqb x y && starts_with needle' hay'
  end.

Fixpoint contains (needle hay : list A) : bool :=
  starts_with needle hay
  || match hay with
     | [] => false
     | _ :: hay' => contains needle hay'
     end.
End Contains.

(** *** Floats: IEEE 754 binary64, as in CPython *)

Definition float := spec_float.
Definition prec : Z := 53.
Definition emax : Z := 1024.

(** An int converted to the nearest float. *)
Definition float_of_int (n : Z) : float := binary_normalize prec emax n 0 false.

Definition float_is_zero (x : float) : bool :=
  match x with
  | S754_zero _ => true
  | _ => false
  end.

(** [a / b] on floats. *)
Definition truediv (a b : float) : result float :=
  if float_is_zero b then Raise ZeroDivisionError
  else Ok (SFdiv prec emax a b).

(** [int(x)]: truncation toward zero. *)
Definition int_of_float (x : float) : result Z :=
  match x with
  | S754_zero _ => Ok 0
  | S754_infinity _ => Raise OverflowError
  | S754_nan => Raise ValueError
  | S754_finite s m e => Ok (cond_Zopp s (Z.shiftl (Zpos m) e))
  end.

(** [a > b], [a < b] and [a <= b] on floats. *)
Definition float_gt (a b : float) : bool := SFltb b a.
Definition float_lt (a b : float) : bool := SFltb a b.
Definition float_le (a b : float) : bool := SFleb a b.

(** [a % b] and [a // b] on ints. *)
Definition mod_ (a b : Z) : result Z :=
  if b =? 0 then Raise ZeroDivisionError else Ok (a mod b).
Definition floordiv (a b : Z) : result Z :=
  if b =? 0 then Raise ZeroDivisionError else Ok (a / b).

End Py.
Import Py.

Notation "x <- c1 ;; c2" := (rbind c1 (fun x => c2))
  (at level 61, c1 at next level, right associativity).

(* ================================================================= *)
(** ** bin/config.py *)

Module config.
Definition MAX_FILE_SIZE_MB_DEFAULT : Z := 100.
Definition MAX_FAILURES_DEFAULT : Z := 50.
Definition MAX_MESSAGE_SIZE : Z := 5000.
Definition MAX_ERROR_LINES : Z := 10.
Definition MAX_STRINGS_PER_EVENT : Z := 20.
Definition MAX_VARINT_BYTES : Z := 10.

Definition BUILDKITE_ANNOTATION_STYLE : string := "error".
Definition BUILDKITE_ANNOTATION_CONTEXT_FALLBACK : string := "bazel-failures".

Definition ANNOTATION_RETRY_ATTEMPTS : Z := 3.
(** The literal [1.0]. *)
Definition ANNOTATION_RETRY_BASE_DELAY_SECONDS : float :=
  S754_finite false 4503599627370496 (-52).
End config.

(* ================================================================= *)
(** ** utils/generate_large_bep_files.py *)

(** The [while] loop of [encode_varint], with the list [result] it appends
    to.  Each turn drops seven bits of [value]; [fuel] bounds the turns. *)
Fixpoint encode_varint_loop (fuel : nat) (value : Z) (result : list Z) : list Z :=
  if 0x80 <=? value then
    match fuel with
    | O => result
    | S fuel' =>
        encode_varint_loop fuel' (Z.shiftr value 7)
          (result ++ [Z.lor (Z.land value 0x7F) 0x80])
    end
  else result ++ [value].

(** One turn for every seven bits of [value] is enough. *)
Definition encode_varint_fuel (value : Z) : nat := Z.to_nat (Z.log2 value / 7).

Definition encode_varint (value : Z) : Py.result bytes :=
  bytes_of_ints (encode_varint_loop (encode_varint_fuel value) value []).


(** *** f-strings

    A triple-quoted f-string of the source is written line by line: the text
    opens with a newline and every line ends with one. *)

Definition dq : str := [34%N].
Definition nl : str := [10%N].

(** A double-quoted literal, quotes included. *)
Definition Q (s : string) : str := dq ++ lit s ++ dq.

Definition fstring (lines : list str) : str :=
  nl ++ List.concat (List.map (fun l => l ++ nl) lines).

(** [target_name.split(':')[0].lstrip('//')] *)
Definition pkg_path_of (target_name : str) : str :=
  lstrip (lit "//") (List.nth 0 (split 58%N target_name) []).

(** The list [error_types] of [create_build_event_message]. *)
Definition error_types (pkg_path : str) (target_index : Z) : list str :=
  [ pkg_path ++ lit "/main.cpp:" ++ str_of_int (42 + target_index mod 100)
      ++ lit ":" ++ str_of_int (15 + target_index mod 20)
      ++ lit ": error: use of undeclared identifier 'undefined_var_"
      ++ str_of_int target_index ++ lit "'";
    pkg_path ++ lit "/utils.h:" ++ str_of_int (25 + target_index mod 50)
      ++ lit ":8: error: 'missing_function' was not declared in this scope";
    pkg_path ++ lit "/parser.cc:" ++ str_of_int (78 + target_index mod 30)
      ++ lit ":12: error: no matching function for call to 'parse_"
      ++ str_of_int target_index ++ lit "'";
    lit "BUILD:" ++ str_of_int (10 + target_index mod 20)
      ++ lit ":1: name 'undefined_dependency_" ++ str_of_int target_index
      ++ lit "' is not defined";
    pkg_path ++ lit "/config.py:" ++ str_of_int (33 + target_index mod 40)
      ++ lit ":5: SyntaxError: invalid syntax near 'broken_code_"
      ++ str_of_int target_index ++ lit "'";
    pkg_path ++ lit "/lib.java:" ++ str_of_int (91 + target_index mod 60)
      ++ lit ":20: error: cannot find symbol variable missing_var_"
      ++ str_of_int target_index ].

(** The text [content] of [create_build_event_message]. *)
Definition build_event_content
  (target_name : str) (success : bool) (target_index : Z) : str :=
  if success then
    fstring
      [ lit "{";
        lit "  " ++ Q "id" ++ lit ": {";
        lit "    " ++ Q "targetCompleted" ++ lit ": {";
        lit "      " ++ Q "label" ++ lit ": " ++ dq ++ target_name ++ dq;
        lit "    }";
        lit "  },";
        lit "  " ++ Q "completed" ++ lit ": {";
        lit "    " ++ Q "success" ++ lit ": true";
        lit "  }";
        lit "}" ]
  else
    let pkg_path := pkg_path_of target_name in
    let error_types := error_types pkg_path target_index in
    let selected_error :=
      List.nth (Z.to_nat (target_index mod len error_types)) error_types [] in
    fstring
      [ lit "{";
        lit "  " ++ Q "id" ++ lit ": {";
        lit "    " ++ Q "targetCompleted" ++ lit ": {";
        lit "      " ++ Q "label" ++ lit ": " ++ dq ++ target_name ++ dq;
        lit "    }";
        lit "  },";
        lit "  " ++ Q "completed" ++ lit ": {";
        lit "    " ++ Q "success" ++ lit ": false";
        lit "  },";
        lit "  " ++ Q "aborted" ++ lit ": {";
        lit "    " ++ Q "reason" ++ lit ": " ++ Q "BUILD_FAILED" ++ lit ",";
        lit "    " ++ Q "description" ++ lit ": " ++ dq ++ selected_error ++ dq;
        lit "  }";
        lit "}" ].

Definition create_build_event_message
  (target_name : str) (success : bool) (target_index : Z) : Py.result bytes :=
  encode_utf8 (build_event_content target_name success target_index).

(** The list [test_errors] of [create_test_event_message]. *)
Definition test_errors (pkg_path : str) (target_index : Z) : list str :=
  [ pkg_path ++ lit "/test_main.py:" ++ str_of_int (45 + target_index mod 80)
      ++ lit ":12: AssertionError: Expected " ++ str_of_int (5 + target_index)
      ++ lit " but got " ++ str_of_int (3 + target_index);
    pkg_path ++ lit "/unit_tests.cpp:" ++ str_of_int (67 + target_index mod 60)
      ++ lit ":8: EXPECT_EQ failed: expected value_" ++ str_of_int target_index
      ++ lit " == actual_value_" ++ str_of_int target_index;
    pkg_path ++ lit "/integration_test.java:"
      ++ str_of_int (89 + target_index mod 40)
      ++ lit ":15: junit.framework.AssertionFailedError: Test failed at step "
      ++ str_of_int target_index;
    pkg_path ++ lit "/test_utils.go:" ++ str_of_int (23 + target_index mod 50)
      ++ lit ":5: panic: runtime error: index out of range ["
      ++ str_of_int target_index ++ lit "]";
    pkg_path ++ lit "/spec_test.rb:" ++ str_of_int (56 + target_index mod 70)
      ++ lit ":10: RSpec::Expectations::ExpectationNotMetError: expected behavior_"
      ++ str_of_int target_index;
    pkg_path ++ lit "/test_runner.kt:" ++ str_of_int (34 + target_index mod 90)
      ++ lit ":7: kotlin.test.AssertionError: Test " ++ str_of_int target_index
      ++ lit " assertion failed" ].

(** The text [content] of [create_test_event_message]. *)
Definition test_event_content
  (target_name : str) (success : bool) (target_index : Z) : str :=
  if success then
    fstring
      [ lit "{";
        lit "  " ++ Q "id" ++ lit ": {";
        lit "    " ++ Q "testResult" ++ lit ": {";
        lit "      " ++ Q "label" ++ lit ": " ++ dq ++ target_name ++ dq;
        lit "    }";
        lit "  },";
        lit "  " ++ Q "testResult" ++ lit ": {";
        lit "    " ++ Q "status" ++ lit ": " ++ Q "PASSED";
        lit "  }";
        lit "}" ]
  else
    let pkg_path := pkg_path_of target_name in
    let test_errors := test_errors pkg_path target_index in
    let selected_error :=
      List.nth (Z.to_nat (target_index mod len test_errors)) test_errors [] in
    fstring
      [ lit "{";
        lit "  " ++ Q "id" ++ lit ": {";
        lit "    " ++ Q "testResult" ++ lit ": {";
        lit "      " ++ Q "label" ++ lit ": " ++ dq ++ target_name ++ dq;
        lit "    }";
        lit "  },";
        lit "  " ++ Q "testResult" ++ lit ": {";
        lit "    " ++ Q "status" ++ lit ": " ++ Q "FAILED" ++ lit ",";
        lit "    " ++ Q "testAttemptDurationMillis" ++ lit ": " ++ Q "1000";
        lit "  },";
        lit "  " ++ Q "testFailureMessage" ++ lit ": " ++ dq ++ selected_error ++ dq;
        lit "}" ].

Definition create_test_event_message
  (target_name : str) (success : bool) (target_index : Z) : Py.result bytes :=
  encode_utf8 (test_event_content target_name success target_index).

(** *** The output file

    The generator writes to a file opened for writing; an exception leaves on
    disk what was written before it.  A command takes the file's contents and
    returns them with its outcome. *)

Definition io (A : Type) : Type := bytes -> bytes * Py.result A.

Definition io_ret {A} (a : A) : io A := fun f => (f, Ok a).

Definition io_bind {A B} (c : io A) (k : A -> io B) : io B :=
  fun f =>
    match c f with
    | (f', Ok a) => k a f'
    | (f', Raise e) => (f', Raise e)
    end.

(** A computation that does not touch the file. *)
Definition io_eval {A} (r : Py.result A) : io A := fun f => (f, r).

(** [f.write(data)] *)
Definition write (data : bytes) : io unit := fun f => (f ++ data, Ok tt).

Notation "x <~ c1 ;; c2" := (io_bind c1 (fun x => c2))
  (at level 61, c1 at next level, right associativity).
Notation "c1 ;;; c2" := (io_bind c1 (fun _ => c2))
  (at level 61, right associativity).

(** [for i in range(n): s = body(i, s)], from index [i]. *)
Fixpoint for_range {S : Type} (n : nat) (i : Z) (body : Z -> S -> io S) (s : S)
  : io S :=
  match n with
  | O => io_ret s
  | Datatypes.S n' => s' <~ body i s ;; for_range n' (i + 1) body s'
  end.

(** The bytes literal [header_msg]. *)
Definition header_msg : bytes :=
  List.map byte_of_N
    (lit "{" ++ Q "started" ++ lit ": {" ++ Q "uuid" ++ lit ": "
       ++ Q "test-build-id" ++ lit ", " ++ Q "startTime" ++ lit ": {"
       ++ Q "seconds" ++ lit ": 1642000000}}}").

(** [(i % int(1 / failure_rate)) == 0 if failure_rate > 0 else False] *)
Definition is_failure_at (failure_rate : float) (i : Z) : Py.result bool :=
  if float_gt failure_rate (float_of_int 0) then
    q <- truediv (float_of_int 1) failure_rate ;;
    k <- int_of_float q ;;
    r <- mod_ i k ;;
    Ok (r =? 0)
  else Ok false.

(** [f"//pkg{pkg_num:04d}:target{i:06d}"] with [pkg_num = i // 50]. *)
Definition target_name_of (i : Z) : str :=
  let pkg_num := i / 50 in
  lit "//pkg" ++ format_0d 4 pkg_num ++ lit ":target" ++ format_0d 6 i.

(** One turn of the loop over the targets; the state is [num_failures]. *)
Definition target_event (failure_rate : float) (i : Z) (num_failures : Z)
  : io Z :=
  is_failure <~ io_eval (is_failure_at failure_rate i) ;;
  let num_failures := if is_failure then num_failures + 1 else num_failures in
  let target_name := target_name_of i in
  message <~ io_eval
    (if i mod 2 =? 0
     then create_build_event_message target_name (negb is_failure) i
     else create_test_event_message target_name (negb is_failure) i) ;;
  prefix <~ io_eval (encode_varint (len message)) ;;
  write prefix ;;;
  write message ;;;
  io_ret num_failures.

(** The text of [completion_msg]. *)
Definition completion_content (num_failures : Z) : str :=
  lit "{" ++ Q "finished" ++ lit ": {" ++ Q "exitCode" ++ lit ": {"
    ++ Q "code" ++ lit ": " ++ (if 0 <? num_failures then lit "1" else lit "0")
    ++ lit "}}}".

(** The body of [with open(output_path, 'wb') as f].  The console output and
    the timing around it do not reach the file.  The result is
    [num_failures]. *)
Definition generate_large_bep_file_body
  (num_targets : Z) (failure_rate : float) : io Z :=
  prefix <~ io_eval (encode_varint (len header_msg)) ;;
  write prefix ;;;
  write header_msg ;;;
  num_failures <~
    for_range (Z.to_nat num_targets) 0 (target_event failure_rate) 0 ;;
  completion_msg <~ io_eval (encode_utf8 (completion_content num_failures)) ;;
  prefix <~ io_eval (encode_varint (len completion_msg)) ;;
  write prefix ;;;
  write completion_msg ;;;
  io_ret num_failures.

(** The file starts empty: mode ['wb'] truncates. *)
Definition generate_large_bep_file (num_targets : Z) (failure_rate : float)
  : bytes * Py.result Z :=
  generate_large_bep_file_body num_targets failure_rate [].

(** [main] once the arguments are parsed: the file, when one is opened, and
    the exit status.  A rate outside [0, 1] is refused before any file is
    opened. *)
Definition main (targets : Z) (failure_rate : float)
  : option bytes * Py.result Z :=
  if float_lt failure_rate (float_of_int 0)
     || float_gt failure_rate (float_of_int 1)
  then (None, Ok 1)
  else
    let '(f, r) := generate_large_bep_file targets failure_rate in
    (Some f, (_ <- r ;; Ok 0)).

(** The default [failure_rate] of the source, the literal [0.05]:
    [0x1.999999999999ap-5]. *)
Definition default_failure_rate : float :=
  S754_finite false 7205759403792794 (-57).

(* ================================================================= *)
(** ** The analyzer's reader side

    The analyzer executable, [bin/bazel_failure_analyzer], is exercised by
    [tests/test_analyzer.py] but is not among the sources; what the
    development needs of it is taken from the specification. *)

Module Analyzer.

(** Modelled from the spec: the error kinds of sections 4.1 and 4.2. *)
Inductive ErrorKind : Set :=
| MalformedVarint
| TruncatedStream
| RecordTooLarge
| FileTooLarge.

(** A result of the reader side, or the error kind it fails with. *)
Inductive outcome (A : Type) : Type :=
| Done (a : A)
| Fail (e : ErrorKind).
Arguments Done {A} a.
Arguments Fail {A} e.

(** Modelled from the spec: the configured limits of one analysis pass
    (section 9, one immutable configuration value). *)
Record Limits : Set := {
  max_continuation_bytes : nat;
  max_record_size : N;
  max_file_size : N;
  max_failures : nat
}.

(** Modelled from the spec: the loop of [readVarint], which is missing from
    the sources.  Seven value bits per byte, least-significant group first;
    [budget] continuation bytes may still be seen; running out of bytes
    mid-varint, one continuation byte too many and a value wider than 64 bits
    are all [MalformedVarint]. *)
Fixpoint readVarint_loop
  (budget : nat) (shift value : Z) (consumed : nat) (cursor : bytes)
  {struct cursor} : outcome (Z * nat) :=
  match cursor with
  | [] => Fail MalformedVarint
  | b :: rest =>
      let value := Z.lor value (Z.shiftl (Z.land (byte_val b) 0x7F) shift) in
      if Z.testbit (byte_val b) 7 then
        match budget with
        | O => Fail MalformedVarint
        | S budget' =>
            readVarint_loop budget' (shift + 7) value (S consumed) rest
        end
      else if value <? 2 ^ 64 then Done (value, S consumed)
      else Fail MalformedVarint
  end.

(** Modelled from the spec: [readVarint(cursor) -> (value, bytesConsumed)],
    missing from the sources, for a configured maximum number of continuation
    bytes. *)
Definition readVarint (max_continuation : nat) (cursor : bytes)
  : outcome (Z * nat) :=
  readVarint_loop max_continuation 0 0 0 cursor.

(** Modelled from the spec: the decoding rule of [readVarint] alone, seven
    value bits per byte and least-significant group first, with neither the
    byte cap nor the 64-bit check. *)
Fixpoint decode_groups (shift value : Z) (consumed : nat) (cursor : bytes)
  : option (Z * nat) :=
  match cursor with
  | [] => None
  | b :: rest =>
      let value := Z.lor value (Z.shiftl (Z.land (byte_val b) 0x7F) shift) in
      if Z.testbit (byte_val b) 7
      then decode_groups (shift + 7) value (S consumed) rest
      else Some (value, S consumed)
  end.

(** Modelled from the spec: [RawRecord] of section 3, one decoded BEP event
    and its ordinal in the stream. *)
Record RawRecord : Set := {
  payload : bytes;
  ordinal : nat
}.

(** Modelled from the spec: how a pass over the source ends (section 4.5,
    [Finished] or [Aborted(reason)]). *)
Inductive StreamEnd : Set :=
| Finished
| Aborted (reason : ErrorKind).

(** Modelled from the spec: the record loop of [RecordStream], missing from
    the sources.  No bytes left is a clean end; a length prefix that cannot
    be read is [TruncatedStream]; a declared length above the per-record
    maximum is [RecordTooLarge]; fewer bytes than declared is
    [TruncatedStream].  Every record consumes at least one byte, so [fuel]
    need not exceed the length of the source. *)
Fixpoint RecordStream_from
  (fuel : nat) (lim : Limits) (index : nat) (source : bytes)
  : list RawRecord * StreamEnd :=
  match source, fuel with
  | [], _ => ([], Finished)
  | _ :: _, O => ([], Finished)
  | _ :: _, S fuel' =>
      match readVarint (max_continuation_bytes lim) source with
      | Fail _ => ([], Aborted TruncatedStream)
      | Done (L, consumed) =>
          if Z.of_N (max_record_size lim) <? L then ([], Aborted RecordTooLarge)
          else
            let rest := List.skipn consumed source in
            if len rest <? L then ([], Aborted TruncatedStream)
            else
              let record :=
                {| payload := List.firstn (Z.to_nat L) rest; ordinal := index |} in
              let '(records, e) :=
                RecordStream_from fuel' lim (S index)
                  (List.skipn (Z.to_nat L) rest) in
              (record :: records, e)
      end
  end.

(** Modelled from the spec: [RecordStream] over a byte source of known total
    size, missing from the sources; the size cap is checked once, before any
    record is decoded. *)
Definition RecordStream (lim : Limits) (source : bytes)
  : list RawRecord * StreamEnd :=
  if (max_file_size lim <? N.of_nat (List.length source))%N
  then ([], Aborted FileTooLarge)
  else RecordStream_from (List.length source) lim 0 source.

End Analyzer.

(* ================================================================= *)
(** ** Properties stated about the byte streams *)

(** The shape of a base-128 varint: the continuation bit [0x80] is set on
    every byte but the last, and clear on the last. *)
Fixpoint varint_shape (bs : bytes) : bool :=
  match bs with
  | [] => false
  | b :: rest =>
      match rest with
      | [] => negb (Z.testbit (byte_val b) 7)
      | _ :: _ => Z.testbit (byte_val b) 7 && varint_shape rest
      end
  end.

(** [needle] occurs in [hay] as a contiguous run. *)
Definition infix {A : Type} (needle hay : list A) : Prop :=
  exists pre post, hay = pre ++ needle ++ post.

(** [needle in payload] on bytes and [needle in text] on strings. *)
Definition bytes_contain (needle payload : bytes) : bool :=
  contains Byte.eqb needle payload.
Definition str_contains (needle text : str) : bool :=
  contains N.eqb needle text.

(** The bytes of an ASCII literal. *)
Definition B (s : string) : bytes := list_byte_of_string s.

Definition is_digit (b : byte) : bool :=
  (48 <=? byte_val b) && (byte_val b <=? 57).

Definition is_letter (b : byte) : bool :=
  ((65 <=? byte_val b) && (byte_val b <=? 90))
  || ((97 <=? byte_val b) && (byte_val b <=? 122)).

(** Modelled from the spec: the characters of a path in the classifier's
    location grammar (section 4.4, "path made of filename characters"); the
    classifier is missing from the sources.  Letters, digits and the
    punctuation of file names. *)
Definition is_filename_char (b : byte) : bool :=
  is_letter b || is_digit b
  || bytes_contain [b] (B "_.-/").

(** The text [<path>:<line>:<column>:]. *)
Definition location_text (path line column : bytes) : bytes :=
  path ++ B ":" ++ line ++ B ":" ++ column ++ B ":".

(** Modelled from the spec: a payload holds a location in the classifier's
    [path:line:column] shape, line and column both present and decimal. *)
Definition has_location (payload : bytes) : Prop :=
  exists path line column,
    path <> [] /\ List.forallb is_filename_char path = true
    /\ line <> [] /\ List.forallb is_digit line = true
    /\ column <> [] /\ List.forallb is_digit column = true
    /\ bytes_contain (location_text path line column) payload = true.

(** The bytes of the decimal text of an int. *)
Definition int_bytes (n : Z) : bytes := List.map byte_of_N (str_of_int n).

(** A text without characters above 127. *)
Definition is_ascii (s : str) : bool := List.forallb (fun c => c <? 128)%N s.

(** A text that [encode('utf-8')] accepts. *)
Definition encodable (s : str) : Prop := exists p, encode_utf8 s = Ok p.

(** The text of a location, before encoding. *)
Definition location_str (file : string) (line column : Z) : str :=
  lit file ++ lit ":" ++ str_of_int line ++ lit ":" ++ str_of_int column
    ++ lit ":".

(** A byte of a multi-byte UTF-8 sequence. *)
Definition high_byte (b : byte) : Prop := 128 <= byte_val b.

(** A byte stream that is exactly the given payloads, each behind the
    [encode_varint] of its length, in order. *)
Inductive framed : list bytes -> bytes -> Prop :=
| framed_nil : framed [] []
| framed_cons (payload prefix : bytes) (payloads : list bytes) (rest : bytes) :
    encode_varint (len payload) = Ok prefix ->
    framed payloads rest ->
    framed (payload :: payloads) (prefix ++ payload ++ rest).

(** The message of target [i], failing or not: a build event for an even
    index, a test event for an odd one. *)
Definition event_payload (failing : bool) (i : Z) : Py.result bytes :=
  if i mod 2 =? 0
  then create_build_event_message (target_name_of i) (negb failing) i
  else create_test_event_message (target_name_of i) (negb failing) i.

(** The indices [i, i + 1, ...] of [n] turns of the loop. *)
Fixpoint range_from (i : Z) (n : nat) : list Z :=
  match n with
  | O => []
  | S n' => i :: range_from (i + 1) n'
  end.

(** [range(num_targets)] *)
Definition range (num_targets : Z) : list Z :=
  range_from 0 (Z.to_nat num_targets).

(** How many of the indices are marked failing. *)
Definition count_failing (failing : Z -> bool) (indices : list Z) : Z :=
  len (List.filter failing indices).

(** The records a reader is expected to yield for the payloads, numbered
    from [index]. *)
Fixpoint numbered (index : nat) (payloads : list bytes)
  : list Analyzer.RawRecord :=
  match payloads with
  | [] => []
  | p :: ps =>
      {| Analyzer.payload := p; Analyzer.ordinal := index |}
        :: numbered (S index) ps
  end.

(** What the stream holds for target [i]: a build event for an even index,
    a test event for an odd one, passing unless the target is marked
    failing, and with a location when it is. *)
Definition event_of (failing : Z -> bool) (i : Z) (p : bytes) : Prop :=
  (i mod 2 = 0 ->
   create_build_event_message (target_name_of i) (negb (failing i)) i = Ok p)
  /\ (i mod 2 = 1 ->
      create_test_event_message (target_name_of i) (negb (failing i)) i = Ok p)
  /\ (failing i = true -> has_location p).

(** The bytes of [{"finished": {"exitCode": {"code": <digit>}}}]. *)
Definition completion_bytes (digit : string) : bytes :=
  List.map byte_of_N
    (lit "{" ++ Q "finished" ++ lit ": {" ++ Q "exitCode" ++ lit ": {"
       ++ Q "code" ++ lit ": " ++ lit digit ++ lit "}}}").

(** The smallest positive float, [5e-324]. *)
Definition smallest_subnormal : float := S754_finite false 1 (-1074).

(** Limits under which the small streams of the examples are read. *)
Definition example_limits : Analyzer.Limits :=
  {| Analyzer.max_continuation_bytes := Z.to_nat config.MAX_VARINT_BYTES;
     Analyzer.max_record_size := 1048576;
     Analyzer.max_file_size :=
       Z.to_N (config.MAX_FILE_SIZE_MB_DEFAULT * 1024 * 1024);
     Analyzer.max_failures := Z.to_nat config.MAX_FAILURES_DEFAULT |}.

(** The float [2^-1024], the largest whose reciprocal is not finite. *)
Definition largest_overflowing_rate : float :=
  S754_finite false (2 ^ 50) (-1074).

(** A code point in the surrogate range, which UTF-8 cannot encode. *)
Definition is_surrogate (c : N) : Prop := (0xD800 <= c <= 0xDFFF)%N.

(** A code point a Python [str] can hold. *)
Definition is_code_point (c : N) : Prop := (c <= 0x10FFFF)%N.

(** The float [0.5]. *)
Definition one_half : float := S754_finite false (2 ^ 52) (-53).

(* ================================================================= *)
(** ** The result monad *)

Lemma rbind_Ok_inv {A B} (r : Py.result A) (k : A -> Py.result B) (b : B) :
  rbind r k = Ok b -> exists a, r = Ok a /\ k a = Ok b.
Proof.
  destruct r as [a|e]; simpl; intros H; [eauto | discriminate].
Qed.

(* ================================================================= *)
(** ** Bytes and their values *)

Lemma byte_val_byte_of_N (n : N) :
  (n < 256)%N -> byte_val (byte_of_N n) = Z.of_N n.
Proof.
  intros H. unfold byte_val, byte_of_N.
  rewrite <- (N_ascii_embedding n H) at 2.
  f_equal.
  rewrite <- (ascii_of_byte_of_ascii (ascii_of_N n)) at 2.
  generalize (byte_of_ascii (ascii_of_N n)). intros b.
  destruct b; reflexivity.
Qed.

Lemma byte_val_of_Z (x : Z) :
  0 <= x < 256 -> byte_val (byte_of_N (Z.to_N x)) = x.
Proof.
  intros H. rewrite byte_val_byte_of_N by lia. lia.
Qed.

Lemma byte_val_range (b : byte) : 0 <= byte_val b < 256.
Proof. destruct b; unfold byte_val; simpl; lia. Qed.

(* ================================================================= *)
(** ** [encode_varint]: the loop and its equations *)

Example encode_varint_300 :
  encode_varint 300 = Ok [byte_of_N 0xAC; byte_of_N 0x02].
Proof. reflexivity. Qed.

Example encode_varint_negative : encode_varint (-1) = Raise ValueError.
Proof. reflexivity. Qed.


Lemma encode_varint_loop_acc (fuel : nat) :
  forall value result,
    encode_varint_loop fuel value result
    = result ++ encode_varint_loop fuel value [].
Proof.
  induction fuel as [|fuel IH]; intros value result; simpl;
    destruct (0x80 <=? value); try (now rewrite ?app_nil_r).
  rewrite IH. rewrite (IH _ [_]). now rewrite <- app_assoc.
Qed.

Lemma encode_varint_fuel_step (value : Z) :
  0x80 <= value ->
  encode_varint_fuel value = S (encode_varint_fuel (Z.shiftr value 7)).
Proof.
  intros H. unfold encode_varint_fuel.
  assert (Hl : 7 <= Z.log2 value)
    by (change 7 with (Z.log2 0x80); now apply Z.log2_le_mono).
  rewrite Z.log2_shiftr by lia.
  rewrite Z.max_r by lia.
  replace (Z.log2 value) with ((Z.log2 value - 7) + 1 * 7) at 1 by lia.
  rewrite Z.div_add by lia.
  assert (0 <= (Z.log2 value - 7) / 7) by (apply Z.div_pos; lia).
  lia.
Qed.

(** The list of ints the loop leaves in [result]. *)
Lemma encode_varint_ints_small (value : Z) :
  value < 0x80 ->
  encode_varint_loop (encode_varint_fuel value) value [] = [value].
Proof.
  intros H. destruct (encode_varint_fuel value); simpl;
    destruct (Z.leb_spec 0x80 value); try lia; reflexivity.
Qed.

Lemma encode_varint_ints_big (value : Z) :
  0x80 <= value ->
  encode_varint_loop (encode_varint_fuel value) value []
  = Z.lor (Z.land value 0x7F) 0x80
      :: encode_varint_loop (encode_varint_fuel (Z.shiftr value 7))
           (Z.shiftr value 7) [].
Proof.
  intros H. rewrite (encode_varint_fuel_step value H). simpl.
  destruct (Z.leb_spec 0x80 value); try lia.
  now rewrite encode_varint_loop_acc.
Qed.

Lemma low7_or_0x80_range (value : Z) :
  0 <= Z.lor (Z.land value 0x7F) 0x80 < 256.
Proof.
  assert (H1 : 0 <= Z.land value 0x7F < 128).
  { change 0x7F with (Z.ones 7). rewrite Z.land_ones by lia.
    apply Z.mod_pos_bound. lia. }
  split.
  - apply Z.lor_nonneg. lia.
  - change 256 with (2 ^ 8).
    destruct (Z.eq_dec (Z.lor (Z.land value 0x7F) 0x80) 0) as [->|Hne]; [lia|].
    apply Z.log2_lt_pow2.
    + assert (0 <= Z.lor (Z.land value 0x7F) 0x80) by (apply Z.lor_nonneg; lia).
      lia.
    + rewrite Z.log2_lor by lia.
      apply Z.max_lub_lt; [|reflexivity].
      destruct (Z.eq_dec (Z.land value 0x7F) 0) as [->|Hz]; [reflexivity|].
      apply Z.log2_lt_pow2; lia.
Qed.

(** The two equations of the loop, at the level of the function. *)
Lemma encode_varint_small (value : Z) :
  0 <= value < 0x80 ->
  encode_varint value = Ok [byte_of_N (Z.to_N value)].
Proof.
  intros H. unfold encode_varint.
  rewrite encode_varint_ints_small by lia.
  unfold bytes_of_ints. cbn [rmap rbind].
  destruct (Z.leb_spec 0 value); try lia.
  destruct (Z.ltb_spec value 256); try lia.
  reflexivity.
Qed.

Lemma encode_varint_big (value : Z) :
  0x80 <= value ->
  encode_varint value
  = (bs <- encode_varint (Z.shiftr value 7) ;;
     Ok (byte_of_N (Z.to_N (Z.lor (Z.land value 0x7F) 0x80)) :: bs)).
Proof.
  intros H. unfold encode_varint.
  rewrite encode_varint_ints_big by lia.
  unfold bytes_of_ints. cbn [rmap rbind].
  pose proof (low7_or_0x80_range value) as Hr.
  destruct (Z.leb_spec 0 (Z.lor (Z.land value 0x7F) 0x80)); try lia.
  destruct (Z.ltb_spec (Z.lor (Z.land value 0x7F) 0x80) 256); try lia.
  reflexivity.
Qed.

Lemma shiftr7_bounds (v : Z) : 0x80 <= v -> 0 < Z.shiftr v 7 < v.
Proof.
  intros H. rewrite Z.shiftr_div_pow2 by lia. change (2 ^ 7) with 128.
  split.
  - apply Z.div_str_pos. lia.
  - apply Z.div_lt; lia.
Qed.

(** Induction along the turns of the loop. *)
Lemma varint_ind (P : Z -> Prop) :
  (forall v, 0 <= v < 0x80 -> P v) ->
  (forall v, 0x80 <= v -> P (Z.shiftr v 7) -> P v) ->
  forall v, 0 <= v -> P v.
Proof.
  intros Hsmall Hbig v Hv. generalize Hv. pattern v.
  apply Z_lt_induction; [|exact Hv].
  intros x IH Hx.
  destruct (Z_lt_le_dec x 0x80) as [Hlt|Hge].
  - apply Hsmall. lia.
  - pose proof (shiftr7_bounds x Hge).
    apply Hbig; [exact Hge|]. apply IH; lia.
Qed.

(** [encode_varint] returns on every nonnegative int. *)
Lemma encode_varint_total (v : Z) :
  0 <= v -> exists bs, encode_varint v = Ok bs.
Proof.
  intros Hv. pattern v. apply varint_ind; [| |exact Hv]; clear v Hv.
  - intros v Hv. rewrite encode_varint_small by exact Hv. eauto.
  - intros v Hv [bs Hbs]. rewrite encode_varint_big by exact Hv.
    rewrite Hbs. simpl. eauto.
Qed.

(** The bits of the bytes the loop appends. *)
Lemma continuation_byte (v : Z) :
  let b := byte_of_N (Z.to_N (Z.lor (Z.land v 0x7F) 0x80)) in
  Z.testbit (byte_val b) 7 = true
  /\ Z.land (byte_val b) 0x7F = Z.land v 0x7F.
Proof.
  intros b. subst b.
  rewrite byte_val_of_Z by apply low7_or_0x80_range.
  split.
  - rewrite Z.lor_spec. change (Z.testbit 0x80 7) with true.
    apply orb_true_r.
  - rewrite Z.land_lor_distr_l. change (Z.land 0x80 0x7F) with 0.
    rewrite Z.lor_0_r. rewrite <- Z.land_assoc. now rewrite Z.land_diag.
Qed.

Lemma terminating_byte (v : Z) :
  0 <= v < 0x80 ->
  let b := byte_of_N (Z.to_N v) in
  Z.testbit (byte_val b) 7 = false
  /\ Z.land (byte_val b) 0x7F = v.
Proof.
  intros Hv b. subst b.
  rewrite byte_val_of_Z by lia.
  split.
  - destruct (Z.eq_dec v 0) as [->|Hne]; [reflexivity|].
    apply Z.bits_above_log2; [lia|].
    apply Z.log2_lt_pow2; lia.
  - change 0x7F with (Z.ones 7). rewrite Z.land_ones by lia.
    apply Z.mod_small. lia.
Qed.

Lemma encode_varint_shape (v : Z) :
  0 <= v -> forall bs, encode_varint v = Ok bs -> varint_shape bs = true.
Proof.
  intros Hv. pattern v. apply varint_ind; [| |exact Hv]; clear v Hv.
  - intros v Hv bs. rewrite encode_varint_small by exact Hv.
    intros [= <-]. cbn [varint_shape].
    now rewrite (proj1 (terminating_byte v Hv)).
  - intros v Hv IH bs. rewrite encode_varint_big by exact Hv.
    intros H. apply rbind_Ok_inv in H as (bs' & Hbs' & [= <-]).
    specialize (IH bs' Hbs').
    cbn [varint_shape].
    destruct bs' as [|b' bs'']; [discriminate IH|].
    rewrite (proj1 (continuation_byte v)). exact IH.
Qed.

Lemma split_low7 (v shift : Z) :
  0 <= shift ->
  Z.lor (Z.shiftl (Z.land v 0x7F) shift) (Z.shiftl (Z.shiftr v 7) (shift + 7))
  = Z.shiftl v shift.
Proof.
  intros Hs. apply Z.bits_inj'. intros n Hn.
  rewrite Z.lor_spec, !Z.shiftl_spec by lia.
  destruct (Z_lt_le_dec n shift) as [Hlt|Hge].
  - rewrite !(Z.testbit_neg_r _ (n - _)) by lia. reflexivity.
  - change 0x7F with (Z.ones 7).
    destruct (Z_lt_le_dec (n - shift) 7) as [Hlow|Hhigh].
    + rewrite Z.land_spec, Z.ones_spec_low by lia.
      rewrite (Z.testbit_neg_r _ (n - (shift + 7))) by lia.
      now rewrite andb_true_r, orb_false_r.
    + rewrite Z.land_spec, Z.ones_spec_high by lia.
      rewrite Z.shiftr_spec by lia.
      rewrite andb_false_r. simpl. f_equal. lia.
Qed.

(** Decoding what [encode_varint] wrote gives the value back, whatever
    follows it in the cursor. *)
Lemma decode_groups_encode (v : Z) :
  0 <= v ->
  forall bs, encode_varint v = Ok bs ->
  forall shift acc consumed rest,
    0 <= shift ->
    Analyzer.decode_groups shift acc consumed (bs ++ rest)
    = Some (Z.lor acc (Z.shiftl v shift), (consumed + List.length bs)%nat).
Proof.
  intros Hv. pattern v. apply varint_ind; [| |exact Hv]; clear v Hv.
  - intros v Hv bs. rewrite encode_varint_small by exact Hv.
    intros [= <-] shift acc consumed rest Hs.
    destruct (terminating_byte v Hv) as [Hbit Hlow].
    cbn [app Analyzer.decode_groups]. rewrite Hbit, Hlow.
    cbn [List.length]. do 2 f_equal. lia.
  - intros v Hv IH bs. rewrite encode_varint_big by exact Hv.
    intros H. apply rbind_Ok_inv in H as (bs' & Hbs' & [= <-]).
    intros shift acc consumed rest Hs.
    destruct (continuation_byte v) as [Hbit Hlow].
    cbn [app Analyzer.decode_groups]. rewrite Hbit, Hlow.
    rewrite (IH bs' Hbs') by lia.
    rewrite <- Z.lor_assoc, split_low7 by lia.
    cbn [List.length]. do 2 f_equal. lia.
Qed.

Lemma decode_groups_consumes (cursor : bytes) :
  forall shift acc consumed value n,
    Analyzer.decode_groups shift acc consumed cursor = Some (value, n) ->
    (consumed < n)%nat.
Proof.
  induction cursor as [|b rest IH]; intros shift acc consumed value n;
    cbn [Analyzer.decode_groups]; [discriminate|].
  destruct (Z.testbit (byte_val b) 7).
  - intros H. apply IH in H. lia.
  - intros [= _ <-]. lia.
Qed.

(** The capped reader agrees with the decoding rule whenever the varint has
    no more continuation bytes than allowed and its value fits 64 bits. *)
Lemma readVarint_loop_decode (cursor : bytes) :
  forall budget shift acc consumed value n,
    Analyzer.decode_groups shift acc consumed cursor = Some (value, n) ->
    (n <= consumed + budget + 1)%nat ->
    value < 2 ^ 64 ->
    Analyzer.readVarint_loop budget shift acc consumed cursor
    = Analyzer.Done (value, n).
Proof.
  induction cursor as [|b rest IH]; intros budget shift acc consumed value n;
    cbn [Analyzer.decode_groups Analyzer.readVarint_loop]; [discriminate|].
  destruct (Z.testbit (byte_val b) 7).
  - intros Hdec Hn Hval.
    pose proof (decode_groups_consumes _ _ _ _ _ _ Hdec) as Hlt.
    destruct budget as [|budget]; [lia|].
    apply IH; [exact Hdec|lia|exact Hval].
  - intros [= <- <-] _ Hval.
    destruct (Z.ltb_spec (Z.lor acc (Z.shiftl (Z.land (byte_val b) 0x7F) shift))
                (2 ^ 64)); [reflexivity|lia].
Qed.

(** A decoded value that does not fit 64 bits is refused, whatever the cap. *)
Lemma readVarint_loop_wide (cursor : bytes) :
  forall budget shift acc consumed value n,
    Analyzer.decode_groups shift acc consumed cursor = Some (value, n) ->
    2 ^ 64 <= value ->
    Analyzer.readVarint_loop budget shift acc consumed cursor
    = Analyzer.Fail Analyzer.MalformedVarint.
Proof.
  induction cursor as [|b rest IH]; intros budget shift acc consumed value n;
    cbn [Analyzer.decode_groups Analyzer.readVarint_loop]; [discriminate|].
  destruct (Z.testbit (byte_val b) 7).
  - intros Hdec Hval.
    destruct budget as [|budget]; [reflexivity|].
    eapply IH; eassumption.
  - intros [= <- <-] Hval.
    destruct (Z.ltb_spec (Z.lor acc (Z.shiftl (Z.land (byte_val b) 0x7F) shift))
                (2 ^ 64)); [lia|reflexivity].
Qed.

(** A value below [2 ^ (7 * n)] takes at most [n] bytes. *)
Lemma encode_varint_length (n : nat) :
  forall v, 0 <= v < 2 ^ (7 * Z.of_nat (S n)) ->
  exists bs, encode_varint v = Ok bs /\ (List.length bs <= S n)%nat.
Proof.
  induction n as [|n IH]; intros v Hv.
  - change (2 ^ (7 * Z.of_nat 1)) with 0x80 in Hv.
    rewrite encode_varint_small by exact Hv.
    eexists; split; [reflexivity|]. simpl. lia.
  - destruct (Z_lt_le_dec v 0x80) as [Hlt|Hge].
    + rewrite encode_varint_small by lia.
      eexists; split; [reflexivity|]. simpl. lia.
    + rewrite encode_varint_big by exact Hge.
      destruct (IH (Z.shiftr v 7)) as (bs & Hbs & Hlen).
      { pose proof (shiftr7_bounds v Hge).
        split; [lia|].
        rewrite Z.shiftr_div_pow2 by lia.
        apply Z.div_lt_upper_bound; [lia|].
        rewrite <- Z.pow_add_r by lia.
        replace (7 + 7 * Z.of_nat (S n)) with (7 * Z.of_nat (S (S n))) by lia.
        lia. }
      rewrite Hbs. cbn [rbind].
      eexists; split; [reflexivity|]. simpl. lia.
Qed.
(* ================================================================= *)
(** ** Occurrences *)

Section ContainsSpec.
Context {A : Type} (eqb : A -> A -> bool).
Hypothesis eqb_eq : forall x y, eqb x y = true <-> x = y.

Lemma starts_with_spec (needle : list A) :
  forall hay, starts_with eqb needle hay = true
              <-> exists post, hay = needle ++ post.
Proof.
  induction needle as [|x needle IH]; intros hay; simpl.
  - split; [intros _; now exists hay | reflexivity].
  - destruct hay as [|y hay].
    + split; [discriminate | intros [post H]; discriminate].
    + rewrite andb_true_iff, eqb_eq, IH. split.
      * intros [-> [post ->]]. now exists post.
      * intros [post [= -> ->]]. split; [reflexivity | now exists post].
Qed.

Lemma contains_spec (needle : list A) :
  forall hay, contains eqb needle hay = true <-> infix needle hay.
Proof.
  intros hay. induction hay as [|y hay IH].
  - cbn [contains]. rewrite orb_false_r, starts_with_spec. split.
    + intros [post H]. now exists [], post.
    + intros [pre [post H]].
      destruct pre; [now exists post | discriminate].
  - cbn [contains]. rewrite orb_true_iff, starts_with_spec, IH. split.
    + intros [[post H] | [pre [post H]]].
      * now exists [], post.
      * exists (y :: pre), post. now rewrite H.
    + intros [pre [post H]]. destruct pre as [|z pre].
      * left. now exists post.
      * right. injection H as _ H. now exists pre, post.
Qed.

End ContainsSpec.

Lemma bytes_contain_spec (needle payload : bytes) :
  bytes_contain needle payload = true <-> infix needle payload.
Proof.
  apply contains_spec. intros x y. split.
  - apply Byte.byte_dec_bl.
  - apply Byte.byte_dec_lb.
Qed.

Lemma str_contains_spec (needle text : str) :
  str_contains needle text = true <-> infix needle text.
Proof. apply contains_spec. intros x y. apply N.eqb_eq. Qed.

Lemma infix_refl {A} (l : list A) : infix l l.
Proof. exists [], []. now rewrite app_nil_r. Qed.

Lemma infix_app_r {A} (n a b : list A) : infix n b -> infix n (a ++ b).
Proof.
  intros [pre [post ->]]. exists (a ++ pre), post. now rewrite <- app_assoc.
Qed.

Lemma infix_app_l {A} (n a b : list A) : infix n a -> infix n (a ++ b).
Proof.
  intros [pre [post ->]]. exists pre, (post ++ b).
  now rewrite <- !app_assoc.
Qed.

Lemma infix_cons {A} (n : list A) (x : A) (l : list A) :
  infix n l -> infix n (x :: l).
Proof. apply (infix_app_r n [x] l). Qed.

Lemma infix_trans {A} (a b c : list A) : infix a b -> infix b c -> infix a c.
Proof.
  intros [p1 [q1 ->]] [p2 [q2 ->]]. exists (p2 ++ p1), (q1 ++ q2).
  now rewrite <- !app_assoc.
Qed.

(** An occurrence in [a ++ sep :: b] of a run that has no [sep] lies in [a]
    or in [b]. *)
Lemma infix_split_at {A} (n a b : list A) (sep : A) :
  ~ In sep n -> infix n (a ++ sep :: b) -> infix n a \/ infix n b.
Proof.
  intros Hsep [pre [post H]]. revert pre H.
  induction a as [|x a IH]; intros pre H.
  - right. simpl in H. destruct pre as [|y pre].
    + destruct n as [|z n]; [now exists [], b|].
      injection H as -> _. exfalso. apply Hsep. now left.
    + injection H as _ H. now exists pre, post.
  - destruct pre as [|y pre].
    + (* the run starts with [a]'s head *)
      clear IH. left.
      assert (Hgen : forall (n l post : list A),
                 ~ In sep n -> l ++ sep :: b = n ++ post ->
                 exists post', l = n ++ post').
      { clear. intros n. induction n as [|z n IHn]; intros l post Hs H.
        - now exists l.
        - destruct l as [|w l].
          + injection H as -> _. exfalso. apply Hs. now left.
          + injection H as -> H.
            destruct (IHn l post) as [post' ->]; [|exact H|now exists post'].
            intros Hin. apply Hs. now right. }
      destruct (Hgen n (x :: a) post Hsep H) as [post' ->].
      now exists [], post'.
    + injection H as _ H. destruct (IH pre H) as [Hl|Hr].
      * left. now apply infix_cons.
      * now right.
Qed.

(* ================================================================= *)
(** ** UTF-8 *)

Lemma encode_utf8_app (a b : str) :
  encode_utf8 (a ++ b)
  = (x <- encode_utf8 a ;; y <- encode_utf8 b ;; Ok (x ++ y)).
Proof.
  induction a as [|c a IH]; simpl.
  - now destruct (encode_utf8 b).
  - destruct (utf8_char c) as [bc|e]; simpl; [|reflexivity].
    rewrite IH. destruct (encode_utf8 a) as [x|e]; simpl; [|reflexivity].
    destruct (encode_utf8 b) as [y|e]; simpl; [|reflexivity].
    now rewrite app_assoc.
Qed.

Lemma encode_utf8_app_inv (a b : str) (p : bytes) :
  encode_utf8 (a ++ b) = Ok p ->
  exists pa pb, encode_utf8 a = Ok pa /\ encode_utf8 b = Ok pb /\ p = pa ++ pb.
Proof.
  rewrite encode_utf8_app. intros H.
  apply rbind_Ok_inv in H as (pa & Ha & H).
  apply rbind_Ok_inv in H as (pb & Hb & [= <-]).
  now exists pa, pb.
Qed.

(** A text all of whose characters occur in an encodable text is
    encodable. *)
Lemma encode_utf8_chars (s s' : str) (p : bytes) :
  encode_utf8 s = Ok p ->
  (forall c, In c s' -> In c s) ->
  exists p', encode_utf8 s' = Ok p'.
Proof.
  intros Hs Hin.
  assert (Hc : forall c, In c s -> exists bc, utf8_char c = Ok bc).
  { clear Hin. revert p Hs. induction s as [|d s IH]; intros p Hs c Hc.
    - destruct Hc.
    - simpl in Hs. apply rbind_Ok_inv in Hs as (bd & Hd & Hs).
      apply rbind_Ok_inv in Hs as (bs & Hbs & _).
      destruct Hc as [<-|Hc]; [eauto|]. eapply IH; eassumption. }
  induction s' as [|c s' IH]; [now exists []|].
  destruct (Hc c) as [bc Hbc]; [apply Hin; now left|].
  destruct IH as [p' Hp']; [intros d Hd; apply Hin; now right|].
  exists (bc ++ p'). simpl. now rewrite Hbc, Hp'.
Qed.

(** ASCII text encodes byte for byte. *)
Lemma encode_utf8_ascii (s : str) :
  is_ascii s = true -> encode_utf8 s = Ok (List.map byte_of_N s).
Proof.
  induction s as [|c s IH]; [reflexivity|].
  cbn [is_ascii List.forallb]. rewrite andb_true_iff. intros [Hc Hs].
  cbn [encode_utf8 List.map]. unfold utf8_char.
  change (c <? 0x80)%N with (c <? 128)%N. rewrite Hc.
  cbn [rbind]. now rewrite (IH Hs).
Qed.

Lemma is_ascii_app (a b : str) :
  is_ascii (a ++ b) = is_ascii a && is_ascii b.
Proof. apply forallb_app. Qed.

(** An occurrence in the text is an occurrence in the payload. *)
Lemma infix_encode_utf8 (needle text : str) (nb tb : bytes) :
  encode_utf8 text = Ok tb ->
  encode_utf8 needle = Ok nb ->
  infix needle text -> infix nb tb.
Proof.
  intros Ht Hn [pre [post ->]].
  apply encode_utf8_app_inv in Ht as (ppre & p1 & _ & H1 & ->).
  apply encode_utf8_app_inv in H1 as (pn & ppost & Hn' & _ & ->).
  rewrite Hn in Hn'. injection Hn' as <-.
  now exists ppre, ppost.
Qed.

(* ================================================================= *)
(** ** Decimal text *)

Lemma string_of_uint_digits (d : Decimal.uint) :
  let s := lit (NilEmpty.string_of_uint d) in
  is_ascii s = true
  /\ List.forallb is_digit (List.map byte_of_N s) = true.
Proof.
  induction d; simpl; try (split; reflexivity);
    destruct IHd as [H1 H2]; split;
    first [ exact H1 | exact H2 ].
Qed.

Lemma str_of_int_ascii (n : Z) : is_ascii (str_of_int n) = true.
Proof.
  unfold str_of_int. destruct n as [|p|p]; simpl.
  - reflexivity.
  - apply (string_of_uint_digits (Pos.to_uint p)).
  - apply (string_of_uint_digits (Pos.to_uint p)).
Qed.

Lemma encode_utf8_str_of_int (n : Z) :
  encode_utf8 (str_of_int n) = Ok (int_bytes n).
Proof. apply encode_utf8_ascii, str_of_int_ascii. Qed.

Lemma int_bytes_digits (n : Z) :
  0 <= n ->
  int_bytes n <> [] /\ List.forallb is_digit (int_bytes n) = true.
Proof.
  intros Hn. unfold int_bytes, str_of_int.
  destruct n as [|p|p]; [split; [discriminate|reflexivity]| |lia].
  split.
  - cbn [Z.to_int NilEmpty.string_of_int].
    pose proof (Unsigned.to_uint_nonnil p) as Hnil.
    destruct (Pos.to_uint p); try contradiction; discriminate.
  - apply (string_of_uint_digits (Pos.to_uint p)).
Qed.

(* ================================================================= *)
(** ** ASCII runs in UTF-8 payloads

    UTF-8 is self-synchronising: every byte of a multi-byte sequence has its
    high bit set, so an ASCII run found in the payload was in the text. *)

Lemma lor_disjoint_add (hi y k : N) :
  (y < 2 ^ k)%N -> N.land hi (N.ones k) = 0%N -> N.lor hi y = (hi + y)%N.
Proof.
  intros Hy Hhi.
  assert (Hland : N.land hi y = 0%N).
  { rewrite <- (N.mod_small y (2 ^ k)) by exact Hy.
    rewrite <- N.land_ones, (N.land_comm y), N.land_assoc, Hhi.
    apply N.land_0_l. }
  rewrite <- N.lxor_lor by exact Hland.
  symmetry. now apply N.add_nocarry_lxor.
Qed.

Lemma shiftr_lt (c k m : N) : (c < 2 ^ (k + m))%N -> (N.shiftr c k < 2 ^ m)%N.
Proof.
  intros H. rewrite N.shiftr_div_pow2.
  apply N.Div0.div_lt_upper_bound.
  now rewrite <- N.pow_add_r.
Qed.

Lemma high_byte_lead (hi y k : N) :
  (y < 2 ^ k)%N -> N.land hi (N.ones k) = 0%N ->
  (128 <= hi)%N -> (hi + 2 ^ k <= 256)%N ->
  high_byte (byte_of_N (N.lor hi y)).
Proof.
  intros Hy Hhi Hlo Hup. unfold high_byte.
  rewrite (lor_disjoint_add hi y k Hy Hhi).
  rewrite byte_val_byte_of_N by lia. lia.
Qed.

Ltac closed_N := first [ reflexivity | vm_compute; congruence ].

Lemma high_byte_trail (z : N) :
  high_byte (byte_of_N (N.lor 0x80 (N.land z 0x3F))).
Proof.
  assert (Hy : (N.land z 0x3F < 2 ^ 6)%N).
  { change 0x3F%N with (N.ones 6). rewrite N.land_ones.
    apply N.mod_lt. discriminate. }
  apply (high_byte_lead 0x80 (N.land z 0x3F) 6 Hy); closed_N.
Qed.

Lemma utf8_char_shape (c : N) (bc : bytes) :
  utf8_char c = Ok bc ->
  ((c < 128)%N /\ bc = [byte_of_N c])
  \/ (bc <> [] /\ List.Forall high_byte bc).
Proof.
  unfold utf8_char.
  destruct (N.ltb_spec c 0x80) as [H1|H1]; [intros [= <-]; now left|].
  destruct (N.ltb_spec c 0x800) as [H2|H2].
  { assert (Hy : (N.shiftr c 6 < 2 ^ 5)%N) by (apply shiftr_lt; exact H2).
    pose proof (high_byte_lead 0xC0 (N.shiftr c 6) 5 Hy) as Hlead.
    intros [= <-]. right. split; [discriminate|].
    repeat constructor; [|apply high_byte_trail].
    apply Hlead; closed_N. }
  destruct ((0xD800 <=? c) && (c <=? 0xDFFF))%N; [discriminate|].
  destruct (N.ltb_spec c 0x10000) as [H3|H3].
  { assert (Hy : (N.shiftr c 12 < 2 ^ 4)%N) by (apply shiftr_lt; exact H3).
    pose proof (high_byte_lead 0xE0 (N.shiftr c 12) 4 Hy) as Hlead.
    intros [= <-]. right. split; [discriminate|].
    repeat constructor; try apply high_byte_trail.
    apply Hlead; closed_N. }
  destruct (N.ltb_spec 0x10FFFF c) as [H4|H4]; [discriminate|].
  assert (Hy : (N.shiftr c 18 < 2 ^ 3)%N)
    by (apply shiftr_lt; change (2 ^ (18 + 3))%N with 2097152%N; lia).
  pose proof (high_byte_lead 0xF0 (N.shiftr c 18) 3 Hy) as Hlead.
  intros [= <-]. right. split; [discriminate|].
  repeat constructor; try apply high_byte_trail.
  apply Hlead; closed_N.
Qed.

Lemma ascii_byte_low (c : N) : (c < 128)%N -> byte_val (byte_of_N c) < 128.
Proof. intros H. rewrite byte_val_byte_of_N by lia. lia. Qed.

Lemma byte_of_N_inj (c d : N) :
  (c < 128)%N -> (d < 128)%N -> byte_of_N c = byte_of_N d -> c = d.
Proof.
  intros Hc Hd H. apply (f_equal byte_val) in H.
  rewrite !byte_val_byte_of_N in H by lia. lia.
Qed.

(** An ASCII run at the head of the payload is at the head of the text. *)
Lemma prefix_utf8_ascii (tok : str) :
  is_ascii tok = true ->
  forall s p post,
    encode_utf8 s = Ok p ->
    p = List.map byte_of_N tok ++ post ->
    exists s', s = tok ++ s'.
Proof.
  induction tok as [|t tok IH]; intros Htok s p post Hs Hp.
  - now exists s.
  - cbn [is_ascii List.forallb] in Htok.
    apply andb_true_iff in Htok as [Ht Htok]. apply N.ltb_lt in Ht.
    destruct s as [|c s]; [simpl in Hs; injection Hs as <-; discriminate|].
    cbn [encode_utf8] in Hs.
    apply rbind_Ok_inv in Hs as (bc & Hbc & Hs).
    apply rbind_Ok_inv in Hs as (p1 & Hp1 & [= <-]).
    destruct (utf8_char_shape c bc Hbc) as [[Hc ->]|[Hne Hhigh]].
    + cbn [List.map app] in Hp. injection Hp as Hb Hp.
      apply byte_of_N_inj in Hb; [subst c|assumption..].
      destruct (IH Htok s p1 post Hp1 Hp) as [s' ->].
      now exists s'.
    + exfalso. destruct bc as [|b bc]; [contradiction|].
      cbn [List.map app] in Hp. injection Hp as Hb _.
      inversion Hhigh as [|? ? Hb' _]; subst.
      unfold high_byte in Hb'.
      pose proof (ascii_byte_low t Ht). lia.
Qed.

(** A run that starts with an ASCII byte does not start inside a multi-byte
    sequence. *)
Lemma skip_high_bytes (bc p1 pre tokb post : bytes) (t : byte) :
  List.Forall high_byte bc ->
  byte_val t < 128 ->
  bc ++ p1 = pre ++ (t :: tokb) ++ post ->
  exists pre', p1 = pre' ++ (t :: tokb) ++ post.
Proof.
  intros Hhigh Ht. revert pre.
  induction Hhigh as [|b bc Hb _ IH]; intros pre H.
  - now exists pre.
  - destruct pre as [|b' pre].
    + injection H as -> _. unfold high_byte in Hb. lia.
    + injection H as _ H. now apply IH in H.
Qed.

Lemma infix_utf8_ascii (tok s : str) (p : bytes) :
  tok <> [] -> is_ascii tok = true ->
  encode_utf8 s = Ok p ->
  infix (List.map byte_of_N tok) p -> infix tok s.
Proof.
  intros Hne Htok. revert p.
  induction s as [|c s IH]; intros p Hs [pre [post Hp]].
  - simpl in Hs. injection Hs as <-.
    destruct tok; [contradiction|]. destruct pre; discriminate.
  - destruct pre as [|b0 pre].
    + destruct (prefix_utf8_ascii tok Htok (c :: s) p post Hs Hp) as [s' ->].
      now exists [], s'.
    + cbn [encode_utf8] in Hs.
      apply rbind_Ok_inv in Hs as (bc & Hbc & Hs).
      apply rbind_Ok_inv in Hs as (p1 & Hp1 & [= <-]).
      apply infix_cons. apply (IH p1 Hp1).
      destruct tok as [|t tok]; [contradiction|].
      cbn [is_ascii List.forallb] in Htok.
      apply andb_true_iff in Htok as [Ht _]. apply N.ltb_lt in Ht.
      destruct (utf8_char_shape c bc Hbc) as [[Hc ->]|[_ Hhigh]].
      * injection Hp as _ Hp. now exists pre, post.
      * cbn [List.map] in Hp |- *.
        destruct (skip_high_bytes bc p1 (b0 :: pre) (List.map byte_of_N tok)
                    post (byte_of_N t) Hhigh (ascii_byte_low t Ht) Hp)
          as [pre' ->].
        now exists pre', post.
Qed.
(* ================================================================= *)
(** ** The event messages *)

Lemma map_byte_of_N_lit (s : string) : List.map byte_of_N (lit s) = B s.
Proof.
  unfold lit, B, list_byte_of_string. rewrite List.map_map.
  apply List.map_ext. intros a. unfold byte_of_N.
  now rewrite ascii_N_embedding.
Qed.

Lemma infix_fstring (l : str) (lines : list str) :
  In l lines -> infix l (fstring lines).
Proof.
  intros Hin. unfold fstring. apply infix_app_r.
  induction lines as [|l' lines IH]; [destruct Hin|].
  cbn [List.map List.concat]. destruct Hin as [->|Hin].
  - apply infix_app_l, infix_app_l, infix_refl.
  - apply infix_app_r, IH, Hin.
Qed.

(** Searching an occurrence among the pieces of a concatenation; closed
    texts are searched by computation. *)
Ltac solve_infix :=
  first [ apply infix_refl
        | apply str_contains_spec; vm_compute; reflexivity
        | apply infix_app_l; solve_infix
        | apply infix_app_r; solve_infix ].

Ltac in_lines := cbn [In]; tauto.

Ltac case_mod6 idx r :=
  let H := fresh "Hr" in
  assert (H : r = 0 \/ r = 1 \/ r = 2 \/ r = 3 \/ r = 4 \/ r = 5)
    by (pose proof (Z.mod_pos_bound idx 6); lia);
  destruct H as [H|[H|[H|[H|[H|H]]]]]; rewrite H.

Ltac loc_side_conditions :=
  split; [repeat split; first [reflexivity | discriminate]|];
  split; [lia|]; split; [lia|].

Lemma encode_utf8_lit (s : string) :
  is_ascii (lit s) = true -> encode_utf8 (lit s) = Ok (B s).
Proof.
  intros H. rewrite encode_utf8_ascii by exact H.
  now rewrite map_byte_of_N_lit.
Qed.

Lemma encode_location_str (file : string) (line column : Z) :
  is_ascii (lit file) = true ->
  encode_utf8 (location_str file line column)
  = Ok (location_text (B file) (int_bytes line) (int_bytes column)).
Proof.
  intros Hf. unfold location_str, location_text.
  rewrite !encode_utf8_app, !encode_utf8_str_of_int.
  rewrite (encode_utf8_lit file Hf).
  rewrite (encode_utf8_lit ":" eq_refl). reflexivity.
Qed.

(** A location in the text is a location in the payload. *)
Lemma location_in_payload (file : string) (line column : Z) (text : str)
  (p : bytes) :
  is_ascii (lit file) = true ->
  B file <> [] ->
  List.forallb is_filename_char (B file) = true ->
  0 <= line -> 0 <= column ->
  infix (location_str file line column) text ->
  encode_utf8 text = Ok p ->
  has_location p.
Proof.
  intros Hascii Hne Hchars Hl Hc Hin Hp.
  exists (B file), (int_bytes line), (int_bytes column).
  destruct (int_bytes_digits line Hl) as [Hl1 Hl2].
  destruct (int_bytes_digits column Hc) as [Hc1 Hc2].
  repeat (split; [assumption|]).
  apply bytes_contain_spec.
  eapply infix_encode_utf8; [exact Hp| |exact Hin].
  now apply encode_location_str.
Qed.

(** Every entry of [error_types] opens, after the package path, with a
    file, a line and a column. *)
Lemma selected_build_error_location (pkg_path : str) (target_index : Z) :
  let errors := error_types pkg_path target_index in
  let selected := List.nth (Z.to_nat (target_index mod len errors)) errors [] in
  exists file line column,
    (is_ascii (lit file) = true /\ B file <> []
     /\ List.forallb is_filename_char (B file) = true)
    /\ 0 <= line /\ 0 <= column
    /\ infix (location_str file line column) selected.
Proof.
  intros errors selected. subst selected errors.
  change (len (error_types pkg_path target_index)) with 6.
  pose proof (Z.mod_pos_bound target_index 100).
  pose proof (Z.mod_pos_bound target_index 50).
  pose proof (Z.mod_pos_bound target_index 30).
  pose proof (Z.mod_pos_bound target_index 20).
  pose proof (Z.mod_pos_bound target_index 40).
  pose proof (Z.mod_pos_bound target_index 60).
  unfold error_types, location_str.
  case_mod6 target_index (target_index mod 6);
    cbn [Z.to_nat Pos.to_nat Pos.iter_op Nat.add List.nth].
  - exists "main.cpp"%string, (42 + target_index mod 100),
      (15 + target_index mod 20).
    loc_side_conditions.
    exists (pkg_path ++ lit "/"),
      (lit " error: use of undeclared identifier 'undefined_var_"
         ++ str_of_int target_index ++ lit "'").
    rewrite <- !app_assoc. reflexivity.
  - exists "utils.h"%string, (25 + target_index mod 50), 8.
    loc_side_conditions.
    exists (pkg_path ++ lit "/"),
      (lit " error: 'missing_function' was not declared in this scope").
    rewrite <- !app_assoc. reflexivity.
  - exists "parser.cc"%string, (78 + target_index mod 30), 12.
    loc_side_conditions.
    exists (pkg_path ++ lit "/"),
      (lit " error: no matching function for call to 'parse_"
         ++ str_of_int target_index ++ lit "'").
    rewrite <- !app_assoc. reflexivity.
  - exists "BUILD"%string, (10 + target_index mod 20), 1.
    loc_side_conditions.
    exists [],
      (lit " name 'undefined_dependency_" ++ str_of_int target_index
         ++ lit "' is not defined").
    rewrite <- !app_assoc. reflexivity.
  - exists "config.py"%string, (33 + target_index mod 40), 5.
    loc_side_conditions.
    exists (pkg_path ++ lit "/"),
      (lit " SyntaxError: invalid syntax near 'broken_code_"
         ++ str_of_int target_index ++ lit "'").
    rewrite <- !app_assoc. reflexivity.
  - exists "lib.java"%string, (91 + target_index mod 60), 20.
    loc_side_conditions.
    exists (pkg_path ++ lit "/"),
      (lit " error: cannot find symbol variable missing_var_"
         ++ str_of_int target_index).
    rewrite <- !app_assoc. reflexivity.
Qed.

(** So does every entry of [test_errors]. *)
Lemma selected_test_error_location (pkg_path : str) (target_index : Z) :
  let errors := test_errors pkg_path target_index in
  let selected := List.nth (Z.to_nat (target_index mod len errors)) errors [] in
  exists file line column,
    (is_ascii (lit file) = true /\ B file <> []
     /\ List.forallb is_filename_char (B file) = true)
    /\ 0 <= line /\ 0 <= column
    /\ infix (location_str file line column) selected.
Proof.
  intros errors selected. subst selected errors.
  change (len (test_errors pkg_path target_index)) with 6.
  pose proof (Z.mod_pos_bound target_index 80).
  pose proof (Z.mod_pos_bound target_index 60).
  pose proof (Z.mod_pos_bound target_index 40).
  pose proof (Z.mod_pos_bound target_index 50).
  pose proof (Z.mod_pos_bound target_index 70).
  pose proof (Z.mod_pos_bound target_index 90).
  unfold test_errors, location_str.
  case_mod6 target_index (target_index mod 6);
    cbn [Z.to_nat Pos.to_nat Pos.iter_op Nat.add List.nth].
  - exists "test_main.py"%string, (45 + target_index mod 80), 12.
    loc_side_conditions.
    exists (pkg_path ++ lit "/"),
      (lit " AssertionError: Expected " ++ str_of_int (5 + target_index)
         ++ lit " but got " ++ str_of_int (3 + target_index)).
    rewrite <- !app_assoc. reflexivity.
  - exists "unit_tests.cpp"%string, (67 + target_index mod 60), 8.
    loc_side_conditions.
    exists (pkg_path ++ lit "/"),
      (lit " EXPECT_EQ failed: expected value_" ++ str_of_int target_index
         ++ lit " == actual_value_" ++ str_of_int target_index).
    rewrite <- !app_assoc. reflexivity.
  - exists "integration_test.java"%string, (89 + target_index mod 40), 15.
    loc_side_conditions.
    exists (pkg_path ++ lit "/"),
      (lit " junit.framework.AssertionFailedError: Test failed at step "
         ++ str_of_int target_index).
    rewrite <- !app_assoc. reflexivity.
  - exists "test_utils.go"%string, (23 + target_index mod 50), 5.
    loc_side_conditions.
    exists (pkg_path ++ lit "/"),
      (lit " panic: runtime error: index out of range ["
         ++ str_of_int target_index ++ lit "]").
    rewrite <- !app_assoc. reflexivity.
  - exists "spec_test.rb"%string, (56 + target_index mod 70), 10.
    loc_side_conditions.
    exists (pkg_path ++ lit "/"),
      (lit " RSpec::Expectations::ExpectationNotMetError: expected behavior_"
         ++ str_of_int target_index).
    rewrite <- !app_assoc. reflexivity.
  - exists "test_runner.kt"%string, (34 + target_index mod 90), 7.
    loc_side_conditions.
    exists (pkg_path ++ lit "/"),
      (lit " kotlin.test.AssertionError: Test " ++ str_of_int target_index
         ++ lit " assertion failed").
    rewrite <- !app_assoc. reflexivity.
Qed.

(** The selected error is part of the text of a failing event. *)
Lemma build_failure_content_error (target_name : str) (target_index : Z) :
  let errors := error_types (pkg_path_of target_name) target_index in
  infix (List.nth (Z.to_nat (target_index mod len errors)) errors [])
    (build_event_content target_name false target_index).
Proof.
  intros errors. subst errors.
  cbn [build_event_content].
  set (selected := List.nth _ _ _).
  eapply infix_trans; [|apply infix_fstring with
    (l := lit "    " ++ Q "description" ++ lit ": " ++ dq ++ selected ++ dq);
    in_lines].
  do 4 apply infix_app_r. apply infix_app_l, infix_refl.
Qed.

Lemma test_failure_content_error (target_name : str) (target_index : Z) :
  let errors := test_errors (pkg_path_of target_name) target_index in
  infix (List.nth (Z.to_nat (target_index mod len errors)) errors [])
    (test_event_content target_name false target_index).
Proof.
  intros errors. subst errors.
  cbn [test_event_content].
  set (selected := List.nth _ _ _).
  eapply infix_trans; [|apply infix_fstring with
    (l := lit "  " ++ Q "testFailureMessage" ++ lit ": " ++ dq ++ selected ++ dq);
    in_lines].
  do 4 apply infix_app_r. apply infix_app_l, infix_refl.
Qed.

(** Every payload of a failing build event holds a location. *)
Lemma build_failure_has_location (target_name : str) (target_index : Z)
  (p : bytes) :
  create_build_event_message target_name false target_index = Ok p ->
  has_location p.
Proof.
  intros Hp.
  destruct (selected_build_error_location (pkg_path_of target_name)
              target_index)
    as (file & line & column & (Ha & Hne & Hch) & Hl & Hc & Hin).
  apply (location_in_payload file line column
           (build_event_content target_name false target_index) p);
    try assumption.
  eapply infix_trans; [exact Hin|].
  apply build_failure_content_error.
Qed.

Lemma test_failure_has_location (target_name : str) (target_index : Z)
  (p : bytes) :
  create_test_event_message target_name false target_index = Ok p ->
  has_location p.
Proof.
  intros Hp.
  destruct (selected_test_error_location (pkg_path_of target_name)
              target_index)
    as (file & line & column & (Ha & Hne & Hch) & Hl & Hc & Hin).
  apply (location_in_payload file line column
           (test_event_content target_name false target_index) p);
    try assumption.
  eapply infix_trans; [exact Hin|].
  apply test_failure_content_error.
Qed.

(** *** The messages are produced for every encodable target name *)

Lemma encodable_app (a b : str) :
  encodable a -> encodable b -> encodable (a ++ b).
Proof.
  intros [pa Ha] [pb Hb]. exists (pa ++ pb).
  now rewrite encode_utf8_app, Ha, Hb.
Qed.

Lemma encodable_ascii (s : str) : is_ascii s = true -> encodable s.
Proof. intros H. eexists. now apply encode_utf8_ascii. Qed.

Lemma encodable_str_of_int (n : Z) : encodable (str_of_int n).
Proof. apply encodable_ascii, str_of_int_ascii. Qed.

Lemma encodable_fstring (lines : list str) :
  List.Forall encodable lines -> encodable (fstring lines).
Proof.
  intros H. unfold fstring. apply encodable_app.
  - now apply encodable_ascii.
  - induction H as [|l lines Hl _ IH]; cbn [List.map List.concat].
    + now apply encodable_ascii.
    + apply encodable_app; [|exact IH].
      apply encodable_app; [exact Hl|now apply encodable_ascii].
Qed.

Lemma encodable_nth (l : list str) (n : nat) :
  List.Forall encodable l -> encodable (List.nth n l []).
Proof.
  intros H. revert n. induction H as [|s l Hs _ IH]; intros [|n]; simpl;
    try (now apply encodable_ascii); auto.
Qed.

Lemma In_lstrip (chars s : str) (c : N) : In c (lstrip chars s) -> In c s.
Proof.
  induction s as [|d s IH]; simpl; [tauto|].
  destruct (List.existsb (N.eqb d) chars); [|tauto].
  intros H. right. now apply IH.
Qed.

Lemma In_split_first (sep : N) (s : str) (c : N) :
  In c (List.nth 0 (split sep s) []) -> In c s.
Proof.
  induction s as [|d s IH]; simpl; [tauto|].
  destruct (d =? sep)%N; simpl; [tauto|].
  destruct (split sep s) as [|w ws]; simpl in *.
  - intros [<-|[]]. now left.
  - intros [<-|H]; [now left|]. right. now apply IH.
Qed.

Lemma encodable_pkg_path (target_name : str) :
  encodable target_name -> encodable (pkg_path_of target_name).
Proof.
  intros [p Hp]. eapply encode_utf8_chars; [exact Hp|].
  intros c Hc. unfold pkg_path_of in Hc.
  now apply In_lstrip, In_split_first in Hc.
Qed.

Ltac solve_encodable :=
  repeat first
    [ assumption
    | apply encodable_str_of_int
    | apply encodable_ascii; reflexivity
    | apply encodable_app
    | apply List.Forall_cons
    | apply List.Forall_nil ].

Lemma create_build_event_message_total
  (target_name : str) (success : bool) (target_index : Z) :
  encodable target_name ->
  exists p, create_build_event_message target_name success target_index = Ok p.
Proof.
  intros Hn. pose proof (encodable_pkg_path _ Hn) as Hpkg.
  change (encodable (build_event_content target_name success target_index)).
  unfold build_event_content. destruct success.
  - apply encodable_fstring. solve_encodable.
  - assert (Hsel : encodable
      (List.nth
         (Z.to_nat (target_index
                    mod len (error_types (pkg_path_of target_name) target_index)))
         (error_types (pkg_path_of target_name) target_index) [])).
    { apply encodable_nth. unfold error_types. solve_encodable. }
    apply encodable_fstring. solve_encodable.
Qed.

Lemma create_test_event_message_total
  (target_name : str) (success : bool) (target_index : Z) :
  encodable target_name ->
  exists p, create_test_event_message target_name success target_index = Ok p.
Proof.
  intros Hn. pose proof (encodable_pkg_path _ Hn) as Hpkg.
  change (encodable (test_event_content target_name success target_index)).
  unfold test_event_content. destruct success.
  - apply encodable_fstring. solve_encodable.
  - assert (Hsel : encodable
      (List.nth
         (Z.to_nat (target_index
                    mod len (test_errors (pkg_path_of target_name) target_index)))
         (test_errors (pkg_path_of target_name) target_index) [])).
    { apply encodable_nth. unfold test_errors. solve_encodable. }
    apply encodable_fstring. solve_encodable.
Qed.

(** The names the generator gives its targets are ASCII. *)
Lemma format_0d_ascii (width : nat) (n : Z) : is_ascii (format_0d width n) = true.
Proof.
  unfold format_0d. rewrite !is_ascii_app, str_of_int_ascii, andb_true_r.
  apply andb_true_intro; split.
  - now destruct (n <? 0).
  - apply List.forallb_forall. intros c Hc.
    apply List.repeat_spec in Hc. now subst c.
Qed.

Lemma target_name_of_ascii (i : Z) : is_ascii (target_name_of i) = true.
Proof.
  unfold target_name_of. now rewrite !is_ascii_app, !format_0d_ascii.
Qed.

(** *** Tokens in the payloads of build events *)

(** An ASCII run of the text is in the payload, and conversely. *)
Lemma token_in_payload (tok text : str) (p : bytes) :
  is_ascii tok = true ->
  encode_utf8 text = Ok p ->
  infix tok text ->
  bytes_contain (List.map byte_of_N tok) p = true.
Proof.
  intros Htok Hp Hin. apply bytes_contain_spec.
  eapply infix_encode_utf8; [exact Hp| |exact Hin].
  now apply encode_utf8_ascii.
Qed.

Lemma token_not_in_payload (tok text : str) (p : bytes) :
  tok <> [] -> is_ascii tok = true ->
  encode_utf8 text = Ok p ->
  str_contains tok text = false ->
  bytes_contain (List.map byte_of_N tok) p = false.
Proof.
  intros Hne Htok Hp Hnot.
  destruct (bytes_contain (List.map byte_of_N tok) p) eqn:Hc; [|reflexivity].
  apply bytes_contain_spec in Hc.
  apply (infix_utf8_ascii tok text p Hne Htok Hp) in Hc.
  apply str_contains_spec in Hc. congruence.
Qed.

Lemma build_failure_tokens (target_name : str) (target_index : Z) (p : bytes) :
  create_build_event_message target_name false target_index = Ok p ->
  bytes_contain (B "BUILD_FAILED") p = true
  /\ bytes_contain (B "aborted") p = true
  /\ bytes_contain (B "success") p = true
  /\ bytes_contain (List.map byte_of_N (Q "success" ++ lit ": false")) p = true.
Proof.
  intros Hp. unfold create_build_event_message in Hp.
  rewrite <- !map_byte_of_N_lit.
  repeat split; (eapply token_in_payload; [reflexivity|exact Hp|]);
    cbn [build_event_content].
  - eapply infix_trans; [|apply infix_fstring with
      (l := lit "    " ++ Q "reason" ++ lit ": " ++ Q "BUILD_FAILED" ++ lit ",");
      in_lines].
    unfold Q. solve_infix.
  - eapply infix_trans; [|apply infix_fstring with
      (l := lit "  " ++ Q "aborted" ++ lit ": {"); in_lines].
    unfold Q. solve_infix.
  - eapply infix_trans; [|apply infix_fstring with
      (l := lit "    " ++ Q "success" ++ lit ": false"); in_lines].
    unfold Q. solve_infix.
  - eapply infix_trans; [|apply infix_fstring with
      (l := lit "    " ++ Q "success" ++ lit ": false"); in_lines].
    solve_infix.
Qed.

(** The entries of [error_types] that say [error] in lower case. *)
Lemma build_failure_error_token (target_name : str) (target_index : Z)
  (p : bytes) :
  create_build_event_message target_name false target_index = Ok p ->
  List.existsb (Z.eqb (target_index mod 6)) [0; 1; 2; 5] = true ->
  bytes_contain (B "error") p = true.
Proof.
  intros Hp Hidx. unfold create_build_event_message in Hp.
  rewrite <- map_byte_of_N_lit.
  eapply token_in_payload; [reflexivity|exact Hp|].
  eapply infix_trans; [|apply build_failure_content_error].
  change (len (error_types (pkg_path_of target_name) target_index)) with 6.
  revert Hidx. unfold error_types.
  case_mod6 target_index (target_index mod 6);
    cbn [Z.to_nat Pos.to_nat Pos.iter_op Nat.add List.nth];
    intros Hidx; try discriminate Hidx; solve_infix.
Qed.

(** The text of a passing build event around the target name. *)
Lemma build_success_content_shape :
  exists X Y : str,
    (forall target_name target_index,
        build_event_content target_name true target_index
        = X ++ 34%N :: target_name ++ 34%N :: Y)
    /\ (forall tok,
           In tok ["failed"; "error"; "aborted"]%string ->
           str_contains (lit tok) X = false
           /\ str_contains (lit tok) Y = false).
Proof.
  exists (List.firstn 53 (build_event_content [] true 0)),
         (List.skipn 55 (build_event_content [] true 0)).
  split.
  - intros target_name target_index.
    unfold build_event_content, fstring. cbn [List.map List.concat].
    rewrite <- !app_assoc. reflexivity.
  - intros tok [<-|[<-|[<-|[]]]]; split; vm_compute; reflexivity.
Qed.

Lemma build_success_tokens (target_name : str) (target_index : Z) (p : bytes) :
  create_build_event_message target_name true target_index = Ok p ->
  bytes_contain (List.map byte_of_N (Q "success" ++ lit ": true")) p = true
  /\ forall tok,
       In tok ["failed"; "error"; "aborted"]%string ->
       str_contains (lit tok) target_name = false ->
       bytes_contain (B tok) p = false.
Proof.
  intros Hp. unfold create_build_event_message in Hp. split.
  - eapply token_in_payload; [reflexivity|exact Hp|].
    cbn [build_event_content].
    eapply infix_trans; [|apply infix_fstring with
      (l := lit "    " ++ Q "success" ++ lit ": true"); in_lines].
    solve_infix.
  - intros tok Htok Hname.
    destruct build_success_content_shape as (X & Y & Hshape & Hskel).
    destruct (Hskel tok Htok) as [HX HY].
    assert (Hascii : is_ascii (lit tok) = true /\ lit tok <> []
                     /\ ~ In 34%N (lit tok)).
    { destruct Htok as [<-|[<-|[<-|[]]]];
        (split; [reflexivity|split; [discriminate|]]);
        cbn; intuition discriminate. }
    destruct Hascii as (Hascii & Hne & Hq).
    rewrite <- map_byte_of_N_lit.
    apply (token_not_in_payload (lit tok) _ p Hne Hascii Hp).
    destruct (str_contains (lit tok)
                (build_event_content target_name true target_index)) eqn:Hc;
      [|reflexivity].
    exfalso. apply str_contains_spec in Hc. rewrite Hshape in Hc.
    apply (infix_split_at _ _ _ _ Hq) in Hc as [Hc|Hc].
    + apply str_contains_spec in Hc. congruence.
    + apply (infix_split_at _ _ _ _ Hq) in Hc as [Hc|Hc];
        apply str_contains_spec in Hc; congruence.
Qed.
(* ================================================================= *)
(** ** The reciprocal of the failure rate

    [1 / failure_rate] is a binary64 division; what [int] makes of it depends
    on whether the quotient is finite. *)

Lemma digits2_pos_size (p : positive) : digits2_pos p = Pos.size p.
Proof. induction p; simpl; congruence. Qed.

Lemma digits2_pos_bounds (p : positive) :
  2 ^ (Zpos (digits2_pos p) - 1) <= Zpos p < 2 ^ Zpos (digits2_pos p).
Proof.
  rewrite digits2_pos_size.
  pose proof (Pos.size_gt p) as Hgt. pose proof (Pos.size_le p) as Hle.
  apply Pos2Z.pos_lt_pos in Hgt. apply Pos2Z.pos_le_pos in Hle.
  rewrite Pos2Z.inj_pow in Hgt, Hle.
  split; [|exact Hgt].
  change (Zpos p~0) with (2 * Zpos p) in Hle.
  replace (Zpos (Pos.size p)) with (Zpos (Pos.size p) - 1 + 1) in Hle by lia.
  rewrite Z.pow_add_r, Z.pow_1_r in Hle by lia. lia.
Qed.

Lemma Zdigits2_unique (q k : Z) :
  0 < q -> 2 ^ (k - 1) <= q < 2 ^ k -> Zdigits2 q = k.
Proof.
  intros Hq [Hlo Hhi]. destruct q as [|p|p]; try lia. cbn [Zdigits2].
  pose proof (digits2_pos_bounds p) as [Dlo Dhi].
  set (d := Zpos (digits2_pos p)) in *.
  assert (0 < k).
  { destruct (Z_lt_le_dec 0 k); [assumption|].
    assert (2 ^ k <= 2 ^ 0)
      by (destruct (Z.eq_dec k 0) as [->|];
          [lia|rewrite Z.pow_neg_r by lia; lia]).
    change (2 ^ 0) with 1 in *. lia. }
  destruct (Z.lt_trichotomy d k) as [Hlt|[Heq|Hgt]]; [|exact Heq|].
  - assert (2 ^ d <= 2 ^ (k - 1)) by (apply Z.pow_le_mono_r; lia). lia.
  - assert (2 ^ k <= 2 ^ (d - 1)) by (apply Z.pow_le_mono_r; lia). lia.
Qed.

Lemma loc_of_shr_record_of_loc (m : Z) (l : location) :
  loc_of_shr_record (shr_record_of_loc m l) = l
  /\ shr_m (shr_record_of_loc m l) = m.
Proof. destruct l as [|[]]; split; reflexivity. Qed.

Lemma shr_fexp_fits (q e' : Z) (l : location) :
  Zdigits2 q = 53 -> -1074 <= e' ->
  shr_fexp prec emax q e' l = (shr_record_of_loc q l, e').
Proof.
  intros Hd He. unfold shr_fexp, fexp, emin, prec, emax. rewrite Hd.
  replace (Z.max (53 + e' - 53) (3 - 1024 - 53) - e') with 0 by lia.
  reflexivity.
Qed.

Lemma shr_fexp_2p53 (e' : Z) :
  -1075 <= e' ->
  shr_fexp prec emax (2 ^ 53) e' loc_Exact
  = ({| shr_m := 2 ^ 52; shr_r := false; shr_s := false |}, e' + 1).
Proof.
  intros He. unfold shr_fexp, fexp, emin, prec, emax.
  change (Zdigits2 (2 ^ 53)) with 54.
  replace (Z.max (54 + e' - 53) (3 - 1024 - 53) - e') with 1 by lia.
  reflexivity.
Qed.

Lemma round_nearest_even_step (q : Z) (l : location) :
  round_nearest_even q l = q \/ round_nearest_even q l = q + 1.
Proof.
  destruct l as [|[]]; simpl; auto. destruct (Z.even q); auto.
Qed.

Lemma new_location_exact (m : Z) : new_location m 0 = loc_Exact.
Proof.
  unfold new_location, new_location_even, new_location_odd.
  now destruct (Z.even m).
Qed.

(** What validity and the two comparisons say of the mantissa and the
    exponent. *)
Lemma rate_shape (m : positive) (e d : Z) :
  d = Zpos (digits2_pos m) ->
  valid_binary prec emax (S754_finite false m e) = true ->
  float_le (S754_finite false m e) (float_of_int 1) = true ->
  float_lt largest_overflowing_rate (S754_finite false m e) = true ->
  (d + e <= 0 \/ (Zpos m = 2 ^ 52 /\ e = -52 /\ d = 53))
  /\ -1074 <= e /\ 0 < d <= 53
  /\ 2 ^ (d - 1) <= Zpos m < 2 ^ d
  /\ (-1020 <= d + e \/ (e = -1074 /\ 2 ^ 50 < Zpos m /\ 51 <= d)).
Proof.
  intros Hd Hvalid Hle Hlt.
  cbn [valid_binary] in Hvalid. unfold bounded, canonical_mantissa in Hvalid.
  apply andb_true_iff in Hvalid as [Hcanon _].
  apply Z.eqb_eq in Hcanon. unfold fexp, emin, prec, emax in Hcanon.
  rewrite <- Hd in Hcanon.
  pose proof (digits2_pos_bounds m) as [Dlo Dhi]. rewrite <- Hd in Dlo, Dhi.
  assert (Hd0 : 0 < d) by lia.
  change (float_of_int 1) with (S754_finite false 4503599627370496 (-52)) in Hle.
  unfold float_le, SFleb, SFcompare in Hle.
  unfold float_lt, largest_overflowing_rate, SFltb, SFcompare in Hlt.
  rewrite Pos.compare_cont_spec in Hle, Hlt. cbn [Pos.switch_Eq] in Hle, Hlt.
  assert (He : -1074 <= e) by lia.
  assert (Hd53 : d <= 53) by lia.
  repeat split; try assumption.
  - destruct (Z.compare_spec e (-52)) as [He52|He52|He52]; [| |discriminate].
    + right. assert (d = 53) by lia. subst d.
      destruct (Pos.compare_spec m 4503599627370496) as [Hm|Hm|Hm];
        try discriminate.
      * now rewrite Hm.
      * apply Pos2Z.pos_lt_pos in Hm. exfalso.
        replace (Zpos (digits2_pos m)) with 53 in Dlo by lia.
        change (2 ^ (53 - 1)) with 4503599627370496 in Dlo. lia.
    + left. lia.
  - destruct (Z.compare_spec (-1074) e) as [He74|He74|He74]; [| |discriminate].
    + right. split; [lia|].
      destruct (Pos.compare_spec (2 ^ 50) m) as [Hm|Hm|Hm]; try discriminate.
      apply Pos2Z.pos_lt_pos in Hm.
      change (Zpos (2 ^ 50)) with (2 ^ 50) in Hm. split; [exact Hm|].
      destruct (Z_lt_le_dec d 51) as [Hsmall|]; [|assumption].
      assert (2 ^ d <= 2 ^ 50) by (apply Z.pow_le_mono_r; lia). lia.
    + left. lia.
Qed.

Lemma div_eucl_div_mod (a b : Z) : Z.div_eucl a b = (a / b, a mod b).
Proof. unfold Z.div, Z.modulo. now destruct (Z.div_eucl a b). Qed.

(** The quotient and the exponent [SFdiv] rounds for [1.0 / fr]. *)
Lemma SFdiv_core_binary_one (m : positive) (e d : Z) :
  d = Zpos (digits2_pos m) -> d + e <= 1 ->
  SFdiv_core_binary prec emax 4503599627370496 (-52) (Zpos m) e
  = (2 ^ (52 + d) / Zpos m, -52 - d - e,
     new_location (Zpos m) (2 ^ (52 + d) mod Zpos m)).
Proof.
  intros Hd Hde. unfold SFdiv_core_binary.
  change (Zdigits2 4503599627370496) with 53.
  cbn [Zdigits2]. rewrite <- Hd.
  assert (Hpos : 0 < d) by (subst d; lia).
  replace (Z.min (fexp prec emax (53 + -52 - (d + e))) (-52 - e))
    with (-52 - d - e) by (unfold fexp, emin, prec, emax; lia).
  replace (-52 - e - (-52 - d - e)) with d by lia.
  assert (Hshift : match d with
                   | Z0 => 4503599627370496
                   | Zpos _ => Z.shiftl 4503599627370496 d
                   | Zneg _ => 0
                   end = 2 ^ (52 + d)).
  { destruct d as [|p|p]; try lia.
    rewrite Z.shiftl_mul_pow2 by lia.
    rewrite Z.pow_add_r by lia. reflexivity. }
  rewrite Hshift, div_eucl_div_mod. reflexivity.
Qed.

Lemma binary_round_aux_2p53 (e' : Z) :
  -1075 <= e' ->
  binary_round_aux prec emax false (2 ^ 53) e' loc_Exact
  = if e' + 1 <=? 971 then S754_finite false (2 ^ 52) (e' + 1)
    else S754_infinity false.
Proof.
  intros He. unfold binary_round_aux.
  rewrite shr_fexp_2p53 by exact He.
  cbn [shr_m loc_of_shr_record round_nearest_even].
  rewrite shr_fexp_fits by (try reflexivity; lia).
  reflexivity.
Qed.

Lemma binary_round_aux_53 (q e' : Z) (l : location) :
  2 ^ 52 <= q < 2 ^ 53 -> -1074 <= e' ->
  exists mx : positive,
    (Zpos mx = q \/ Zpos mx = q + 1)
    /\ binary_round_aux prec emax false q e' l
       = if Zpos mx <? 2 ^ 53
         then (if e' <=? 971 then S754_finite false mx e'
               else S754_infinity false)
         else (if e' + 1 <=? 971 then S754_finite false (2 ^ 52) (e' + 1)
               else S754_infinity false).
Proof.
  intros Hq He. unfold binary_round_aux.
  rewrite shr_fexp_fits by (try apply Zdigits2_unique; lia).
  destruct (loc_of_shr_record_of_loc q l) as [-> ->].
  destruct (round_nearest_even_step q l) as [Hmx|Hmx]; rewrite Hmx.
  - destruct q as [|mx|mx]; try lia. exists mx. split; [now left|].
    destruct (Z.ltb_spec (Zpos mx) (2 ^ 53)); [|lia].
    rewrite shr_fexp_fits by (try apply Zdigits2_unique; lia).
    reflexivity.
  - destruct (q + 1) as [|mx|mx] eqn:Hq1; try lia. exists mx.
    split; [now right|].
    destruct (Z.ltb_spec (Zpos mx) (2 ^ 53)) as [Hlt|Hge].
    + rewrite shr_fexp_fits by (try apply Zdigits2_unique; lia).
      reflexivity.
    + assert (Hmx53 : Zpos mx = 2 ^ 53) by lia. rewrite Hmx53.
      rewrite shr_fexp_2p53 by lia. reflexivity.
Qed.

Lemma shiftl_ge_1 (mq : positive) (eq : Z) :
  2 ^ 52 <= Zpos mq -> -52 <= eq -> 1 <= Z.shiftl (Zpos mq) eq.
Proof.
  intros Hm He. destruct (Z_lt_le_dec eq 0) as [Hneg|Hpos].
  - rewrite <- (Z.opp_involutive eq), Z.shiftl_opp_r.
    rewrite Z.shiftr_div_pow2 by lia.
    apply Z.div_le_lower_bound; [apply Z.pow_pos_nonneg; lia|].
    rewrite Z.mul_1_r.
    eapply Z.le_trans; [|exact Hm]. apply Z.pow_le_mono_r; lia.
  - rewrite Z.shiftl_mul_pow2 by lia.
    pose proof (Z.pow_pos_nonneg 2 eq ltac:(lia) Hpos). nia.
Qed.

(** The reciprocal of a rate in (2^-1024, 1] is finite and at least one. *)
Lemma reciprocal_of_rate (m : positive) (e : Z) :
  valid_binary prec emax (S754_finite false m e) = true ->
  float_le (S754_finite false m e) (float_of_int 1) = true ->
  float_lt largest_overflowing_rate (S754_finite false m e) = true ->
  exists mq eq,
    SFdiv prec emax (float_of_int 1) (S754_finite false m e)
    = S754_finite false mq eq
    /\ 1 <= Z.shiftl (Zpos mq) eq.
Proof.
  intros Hvalid Hle Hlt.
  destruct (rate_shape m e (Zpos (digits2_pos m)) eq_refl Hvalid Hle Hlt)
    as (Hone & He & Hd & Hm & Hlow).
  set (d := Zpos (digits2_pos m)) in *.
  change (float_of_int 1) with (S754_finite false 4503599627370496 (-52)).
  cbn [SFdiv xorb].
  rewrite (SFdiv_core_binary_one m e d eq_refl) by lia.
  set (q := 2 ^ (52 + d) / Zpos m).
  set (e' := -52 - d - e).
  assert (Hpow : 2 ^ (52 + d) = 2 ^ 53 * 2 ^ (d - 1)).
  { rewrite <- Z.pow_add_r by lia. f_equal. lia. }
  assert (Hpow' : 2 ^ (52 + d) = 2 ^ 52 * 2 ^ d).
  { rewrite <- Z.pow_add_r by lia. reflexivity. }
  assert (Hq : 2 ^ 52 <= q <= 2 ^ 53).
  { subst q. split.
    - apply Z.div_le_lower_bound; [lia|]. rewrite Hpow'. nia.
    - apply Z.div_le_upper_bound; [lia|]. rewrite Hpow. nia. }
  destruct (Z.eq_dec q (2 ^ 53)) as [Hq53|Hq53].
  - (* the rate is a power of two *)
    assert (Hmpow : Zpos m = 2 ^ (d - 1)).
    { assert (Zpos m * q <= 2 ^ (52 + d))
        by (subst q; apply Z.mul_div_le; lia).
      rewrite Hq53, Hpow in H. nia. }
    assert (Hmod : 2 ^ (52 + d) mod Zpos m = 0).
    { rewrite Hpow, Hmpow. apply Z.mod_mul.
      apply Z.pow_nonzero; lia. }
    rewrite Hmod, new_location_exact, Hq53.
    rewrite binary_round_aux_2p53 by (subst e'; lia).
    assert (Hcap : e' + 1 <= 971).
    { subst e'. destruct Hlow as [Hlow|(He74 & Hm50 & Hd51)]; [lia|].
      assert (d <> 51).
      { intros ->. change (2 ^ (51 - 1)) with (2 ^ 50) in Hmpow. lia. }
      lia. }
    destruct (Z.leb_spec (e' + 1) 971); [|lia].
    exists (2 ^ 52)%positive, (e' + 1). split; [reflexivity|].
    apply shiftl_ge_1; [reflexivity|subst e'; lia].
  - assert (Hq' : 2 ^ 52 <= q < 2 ^ 53) by lia.
    assert (Hde : d + e <= 0).
    { destruct Hone as [Hde|(Hm52 & He52 & Hd53)]; [exact Hde|].
      exfalso. apply Hq53. subst q. rewrite Hd53, Hm52. reflexivity. }
    destruct (binary_round_aux_53 q e'
                (new_location (Zpos m) (2 ^ (52 + d) mod Zpos m)) Hq')
      as (mx & Hmx & ->); [subst e'; lia|].
    destruct (Z.ltb_spec (Zpos mx) (2 ^ 53)) as [Hlt53|Hge53].
    + assert (Hcap : e' <= 971).
      { subst e'. destruct Hlow as [Hlow|(He74 & Hm50 & Hd51)]; lia. }
      destruct (Z.leb_spec e' 971); [|lia].
      exists mx, e'. split; [reflexivity|].
      apply shiftl_ge_1; [lia|subst e'; lia].
    + (* the quotient rounds up to 2^53 *)
      assert (Hqmax : q = 2 ^ 53 - 1) by lia.
      assert (Hcap : e' + 1 <= 971).
      { subst e'. destruct Hlow as [Hlow|(He74 & Hm50 & Hd51)]; [lia|].
        destruct (Z.eq_dec d 51) as [Hd51'|]; [|lia]. exfalso.
        assert (Hbound : 2 ^ (52 + d) < Zpos m * (q + 1)).
        { subst q.
          pose proof (Z.mod_pos_bound (2 ^ (52 + d)) (Zpos m)).
          pose proof (Z.div_mod (2 ^ (52 + d)) (Zpos m)). nia. }
        rewrite Hqmax, Hd51' in Hbound.
        change (2 ^ (52 + 51)) with (2 ^ 53 * 2 ^ 50) in Hbound.
        replace (2 ^ 53 - 1 + 1) with (2 ^ 53) in Hbound by lia.
        assert (Zpos m * q <= 2 ^ (52 + d))
          by (subst q; apply Z.mul_div_le; lia).
        rewrite Hqmax, Hd51' in H.
        change (2 ^ (52 + 51)) with (2 ^ 53 * 2 ^ 50) in H.
        nia. }
      destruct (Z.leb_spec (e' + 1) 971); [|lia].
      exists (2 ^ 52)%positive, (e' + 1). split; [reflexivity|].
      apply shiftl_ge_1; [reflexivity|subst e'; lia].
Qed.

(** The reciprocal of a positive rate up to 2^-1024 is infinite. *)
Lemma reciprocal_of_tiny_rate (m : positive) (e : Z) :
  valid_binary prec emax (S754_finite false m e) = true ->
  float_le (S754_finite false m e) largest_overflowing_rate = true ->
  SFdiv prec emax (float_of_int 1) (S754_finite false m e)
  = S754_infinity false.
Proof.
  intros Hvalid Hle.
  cbn [valid_binary] in Hvalid. unfold bounded, canonical_mantissa in Hvalid.
  apply andb_true_iff in Hvalid as [Hcanon _].
  apply Z.eqb_eq in Hcanon. unfold fexp, emin, prec, emax in Hcanon.
  pose proof (digits2_pos_bounds m) as [Dlo Dhi].
  set (d := Zpos (digits2_pos m)) in *.
  assert (Hd0 : 0 < d) by (subst d; lia).
  unfold float_le, largest_overflowing_rate, SFleb, SFcompare in Hle.
  rewrite Pos.compare_cont_spec in Hle. cbn [Pos.switch_Eq] in Hle.
  assert (Hshape : e = -1074 /\ Zpos m <= 2 ^ 50).
  { destruct (Z.compare_spec e (-1074)) as [He|He|He]; [|lia|discriminate].
    split; [exact He|].
    destruct (Pos.compare_spec m (2 ^ 50)) as [Hm|Hm|Hm]; try discriminate.
    - rewrite Hm. reflexivity.
    - apply Pos2Z.pos_lt_pos in Hm.
      change (Zpos (2 ^ 50)) with (2 ^ 50) in Hm. lia. }
  destruct Hshape as [-> Hm50].
  assert (Hd51 : d <= 51).
  { destruct (Z_lt_le_dec 51 d) as [Hbig|]; [|assumption].
    assert (2 ^ 51 <= 2 ^ (d - 1)) by (apply Z.pow_le_mono_r; lia). lia. }
  change (float_of_int 1) with (S754_finite false 4503599627370496 (-52)).
  cbn [SFdiv xorb].
  rewrite (SFdiv_core_binary_one m (-1074) d eq_refl) by lia.
  set (q := 2 ^ (52 + d) / Zpos m).
  set (e' := -52 - d - -1074).
  assert (Hpow : 2 ^ (52 + d) = 2 ^ 53 * 2 ^ (d - 1)).
  { rewrite <- Z.pow_add_r by lia. f_equal. lia. }
  assert (Hpow' : 2 ^ (52 + d) = 2 ^ 52 * 2 ^ d).
  { rewrite <- Z.pow_add_r by lia. reflexivity. }
  assert (Hq : 2 ^ 52 <= q <= 2 ^ 53).
  { subst q. split.
    - apply Z.div_le_lower_bound; [lia|]. rewrite Hpow'. nia.
    - apply Z.div_le_upper_bound; [lia|]. rewrite Hpow. nia. }
  destruct (Z.eq_dec q (2 ^ 53)) as [Hq53|Hq53].
  - assert (Hmpow : Zpos m = 2 ^ (d - 1)).
    { assert (Zpos m * q <= 2 ^ (52 + d))
        by (subst q; apply Z.mul_div_le; lia).
      rewrite Hq53, Hpow in H. nia. }
    assert (Hmod : 2 ^ (52 + d) mod Zpos m = 0).
    { rewrite Hpow, Hmpow. apply Z.mod_mul. apply Z.pow_nonzero; lia. }
    rewrite Hmod, new_location_exact, Hq53.
    rewrite binary_round_aux_2p53 by (subst e'; lia).
    destruct (Z.leb_spec (e' + 1) 971); [subst e'; lia|reflexivity].
  - assert (Hq' : 2 ^ 52 <= q < 2 ^ 53) by lia.
    assert (Hd50 : d <= 50).
    { destruct (Z.eq_dec d 51) as [Hd|]; [|lia]. exfalso. apply Hq53.
      assert (Zpos m = 2 ^ 50).
      { rewrite Hd in Dlo. change (2 ^ (51 - 1)) with (2 ^ 50) in Dlo. lia. }
      subst q. rewrite Hd, H. reflexivity. }
    destruct (binary_round_aux_53 q e'
                (new_location (Zpos m) (2 ^ (52 + d) mod Zpos m)) Hq')
      as (mx & Hmx & ->); [subst e'; lia|].
    destruct (Z.leb_spec e' 971); [subst e'; lia|].
    destruct (Z.leb_spec (e' + 1) 971); [subst e'; lia|].
    now destruct (Zpos mx <? 2 ^ 53).
Qed.

(* ================================================================= *)
(** ** The generator *)

Lemma len_nonneg {A} (l : list A) : 0 <= len l.
Proof. unfold len. lia. Qed.

Lemma framed_app (ps qs : list bytes) (s t : bytes) :
  framed ps s -> framed qs t -> framed (ps ++ qs) (s ++ t).
Proof.
  intros Hs Ht. induction Hs as [|p pre ps rest Hpre _ IH]; [exact Ht|].
  cbn [app]. rewrite <- !app_assoc. now constructor.
Qed.

Lemma framed_one (p pre : bytes) :
  encode_varint (len p) = Ok pre -> framed [p] (pre ++ p).
Proof.
  intros H. rewrite <- (app_nil_r p) at 2. constructor; [exact H|constructor].
Qed.

Lemma event_payload_total (failing : bool) (i : Z) :
  exists p, event_payload failing i = Ok p.
Proof.
  unfold event_payload.
  assert (Hn : encodable (target_name_of i))
    by apply encodable_ascii, target_name_of_ascii.
  destruct (i mod 2 =? 0).
  - now apply create_build_event_message_total.
  - now apply create_test_event_message_total.
Qed.

(** One turn of the loop appends one framed message. *)
Lemma target_event_run (failure_rate : float) (i num_failures : Z)
  (failing : bool) (f : bytes) :
  is_failure_at failure_rate i = Ok failing ->
  exists message prefix,
    event_payload failing i = Ok message
    /\ encode_varint (len message) = Ok prefix
    /\ target_event failure_rate i num_failures f
       = (f ++ prefix ++ message,
          Ok (if failing then num_failures + 1 else num_failures)).
Proof.
  intros Hfail.
  destruct (event_payload_total failing i) as [message Hmsg].
  destruct (encode_varint_total (len message) (len_nonneg _)) as [prefix Hpre].
  exists message, prefix. repeat split; try assumption.
  unfold target_event, io_bind, io_eval, write, io_ret.
  rewrite Hfail. unfold event_payload in Hmsg. rewrite Hmsg, Hpre.
  now rewrite <- app_assoc.
Qed.

(** A turn that cannot tell whether the target fails writes nothing. *)
Lemma target_event_raise (failure_rate : float) (i num_failures : Z)
  (e : exn) (f : bytes) :
  is_failure_at failure_rate i = Raise e ->
  target_event failure_rate i num_failures f = (f, Raise e).
Proof.
  intros Hfail. unfold target_event, io_bind, io_eval. now rewrite Hfail.
Qed.

Lemma count_failing_cons (failing : Z -> bool) (i : Z) (l : list Z) :
  count_failing failing (i :: l)
  = (if failing i then 1 else 0) + count_failing failing l.
Proof.
  unfold count_failing, len. cbn [List.filter].
  destruct (failing i); cbn [List.length]; lia.
Qed.

Lemma In_range_from (i : Z) (n : nat) (j : Z) :
  In j (range_from i n) <-> i <= j < i + Z.of_nat n.
Proof.
  revert i. induction n as [|n IH]; intros i; cbn [range_from In].
  - lia.
  - rewrite IH. lia.
Qed.

Lemma In_range (num_targets j : Z) :
  In j (range num_targets) <-> 0 <= j < num_targets.
Proof. unfold range. rewrite In_range_from. lia. Qed.

(** The loop over the targets appends their framed messages in order and
    counts the failing ones. *)
Lemma for_range_run (failure_rate : float) (failing : Z -> bool) (n : nat) :
  forall i num_failures f,
    (forall j, In j (range_from i n) ->
               is_failure_at failure_rate j = Ok (failing j)) ->
    exists events stream,
      List.Forall2 (fun j p => event_payload (failing j) j = Ok p)
        (range_from i n) events
      /\ framed events stream
      /\ for_range n i (target_event failure_rate) num_failures f
         = (f ++ stream,
            Ok (num_failures + count_failing failing (range_from i n))).
Proof.
  induction n as [|n IH]; intros i num_failures f Hfail.
  - exists [], []. repeat split; try constructor.
    cbn. unfold io_ret. rewrite app_nil_r. do 2 f_equal.
    unfold count_failing, len. simpl. lia.
  - cbn [range_from for_range].
    destruct (target_event_run failure_rate i num_failures (failing i) f)
      as (message & prefix & Hmsg & Hpre & Hrun);
      [apply Hfail; now left|].
    destruct (IH (i + 1)
                (if failing i then num_failures + 1 else num_failures)
                (f ++ prefix ++ message))
      as (events & stream & Hev & Hfr & Hloop);
      [intros j Hj; apply Hfail; now right|].
    exists (message :: events), (prefix ++ message ++ stream).
    repeat split.
    + now constructor.
    + now constructor.
    + unfold io_bind. rewrite Hrun, Hloop.
      rewrite count_failing_cons, <- !app_assoc.
      do 2 f_equal. destruct (failing i); lia.
Qed.

Lemma completion_content_ascii (num_failures : Z) :
  is_ascii (completion_content num_failures) = true.
Proof. unfold completion_content. now destruct (0 <? num_failures). Qed.

(** The whole run: header, targets, completion. *)
Lemma generate_large_bep_file_run (num_targets : Z) (failure_rate : float)
  (failing : Z -> bool) :
  (forall j, 0 <= j < num_targets ->
             is_failure_at failure_rate j = Ok (failing j)) ->
  let num_failures := count_failing failing (range num_targets) in
  exists events completion_msg stream,
    List.Forall2 (fun j p => event_payload (failing j) j = Ok p)
      (range num_targets) events
    /\ encode_utf8 (completion_content num_failures) = Ok completion_msg
    /\ framed (header_msg :: events ++ [completion_msg]) stream
    /\ generate_large_bep_file num_targets failure_rate
       = (stream, Ok num_failures).
Proof.
  intros Hfail num_failures.
  destruct (encode_varint_total (len header_msg) (len_nonneg _)) as [hp Hhp].
  destruct (for_range_run failure_rate failing (Z.to_nat num_targets) 0 0
              ([] ++ hp ++ header_msg))
    as (events & stream & Hev & Hfr & Hloop).
  { intros j Hj. apply Hfail. now apply In_range. }
  fold (range num_targets) in Hev, Hloop. fold num_failures in Hloop.
  rewrite Z.add_0_l in Hloop.
  pose proof (encode_utf8_ascii _ (completion_content_ascii num_failures))
    as Hcm.
  set (completion_msg := List.map byte_of_N (completion_content num_failures))
    in *.
  destruct (encode_varint_total (len completion_msg) (len_nonneg _))
    as [cp Hcp].
  exists events, completion_msg, (hp ++ header_msg ++ stream ++ cp ++ completion_msg).
  repeat split; try assumption.
  - constructor; [exact Hhp|].
    apply framed_app; [exact Hfr|now apply framed_one].
  - unfold generate_large_bep_file, generate_large_bep_file_body.
    unfold io_bind at 1. unfold io_eval at 1. rewrite Hhp.
    unfold io_bind at 1. unfold write at 1.
    unfold io_bind at 1. unfold write at 1.
    unfold io_bind at 1. rewrite <- app_assoc. rewrite Hloop.
    unfold io_bind, io_eval, write, io_ret. rewrite Hcm, Hcp.
    cbn [app]. now rewrite <- !app_assoc.
Qed.

(** *** Which targets fail *)

Lemma is_failure_at_not_positive (failure_rate : float) (i : Z) :
  float_gt failure_rate (float_of_int 0) = false ->
  is_failure_at failure_rate i = Ok false.
Proof. intros H. unfold is_failure_at. now rewrite H. Qed.

Lemma is_failure_at_period (failure_rate q : float) (k i : Z) :
  float_gt failure_rate (float_of_int 0) = true ->
  truediv (float_of_int 1) failure_rate = Ok q ->
  int_of_float q = Ok k ->
  k <> 0 ->
  is_failure_at failure_rate i = Ok (i mod k =? 0).
Proof.
  intros Hgt Hq Hk Hk0. unfold is_failure_at. rewrite Hgt, Hq. cbn [rbind].
  rewrite Hk. cbn [rbind]. unfold mod_.
  destruct (Z.eqb_spec k 0); [contradiction|reflexivity].
Qed.

Lemma is_failure_at_raise (failure_rate q : float) (e : exn) (i : Z) :
  float_gt failure_rate (float_of_int 0) = true ->
  truediv (float_of_int 1) failure_rate = Ok q ->
  int_of_float q = Raise e ->
  is_failure_at failure_rate i = Raise e.
Proof.
  intros Hgt Hq Hk. unfold is_failure_at. rewrite Hgt, Hq. cbn [rbind].
  now rewrite Hk.
Qed.

(* ================================================================= *)
(** ** Reading the framed stream back *)

Lemma readVarint_encode (v : Z) (prefix rest : bytes) (cap : nat) :
  0 <= v < 2 ^ 64 ->
  encode_varint v = Ok prefix ->
  (9 <= cap)%nat ->
  Analyzer.readVarint cap (prefix ++ rest)
  = Analyzer.Done (v, List.length prefix).
Proof.
  intros Hv Hpre Hcap. unfold Analyzer.readVarint.
  destruct (encode_varint_length 9 v) as (bs & Hbs & Hlen).
  { split; [lia|]. eapply Z.lt_le_trans; [apply Hv|].
    apply Z.pow_le_mono_r; lia. }
  rewrite Hpre in Hbs. injection Hbs as <-.
  apply readVarint_loop_decode.
  - rewrite (decode_groups_encode v (proj1 Hv) prefix Hpre) by lia.
    now rewrite Z.lor_0_l, Z.shiftl_0_r.
  - lia.
  - lia.
Qed.

Lemma encode_varint_nonempty (v : Z) (prefix : bytes) :
  0 <= v -> encode_varint v = Ok prefix -> prefix <> [].
Proof.
  intros Hv H. apply (encode_varint_shape v Hv) in H.
  now destruct prefix.
Qed.

Lemma framed_length (payloads : list bytes) (stream : bytes) :
  framed payloads stream ->
  (List.length payloads <= List.length stream)%nat.
Proof.
  induction 1 as [|p pre ps rest Hpre _ IH]; [simpl; lia|].
  pose proof (encode_varint_nonempty _ _ (len_nonneg p) Hpre).
  rewrite !length_app. destruct pre; [contradiction|]. simpl. lia.
Qed.

(** The record loop yields the framed payloads, in order, and ends cleanly. *)
Lemma RecordStream_from_framed (lim : Analyzer.Limits) (payloads : list bytes)
  (stream : bytes) :
  framed payloads stream ->
  (9 <= Analyzer.max_continuation_bytes lim)%nat ->
  Z.of_N (Analyzer.max_record_size lim) < 2 ^ 64 ->
  List.Forall (fun p => len p <= Z.of_N (Analyzer.max_record_size lim))
    payloads ->
  forall fuel index,
    (List.length stream <= fuel)%nat ->
    Analyzer.RecordStream_from fuel lim index stream
    = (numbered index payloads, Analyzer.Finished).
Proof.
  intros Hfr Hcap Hmax.
  induction Hfr as [|p pre ps rest Hpre Hfr IH]; intros Hsz fuel index Hfuel.
  - now destruct fuel.
  - inversion Hsz as [|? ? Hp Hps]; subst.
    pose proof (encode_varint_nonempty _ _ (len_nonneg p) Hpre) as Hne.
    pose proof (len_nonneg p) as Hp0.
    destruct pre as [|b pre]; [contradiction|].
    destruct fuel as [|fuel]; [simpl in Hfuel; lia|].
    cbn [app Analyzer.RecordStream_from].
    change (b :: pre ++ p ++ rest) with ((b :: pre) ++ p ++ rest).
    rewrite (readVarint_encode (len p) (b :: pre) (p ++ rest)) by
      (try assumption; lia).
    destruct (Z.ltb_spec (Z.of_N (Analyzer.max_record_size lim)) (len p));
      [lia|].
    rewrite List.skipn_app, List.skipn_all, Nat.sub_diag. cbn [app List.skipn].
    destruct (Z.ltb_spec (len (p ++ rest)) (len p)) as [Hlt|_].
    { unfold len in Hlt. rewrite length_app in Hlt. lia. }
    unfold len at 1 2. rewrite Nat2Z.id.
    rewrite List.firstn_app, List.firstn_all, Nat.sub_diag.
    rewrite List.skipn_app, List.skipn_all, Nat.sub_diag.
    cbn [List.firstn List.skipn app]. rewrite app_nil_r.
    rewrite (IH Hps fuel (S index)).
    + reflexivity.
    + rewrite !length_app in Hfuel. simpl in Hfuel. lia.
Qed.

Lemma RecordStream_framed (lim : Analyzer.Limits) (payloads : list bytes)
  (stream : bytes) :
  framed payloads stream ->
  (9 <= Analyzer.max_continuation_bytes lim)%nat ->
  Z.of_N (Analyzer.max_record_size lim) < 2 ^ 64 ->
  List.Forall (fun p => len p <= Z.of_N (Analyzer.max_record_size lim))
    payloads ->
  (N.of_nat (List.length stream) <= Analyzer.max_file_size lim)%N ->
  Analyzer.RecordStream lim stream = (numbered 0 payloads, Analyzer.Finished).
Proof.
  intros Hfr Hcap Hmax Hsz Hfile. unfold Analyzer.RecordStream.
  destruct (N.ltb_spec (Analyzer.max_file_size lim)
              (N.of_nat (List.length stream))); [lia|].
  now apply RecordStream_from_framed.
Qed.

Lemma numbered_length (index : nat) (payloads : list bytes) :
  List.length (numbered index payloads) = List.length payloads.
Proof.
  revert index. induction payloads as [|p ps IH]; intros index; simpl;
    [reflexivity|now rewrite IH].
Qed.
(* ================================================================= *)
(** ** The generator's stream, read back *)

Lemma event_payload_event_of (failing : Z -> bool) (i : Z) (p : bytes) :
  event_payload (failing i) i = Ok p -> event_of failing i p.
Proof.
  unfold event_payload, event_of. intros Hp.
  destruct (Z.eqb_spec (i mod 2) 0) as [Heven|Hodd].
  - split; [intros _; exact Hp|]. split; [lia|].
    intros Hf. rewrite Hf in Hp. now apply build_failure_has_location in Hp.
  - split; [lia|]. split; [intros _; exact Hp|].
    intros Hf. rewrite Hf in Hp. now apply test_failure_has_location in Hp.
Qed.

Lemma Forall2_event_of (failing : Z -> bool) (indices : list Z)
  (events : list bytes) :
  List.Forall2 (fun j p => event_payload (failing j) j = Ok p) indices events ->
  List.Forall2 (event_of failing) indices events.
Proof.
  induction 1; constructor; [now apply event_payload_event_of|assumption].
Qed.

Lemma range_from_length (i : Z) (n : nat) : List.length (range_from i n) = n.
Proof. revert i. induction n as [|n IH]; intros i; simpl; [|rewrite IH]; lia. Qed.

Lemma Forall2_length_eq {A B} (R : A -> B -> Prop) (l : list A) (l' : list B) :
  List.Forall2 R l l' -> List.length l = List.length l'.
Proof. induction 1; simpl; congruence. Qed.

(** Whenever every target can be told failing or not, the file is the
    header, one event per target and the completion record, each behind its
    length, and a reader whose caps allow them yields them in order. *)
Lemma generate_large_bep_file_records (num_targets : Z) (failure_rate : float)
  (failing : Z -> bool) :
  (forall j, 0 <= j < num_targets ->
             is_failure_at failure_rate j = Ok (failing j)) ->
  let num_failures := count_failing failing (range num_targets) in
  exists events completion_msg stream,
    generate_large_bep_file num_targets failure_rate = (stream, Ok num_failures)
    /\ List.Forall2 (event_of failing) (range num_targets) events
    /\ completion_msg
       = completion_bytes (if 0 <? num_failures then "1" else "0")
    /\ framed (header_msg :: events ++ [completion_msg]) stream
    /\ len (header_msg :: events ++ [completion_msg])
       = Z.max 0 num_targets + 2
    /\ forall lim,
         (9 <= Analyzer.max_continuation_bytes lim)%nat ->
         Z.of_N (Analyzer.max_record_size lim) < 2 ^ 64 ->
         List.Forall (fun p => len p <= Z.of_N (Analyzer.max_record_size lim))
           (header_msg :: events ++ [completion_msg]) ->
         (N.of_nat (List.length stream) <= Analyzer.max_file_size lim)%N ->
         Analyzer.RecordStream lim stream
         = (numbered 0 (header_msg :: events ++ [completion_msg]),
            Analyzer.Finished).
Proof.
  intros Hfail num_failures.
  destruct (generate_large_bep_file_run num_targets failure_rate failing Hfail)
    as (events & completion_msg & stream & Hev & Hcm & Hfr & Hrun).
  fold num_failures in Hcm, Hrun.
  exists events, completion_msg, stream.
  split; [exact Hrun|]. split; [now apply Forall2_event_of|].
  split.
  { rewrite (encode_utf8_ascii _ (completion_content_ascii num_failures)) in Hcm.
    injection Hcm as <-. unfold completion_content, completion_bytes.
    now destruct (0 <? num_failures). }
  split; [exact Hfr|]. split.
  - apply Forall2_length_eq in Hev. unfold range in Hev.
    rewrite range_from_length in Hev.
    unfold len. cbn [List.length]. rewrite length_app. cbn [List.length].
    lia.
  - intros lim Hcap Hmax Hsz Hfile. now apply RecordStream_framed.
Qed.

Lemma count_failing_none (indices : list Z) :
  count_failing (fun _ => false) indices = 0.
Proof.
  unfold count_failing. induction indices as [|i l IH]; [reflexivity|].
  exact IH.
Qed.

(** With a period [k], target 0 fails, so a run over at least one target
    counts a failure. *)
Lemma count_failing_first (k num_targets : Z) :
  1 <= num_targets ->
  0 < count_failing (fun i => i mod k =? 0) (range num_targets).
Proof.
  intros HN. unfold range.
  destruct (Z.to_nat num_targets) as [|n] eqn:Hn; [lia|].
  cbn [range_from]. rewrite count_failing_cons.
  rewrite Zmod_0_l. cbn [Z.eqb].
  pose proof (len_nonneg
                (List.filter (fun i => i mod k =? 0) (range_from (0 + 1) n))).
  unfold count_failing. lia.
Qed.

(* ================================================================= *)
(** ** The rates [main] accepts *)

(** A float in [0, 1] is a zero or a positive finite float. *)
Lemma unit_rate_cases (failure_rate : float) :
  float_le (float_of_int 0) failure_rate = true ->
  float_le failure_rate (float_of_int 1) = true ->
  (exists s, failure_rate = S754_zero s)
  \/ (exists m e, failure_rate = S754_finite false m e).
Proof.
  destruct failure_rate as [s|s| |s m e]; intros H0 H1.
  - left. now exists s.
  - destruct s; discriminate.
  - discriminate.
  - destruct s; [discriminate|]. right. now exists m, e.
Qed.

(** [main] lets exactly these rates through. *)
Lemma main_accepts (targets : Z) (failure_rate : float) :
  float_le (float_of_int 0) failure_rate = true ->
  float_le failure_rate (float_of_int 1) = true ->
  main targets failure_rate
  = (Some (fst (generate_large_bep_file targets failure_rate)),
     (_ <- snd (generate_large_bep_file targets failure_rate) ;; Ok 0)).
Proof.
  intros H0 H1.
  destruct (unit_rate_cases failure_rate H0 H1) as [[s ->]|(m & e & ->)].
  - unfold main. replace (float_lt (S754_zero s) (float_of_int 0)) with false
      by now destruct s.
    replace (float_gt (S754_zero s) (float_of_int 1)) with false
      by now destruct s.
    cbn [orb]. now destruct (generate_large_bep_file targets (S754_zero s)).
  - unfold main.
    change (float_lt (S754_finite false m e) (float_of_int 0)) with false.
    cbn [orb].
    assert (Hgt : float_gt (S754_finite false m e) (float_of_int 1) = false).
    { revert H1. unfold float_gt, float_le, SFltb, SFleb.
      change (float_of_int 1) with (S754_finite false 4503599627370496 (-52)).
      cbn [SFcompare].
      destruct (Z.compare_spec e (-52)) as [->|He|He].
      - rewrite Z.compare_refl.
        rewrite !Pos.compare_cont_spec. cbn [Pos.switch_Eq].
        rewrite (Pos.compare_antisym m 4503599627370496).
        now destruct (Pos.compare m 4503599627370496).
      - intros _.
        destruct (Z.compare_spec (-52) e); try lia; reflexivity.
      - discriminate. }
    rewrite Hgt.
    now destruct (generate_large_bep_file targets (S754_finite false m e)).
Qed.

(** Above [2^-1024] the rate has a period: [int(1 / failure_rate)] is a
    positive int. *)
Lemma is_failure_at_unit_rate (m : positive) (e : Z) :
  let failure_rate := S754_finite false m e in
  valid_binary prec emax failure_rate = true ->
  float_le failure_rate (float_of_int 1) = true ->
  float_lt largest_overflowing_rate failure_rate = true ->
  exists k,
    1 <= k /\ forall i, is_failure_at failure_rate i = Ok (i mod k =? 0).
Proof.
  intros failure_rate Hvalid Hle Hlt.
  destruct (reciprocal_of_rate m e Hvalid Hle Hlt) as (mq & eq & Hdiv & Hk).
  exists (Z.shiftl (Zpos mq) eq). split; [exact Hk|].
  intros i.
  subst failure_rate.
  apply (is_failure_at_period _ (S754_finite false mq eq)).
  - reflexivity.
  - unfold truediv. cbn [float_is_zero]. now rewrite Hdiv.
  - reflexivity.
  - lia.
Qed.

(** Up to [2^-1024] a positive rate has none: [int] raises on the infinite
    reciprocal, whatever the target. *)
Lemma is_failure_at_tiny_rate (m : positive) (e i : Z) :
  let failure_rate := S754_finite false m e in
  valid_binary prec emax failure_rate = true ->
  float_le failure_rate largest_overflowing_rate = true ->
  is_failure_at failure_rate i = Raise OverflowError.
Proof.
  intros failure_rate Hvalid Hle.
  subst failure_rate.
  apply (is_failure_at_raise _ (S754_infinity false)).
  - reflexivity.
  - unfold truediv. cbn [float_is_zero].
    now rewrite (reciprocal_of_tiny_rate m e Hvalid Hle).
  - reflexivity.
Qed.

(** For every rate in [0, 1] that is zero or above [2^-1024], and every
    number of targets, the run completes and its file is the header, one
    event per target and the completion record, each behind its length; a
    reader whose caps allow them yields them in order. *)
Lemma generate_large_bep_file_unit_rate (num_targets : Z) (failure_rate : float) :
  valid_binary prec emax failure_rate = true ->
  float_le (float_of_int 0) failure_rate = true ->
  float_le failure_rate (float_of_int 1) = true ->
  float_is_zero failure_rate = true
  \/ float_lt largest_overflowing_rate failure_rate = true ->
  exists failing events completion_msg stream,
    (forall i, is_failure_at failure_rate i = Ok (failing i))
    /\ generate_large_bep_file num_targets failure_rate
       = (stream, Ok (count_failing failing (range num_targets)))
    /\ List.Forall2 (event_of failing) (range num_targets) events
    /\ completion_msg
       = completion_bytes
           (if 0 <? count_failing failing (range num_targets)
            then "1" else "0")
    /\ framed (header_msg :: events ++ [completion_msg]) stream
    /\ len (header_msg :: events ++ [completion_msg])
       = Z.max 0 num_targets + 2
    /\ forall lim,
         (9 <= Analyzer.max_continuation_bytes lim)%nat ->
         Z.of_N (Analyzer.max_record_size lim) < 2 ^ 64 ->
         List.Forall (fun p => len p <= Z.of_N (Analyzer.max_record_size lim))
           (header_msg :: events ++ [completion_msg]) ->
         (N.of_nat (List.length stream) <= Analyzer.max_file_size lim)%N ->
         Analyzer.RecordStream lim stream
         = (numbered 0 (header_msg :: events ++ [completion_msg]),
            Analyzer.Finished).
Proof.
  intros Hvalid H0 H1 Hrange.
  assert (Hfail : exists failing,
             forall i, is_failure_at failure_rate i = Ok (failing i)).
  { destruct (unit_rate_cases failure_rate H0 H1) as [[s ->]|(m & e & ->)].
    - exists (fun _ => false). intros i.
      apply is_failure_at_not_positive. now destruct s.
    - destruct Hrange as [Hz|Hlt]; [discriminate Hz|].
      destruct (is_failure_at_unit_rate m e Hvalid H1 Hlt) as (k & _ & Hk).
      now exists (fun i => i mod k =? 0). }
  destruct Hfail as [failing Hfail].
  destruct (generate_large_bep_file_records num_targets failure_rate failing)
    as (events & completion_msg & stream & Hrun);
    [intros j _; apply Hfail|].
  exists failing, events, completion_msg, stream.
  split; [exact Hfail|exact Hrun].
Qed.

(** For every positive rate up to [2^-1024] and at least one target, the
    run stops at target 0 with [OverflowError]: the file holds the header
    record alone. *)
Lemma generate_large_bep_file_tiny_rate (num_targets : Z) (m : positive)
  (e : Z) :
  let failure_rate := S754_finite false m e in
  1 <= num_targets ->
  valid_binary prec emax failure_rate = true ->
  float_le failure_rate largest_overflowing_rate = true ->
  exists prefix,
    encode_varint (len header_msg) = Ok prefix
    /\ generate_large_bep_file num_targets failure_rate
       = (prefix ++ header_msg, Raise OverflowError).
Proof.
  intros failure_rate HN Hvalid Hle.
  destruct (encode_varint_total (len header_msg) (len_nonneg _)) as [hp Hhp].
  exists hp. split; [exact Hhp|].
  unfold generate_large_bep_file, generate_large_bep_file_body.
  unfold io_bind at 1. unfold io_eval at 1. rewrite Hhp.
  unfold io_bind at 1. unfold write at 1.
  unfold io_bind at 1. unfold write at 1.
  unfold io_bind at 1.
  destruct (Z.to_nat num_targets) as [|n] eqn:Hn; [lia|].
  cbn [for_range]. unfold io_bind at 1.
  rewrite (target_event_raise failure_rate 0 0 OverflowError)
    by (apply is_failure_at_tiny_rate; assumption).
  now rewrite <- app_assoc.
Qed.

(** The default run of 1000 targets, read back under the example limits:
    1002 records, numbered in order, and a clean end. *)
Lemma default_run_read_back :
  let '(stream, r) := generate_large_bep_file 1000 default_failure_rate in
  let '(records, e) := Analyzer.RecordStream example_limits stream in
  r = Ok 50 /\ e = Analyzer.Finished
  /\ List.map Analyzer.ordinal records = List.seq 0 1002.
Proof. vm_compute. repeat split. Qed.

(* ================================================================= *)
(** ** The claims *)

(** The literal [0.05] is the float nearest to 5/100, and the literal of
    [MAX_VARINT_BYTES] bounds the continuation bytes of the examples. *)
Lemma default_failure_rate_literal :
  SFdiv prec emax (float_of_int 5) (float_of_int 100) = default_failure_rate
  /\ valid_binary prec emax default_failure_rate = true.
Proof. split; reflexivity. Qed.

(** C1, at the input where the code departs from it.  [main] accepts the
    rate [5e-324], which lies in [0, 1]; [1 / failure_rate] is then infinite
    and [int] raises [OverflowError] on the first target: the file holds the
    header record alone, not the [1 + 2] records of the claim, and that is
    what a reader yields. *)
Theorem generate_large_bep_file_subnormal_rate :
  valid_binary prec emax smallest_subnormal = true
  /\ float_le (float_of_int 0) smallest_subnormal = true
  /\ float_le smallest_subnormal (float_of_int 1) = true
  /\ exists prefix,
       encode_varint (len header_msg) = Ok prefix
       /\ generate_large_bep_file 1 smallest_subnormal
          = (prefix ++ header_msg, Raise OverflowError)
       /\ main 1 smallest_subnormal
          = (Some (prefix ++ header_msg), Raise OverflowError)
       /\ Analyzer.RecordStream example_limits (prefix ++ header_msg)
          = (numbered 0 [header_msg], Analyzer.Finished).
Proof.
  repeat (split; [reflexivity|]).
  eexists. repeat split; vm_compute; reflexivity.
Qed.

(** C2, as stated, fails at [2 ^ 64]: the encoder writes ten bytes, and the
    reader of the specification refuses a value wider than 64 bits. *)
Lemma encode_varint_roundtrip_fails_at_2p64 :
  exists bs,
    encode_varint (2 ^ 64) = Ok bs
    /\ Analyzer.readVarint (Z.to_nat config.MAX_VARINT_BYTES) bs
       = Analyzer.Fail Analyzer.MalformedVarint
    /\ Analyzer.readVarint (Z.to_nat config.MAX_VARINT_BYTES) bs
       <> Analyzer.Done (2 ^ 64, List.length bs).
Proof.
  eexists. split; [vm_compute; reflexivity|].
  split; [vm_compute; reflexivity|]. vm_compute. discriminate.
Qed.

(** C2, amended.  For every nonnegative [v], [encode_varint v] returns bytes
    in the base-128 shape (continuation bit on every byte but the last),
    and decoding them seven bits a byte, least-significant group first,
    gives back [v] and their number.  [readVarint] itself, with its cap and
    its 64-bit check, gives back [(v, len)] when [v < 2 ^ 64] and refuses the
    bytes when [2 ^ 64 <= v]. *)
Theorem encode_varint_roundtrip (v : Z) :
  0 <= v ->
  exists bs,
    encode_varint v = Ok bs
    /\ varint_shape bs = true
    /\ Analyzer.decode_groups 0 0 0 bs = Some (v, List.length bs)
    /\ (v < 2 ^ 64 ->
        Analyzer.readVarint (Z.to_nat config.MAX_VARINT_BYTES) bs
        = Analyzer.Done (v, List.length bs))
    /\ (2 ^ 64 <= v ->
        forall cap,
          Analyzer.readVarint cap bs = Analyzer.Fail Analyzer.MalformedVarint).
Proof.
  intros Hv. destruct (encode_varint_total v Hv) as [bs Hbs].
  assert (Hdec : Analyzer.decode_groups 0 0 0 bs = Some (v, List.length bs)).
  { rewrite <- (app_nil_r bs) at 1.
    rewrite (decode_groups_encode v Hv bs Hbs) by lia.
    now rewrite Z.lor_0_l, Z.shiftl_0_r. }
  exists bs. split; [exact Hbs|].
  split; [now apply (encode_varint_shape v Hv)|].
  split; [exact Hdec|]. split.
  - intros Hlt. rewrite <- (app_nil_r bs) at 1.
    apply readVarint_encode; [lia|exact Hbs|].
    change (Z.to_nat config.MAX_VARINT_BYTES) with 10%nat. lia.
  - intros Hwide cap. unfold Analyzer.readVarint.
    now apply (readVarint_loop_wide bs cap 0 0 0%nat v (List.length bs)).
Qed.

Lemma encode_varint_roundtrip_witness :
  exists bs,
    encode_varint 300 = Ok bs
    /\ varint_shape bs = true
    /\ Analyzer.decode_groups 0 0 0 bs = Some (300, List.length bs)
    /\ (300 < 2 ^ 64 ->
        Analyzer.readVarint (Z.to_nat config.MAX_VARINT_BYTES) bs
        = Analyzer.Done (300, List.length bs))
    /\ (2 ^ 64 <= 300 ->
        forall cap,
          Analyzer.readVarint cap bs = Analyzer.Fail Analyzer.MalformedVarint).
Proof. apply (encode_varint_roundtrip 300). lia. Defined.

(** C3.  For every [v] with [0 <= v < 2 ^ 64], [encode_varint v] returns at
    most [MAX_VARINT_BYTES = 10] bytes, and a reader that allows at least
    nine continuation bytes (hence any reader with a ten-byte cap) and
    refuses values wider than 64 bits reads [v] back from them. *)
Theorem encode_varint_within_cap (v : Z) :
  0 <= v < 2 ^ 64 ->
  exists bs,
    encode_varint v = Ok bs
    /\ len bs <= config.MAX_VARINT_BYTES
    /\ config.MAX_VARINT_BYTES = 10
    /\ forall cap rest,
         (9 <= cap)%nat ->
         Analyzer.readVarint cap (bs ++ rest)
         = Analyzer.Done (v, List.length bs).
Proof.
  intros Hv. destruct (encode_varint_length 9 v) as (bs & Hbs & Hlen).
  { split; [lia|]. eapply Z.lt_le_trans; [apply Hv|].
    apply Z.pow_le_mono_r; lia. }
  exists bs. split; [exact Hbs|]. split.
  - unfold len, config.MAX_VARINT_BYTES. lia.
  - split; [reflexivity|].
    intros cap rest Hcap. now apply readVarint_encode.
Qed.

Lemma encode_varint_within_cap_witness :
  exists bs,
    encode_varint (2 ^ 64 - 1) = Ok bs
    /\ len bs <= config.MAX_VARINT_BYTES
    /\ config.MAX_VARINT_BYTES = 10
    /\ forall cap rest,
         (9 <= cap)%nat ->
         Analyzer.readVarint cap (bs ++ rest)
         = Analyzer.Done (2 ^ 64 - 1, List.length bs).
Proof. apply (encode_varint_within_cap (2 ^ 64 - 1)). lia. Defined.

(** C4.  With [num_targets = 1000] and the default rate, [int(1 / 0.05)] is
    20; target [i] is marked failing exactly when [i % 20 == 0], which makes
    50 targets; the run completes and its file is the header, the 1000
    events and the completion record, each behind its length; the event of
    an even index is a build event, that of an odd index a test event, and
    every failing event holds a location. *)
Theorem generate_large_bep_file_default_1000 :
  (q <- truediv (float_of_int 1) default_failure_rate ;; int_of_float q)
  = Ok 20
  /\ (forall i, is_failure_at default_failure_rate i = Ok (i mod 20 =? 0))
  /\ count_failing (fun i => i mod 20 =? 0) (range 1000) = 50
  /\ exists events completion_msg stream,
       generate_large_bep_file 1000 default_failure_rate = (stream, Ok 50)
       /\ List.Forall2 (event_of (fun i => i mod 20 =? 0)) (range 1000) events
       /\ completion_msg = completion_bytes "1"
       /\ framed (header_msg :: events ++ [completion_msg]) stream
       /\ len events = 1000.
Proof.
  split; [reflexivity|].
  assert (Hfail : forall i,
             is_failure_at default_failure_rate i = Ok (i mod 20 =? 0)).
  { intros i.
    apply (is_failure_at_period default_failure_rate
             (S754_finite false 5629499534213120 (-48)));
      first [reflexivity | discriminate]. }
  split; [exact Hfail|].
  assert (Hcount : count_failing (fun i => i mod 20 =? 0) (range 1000) = 50)
    by (vm_compute; reflexivity).
  split; [exact Hcount|].
  destruct (generate_large_bep_file_records 1000 default_failure_rate
              (fun i => i mod 20 =? 0))
    as (events & completion_msg & stream & Hrun & Hev & Hcm & Hfr & Hlen & _);
    [intros j _; apply Hfail|].
  rewrite Hcount in Hrun, Hcm.
  exists events, completion_msg, stream.
  repeat (split; [assumption|]).
  apply Forall2_length_eq in Hev. unfold range in Hev.
  rewrite range_from_length in Hev. unfold len. lia.
Qed.

(** C5.  For every target name and index, the payload of a failing build
    event and that of a failing test event hold a text
    [<path>:<line>:<column>:] with a path of file-name characters and decimal
    line and column, and the build failure of index 0 holds
    [main.cpp:42:15: error:]; both payloads are produced for every target
    name that can be encoded. *)
Theorem failure_messages_hold_locations (target_name : str) (target_index : Z) :
  (forall p,
      create_build_event_message target_name false target_index = Ok p ->
      has_location p)
  /\ (forall p,
         create_test_event_message target_name false target_index = Ok p ->
         has_location p)
  /\ (forall p,
         create_build_event_message target_name false 0 = Ok p ->
         bytes_contain (B "main.cpp:42:15: error:") p = true)
  /\ (encodable target_name ->
      (exists p,
          create_build_event_message target_name false target_index = Ok p)
      /\ (exists p,
             create_test_event_message target_name false target_index = Ok p)).
Proof.
  split; [intros p; apply build_failure_has_location|].
  split; [intros p; apply test_failure_has_location|].
  split.
  - intros p Hp. rewrite <- map_byte_of_N_lit.
    eapply token_in_payload; [reflexivity|exact Hp|].
    eapply infix_trans; [|apply build_failure_content_error].
    change (len (error_types (pkg_path_of target_name) 0)) with 6.
    cbn [Z.modulo Z.div_eucl Z.to_nat snd List.nth error_types].
    apply infix_app_r.
    exists [47%N],
      (lit " use of undeclared identifier 'undefined_var_0'").
    reflexivity.
  - intros Hn. split.
    + now apply create_build_event_message_total.
    + now apply create_test_event_message_total.
Qed.

Lemma failure_messages_hold_locations_witness :
  (exists p,
      create_build_event_message (lit "//pkg0000:target000007") false 7 = Ok p
      /\ has_location p)
  /\ (exists p,
         create_test_event_message (lit "//pkg0000:target000007") false 7 = Ok p
         /\ has_location p)
  /\ (exists p,
         create_build_event_message (lit "//pkg0000:target000000") false 0 = Ok p
         /\ bytes_contain (B "main.cpp:42:15: error:") p = true).
Proof.
  destruct (failure_messages_hold_locations (lit "//pkg0000:target000007") 7)
    as (Hb & Ht & _ & _).
  destruct (failure_messages_hold_locations (lit "//pkg0000:target000000") 0)
    as (_ & _ & H0 & _).
  split; [|split]; eexists; (split; [vm_compute; reflexivity|]).
  - apply Hb. vm_compute. reflexivity.
  - apply Ht. vm_compute. reflexivity.
  - apply H0. vm_compute. reflexivity.
Defined.

(** C6, as stated, fails: the failing build event of index 3 takes the
    [BUILD:] entry of [error_types], which does not say [error], and a
    passing event whose target name says [error] holds that token. *)
Lemma build_event_tokens_counterexample :
  (exists p,
      create_build_event_message (lit "//pkg0000:target000003") false 3 = Ok p
      /\ bytes_contain (B "BUILD_FAILED") p = true
      /\ bytes_contain (B "error") p = false)
  /\ (exists p,
         create_build_event_message (lit "//pkg0000:error_handler") true 0
         = Ok p
         /\ bytes_contain (B "error") p = true).
Proof.
  split; eexists; (split; [vm_compute; reflexivity|]);
    repeat split; vm_compute; reflexivity.
Qed.

(** C6, amended.  For every target name and index, the payload of a failing
    build event holds [BUILD_FAILED], [aborted] and [success], the last
    within ["success": false], and it holds [error] when [target_index % 6]
    is 0, 1, 2 or 5; the payload of a passing build event holds
    ["success": true] and holds none of [failed], [error] and [aborted] that
    the target name does not hold; both payloads are produced for every
    target name that can be encoded. *)
Theorem build_event_tokens (target_name : str) (target_index : Z) :
  (forall p,
      create_build_event_message target_name false target_index = Ok p ->
      bytes_contain (B "BUILD_FAILED") p = true
      /\ bytes_contain (B "aborted") p = true
      /\ bytes_contain (B "success") p = true
      /\ bytes_contain (List.map byte_of_N (Q "success" ++ lit ": false")) p
         = true
      /\ (List.existsb (Z.eqb (target_index mod 6)) [0; 1; 2; 5] = true ->
          bytes_contain (B "error") p = true))
  /\ (forall p,
         create_build_event_message target_name true target_index = Ok p ->
         bytes_contain (List.map byte_of_N (Q "success" ++ lit ": true")) p
         = true
         /\ forall tok,
              In tok ["failed"; "error"; "aborted"]%string ->
              str_contains (lit tok) target_name = false ->
              bytes_contain (B tok) p = false)
  /\ (encodable target_name ->
      forall success,
      exists p,
        create_build_event_message target_name success target_index = Ok p).
Proof.
  split; [|split].
  - intros p Hp.
    destruct (build_failure_tokens _ _ _ Hp) as (H1 & H2 & H3 & H4).
    repeat (split; [assumption|]).
    exact (build_failure_error_token target_name target_index p Hp).
  - intros p Hp.
    exact (build_success_tokens target_name target_index p Hp).
  - intros Hn success. now apply create_build_event_message_total.
Qed.

Lemma build_event_tokens_witness :
  (exists p,
      create_build_event_message (lit "//pkg0000:target000000") false 0 = Ok p
      /\ bytes_contain (B "BUILD_FAILED") p = true
      /\ bytes_contain (B "aborted") p = true
      /\ bytes_contain (B "success") p = true
      /\ bytes_contain (B "error") p = true)
  /\ (exists p,
         create_build_event_message (lit "//pkg0000:target000000") true 0 = Ok p
         /\ bytes_contain (B "failed") p = false
         /\ bytes_contain (B "error") p = false
         /\ bytes_contain (B "aborted") p = false).
Proof.
  destruct (build_event_tokens (lit "//pkg0000:target000000") 0)
    as (Hf & Hs & _).
  split; eexists; (split; [vm_compute; reflexivity|]).
  - edestruct Hf as (H1 & H2 & H3 & _ & H5); [vm_compute; reflexivity|].
    split; [exact H1|]. split; [exact H2|]. split; [exact H3|].
    apply H5. reflexivity.
  - edestruct Hs as (_ & Hnone); [vm_compute; reflexivity|].
    split; [|split].
    + apply (Hnone "failed"%string); [now left|reflexivity].
    + apply (Hnone "error"%string); [right; now left|reflexivity].
    + apply (Hnone "aborted"%string); [right; right; now left|reflexivity].
Defined.

(** C7.  The limits of [bin/config.py]: 100 MB of BEP file, 50 failures
    kept, 5000 characters a message, 10 error lines a message, 20 strings an
    event, 10 varint bytes, 3 annotation attempts and a backoff base delay
    of [1.0] second. *)
Theorem config_limits :
  config.MAX_FILE_SIZE_MB_DEFAULT = 100
  /\ config.MAX_FAILURES_DEFAULT = 50
  /\ config.MAX_MESSAGE_SIZE = 5000
  /\ config.MAX_ERROR_LINES = 10
  /\ config.MAX_STRINGS_PER_EVENT = 20
  /\ config.MAX_VARINT_BYTES = 10
  /\ config.ANNOTATION_RETRY_ATTEMPTS = 3
  /\ config.ANNOTATION_RETRY_BASE_DELAY_SECONDS = float_of_int 1
  /\ valid_binary prec emax config.ANNOTATION_RETRY_BASE_DELAY_SECONDS = true.
Proof. repeat split; reflexivity. Qed.

(** C9.  With a zero failure rate the guard [failure_rate > 0] is false, so
    the division, which would raise [ZeroDivisionError], is not evaluated:
    for every [num_targets] no target is marked failing, the run completes
    with [num_failures = 0], every event written is a passing one, and the
    completion record carries code 0. *)
Theorem generate_large_bep_file_zero_rate (num_targets : Z) (sign : bool) :
  let failure_rate := S754_zero sign in
  float_gt failure_rate (float_of_int 0) = false
  /\ truediv (float_of_int 1) failure_rate = Raise ZeroDivisionError
  /\ (forall i, is_failure_at failure_rate i = Ok false)
  /\ exists events stream,
       generate_large_bep_file num_targets failure_rate = (stream, Ok 0)
       /\ List.Forall2 (event_of (fun _ => false)) (range num_targets) events
       /\ framed (header_msg :: events ++ [completion_bytes "0"]) stream.
Proof.
  intros failure_rate.
  assert (Hgt : float_gt failure_rate (float_of_int 0) = false)
    by now destruct sign.
  split; [exact Hgt|]. split; [reflexivity|].
  assert (Hfail : forall i, is_failure_at failure_rate i = Ok false)
    by (intros i; now apply is_failure_at_not_positive).
  split; [exact Hfail|].
  destruct (generate_large_bep_file_records num_targets failure_rate
              (fun _ => false))
    as (events & completion_msg & stream & Hrun & Hev & Hcm & Hfr & _);
    [intros j _; apply Hfail|].
  rewrite count_failing_none in Hrun, Hcm. cbn in Hcm. subst completion_msg.
  now exists events, stream.
Qed.

(** With a period [k], as [int(1 / failure_rate)] gives for the rates whose
    reciprocal is finite, target 0 is marked failing and a run over at least one target
    ends with code 1. *)
Lemma generate_large_bep_file_period (num_targets : Z) (failure_rate q : float)
  (k : Z) :
  1 <= num_targets ->
  float_gt failure_rate (float_of_int 0) = true ->
  truediv (float_of_int 1) failure_rate = Ok q ->
  int_of_float q = Ok k ->
  k <> 0 ->
  is_failure_at failure_rate 0 = Ok true
  /\ exists events stream num_failures,
       generate_large_bep_file num_targets failure_rate
       = (stream, Ok num_failures)
       /\ 0 < num_failures
       /\ framed (header_msg :: events ++ [completion_bytes "1"]) stream.
Proof.
  intros HN Hgt Hq Hk Hk0.
  assert (Hfail : forall i, is_failure_at failure_rate i = Ok (i mod k =? 0))
    by (intros i; now apply (is_failure_at_period failure_rate q)).
  split; [now rewrite Hfail, Zmod_0_l|].
  destruct (generate_large_bep_file_records num_targets failure_rate
              (fun i => i mod k =? 0))
    as (events & completion_msg & stream & Hrun & Hev & Hcm & Hfr & _);
    [intros j _; apply Hfail|].
  pose proof (count_failing_first k num_targets HN) as Hpos.
  destruct (Z.ltb_spec 0 (count_failing (fun i => i mod k =? 0)
                            (range num_targets))); [|lia].
  subst completion_msg.
  exists events, stream,
    (count_failing (fun i => i mod k =? 0) (range num_targets)).
  repeat split; assumption.
Qed.

(** C10, at the input where the code departs from it.  The rate [5e-324]
    is positive and at most 1, its reciprocal is infinite, and [int] raises
    [OverflowError] at target 0: the target is not marked failing, the run
    ends there, and no completion record is written. *)
Theorem completion_record_subnormal_rate :
  float_gt smallest_subnormal (float_of_int 0) = true
  /\ float_le smallest_subnormal (float_of_int 1) = true
  /\ truediv (float_of_int 1) smallest_subnormal = Ok (S754_infinity false)
  /\ is_failure_at smallest_subnormal 0 = Raise OverflowError
  /\ exists stream,
       generate_large_bep_file 1 smallest_subnormal
       = (stream, Raise OverflowError)
       /\ bytes_contain (B "finished") stream = false
       /\ bytes_contain (B "exitCode") stream = false.
Proof.
  repeat (split; [reflexivity|]).
  eexists. repeat split; vm_compute; reflexivity.
Qed.

(* ================================================================= *)
(** ** Further properties of [encode_varint] *)

(** X1.  [encode_varint] never returns bytes for a negative value: the loop
    is skipped, the value itself is appended, and [bytes(result)] raises
    [ValueError], since a negative number is no byte. *)
Theorem encode_varint_rejects_negative (v : Z) :
  v < 0 -> encode_varint v = Raise ValueError.
Proof.
  intros Hv. unfold encode_varint.
  rewrite encode_varint_ints_small by lia.
  unfold bytes_of_ints. cbn [rmap rbind].
  destruct (Z.leb_spec 0 v); [lia|reflexivity].
Qed.

Lemma encode_varint_rejects_negative_witness : encode_varint (-300) = Raise ValueError.
Proof. apply (encode_varint_rejects_negative (-300)). lia. Defined.

Lemma decode_groups_encode_top (v : Z) (bs rest : bytes) :
  0 <= v -> encode_varint v = Ok bs ->
  Analyzer.decode_groups 0 0 0 (bs ++ rest) = Some (v, List.length bs).
Proof.
  intros Hv Hbs. rewrite (decode_groups_encode v Hv bs Hbs) by lia.
  now rewrite Z.lor_0_l, Z.shiftl_0_r.
Qed.

(** X2.  The encodings are prefix-free: when the encodings of two
    nonnegative values, each followed by arbitrary bytes, give the same
    byte string, the values are equal and so are the bytes that follow.  A
    length prefix can thus be told from the payload behind it in one way
    only, and [encode_varint] is injective. *)
Theorem encode_varint_prefix_free (v w : Z) (bv bw r1 r2 : bytes) :
  0 <= v -> 0 <= w ->
  encode_varint v = Ok bv -> encode_varint w = Ok bw ->
  bv ++ r1 = bw ++ r2 ->
  v = w /\ bv = bw /\ r1 = r2.
Proof.
  intros Hv Hw Hbv Hbw Heq.
  pose proof (decode_groups_encode_top v bv r1 Hv Hbv) as Dv.
  pose proof (decode_groups_encode_top w bw r2 Hw Hbw) as Dw.
  rewrite Heq, Dw in Dv. injection Dv as Hvw _. subst w.
  rewrite Hbv in Hbw. injection Hbw as <-.
  repeat split. now apply app_inv_head in Heq.
Qed.

Lemma encode_varint_prefix_free_witness :
  300 = 300 /\ [byte_of_N 0xAC; byte_of_N 0x02] = [byte_of_N 0xAC; byte_of_N 0x02]
  /\ [byte_of_N 7] = [byte_of_N 7].
Proof.
  apply (encode_varint_prefix_free 300 300 _ _ [byte_of_N 7] [byte_of_N 7]);
    try lia; reflexivity.
Defined.

(** X3.  The encoding of a nonnegative [v] has exactly
    [log2 v / 7 + 1] bytes (with [log2 0 = 0]): one byte for every seven
    bits of [v], one byte for zero. *)
Theorem encode_varint_byte_count (v : Z) :
  0 <= v ->
  exists bs, encode_varint v = Ok bs /\ len bs = Z.log2 v / 7 + 1.
Proof.
  intros Hv. pattern v. apply varint_ind; [| |exact Hv]; clear v Hv.
  - intros v Hv. rewrite encode_varint_small by exact Hv.
    eexists; split; [reflexivity|].
    assert (Hl : Z.log2 v < 7).
    { destruct (Z.eq_dec v 0) as [->|]; [reflexivity|].
      apply Z.log2_lt_pow2; lia. }
    pose proof (Z.log2_nonneg v).
    rewrite Z.div_small by lia. reflexivity.
  - intros v Hv (bs & Hbs & Hlen). rewrite encode_varint_big by exact Hv.
    rewrite Hbs. cbn [rbind]. eexists; split; [reflexivity|].
    unfold len in *. cbn [List.length]. rewrite Nat2Z.inj_succ, Hlen.
    assert (Hl : 7 <= Z.log2 v)
      by (change 7 with (Z.log2 0x80); now apply Z.log2_le_mono).
    rewrite Z.log2_shiftr by lia. rewrite Z.max_r by lia.
    replace (Z.log2 v) with ((Z.log2 v - 7) + 1 * 7) at 2 by lia.
    rewrite Z.div_add by lia. lia.
Qed.

Lemma encode_varint_byte_count_witness :
  exists bs, encode_varint 16384 = Ok bs /\ len bs = Z.log2 16384 / 7 + 1.
Proof. apply (encode_varint_byte_count 16384). lia. Defined.

(** X4.  The encoding is minimal: it is never empty, and its last byte is
    zero only when the value is zero; no encoding ends in a padding
    group. *)
Theorem encode_varint_minimal (v : Z) (bs : bytes) :
  0 <= v -> encode_varint v = Ok bs ->
  exists init final,
    bs = init ++ [final] /\ (byte_val final = 0 -> v = 0).
Proof.
  intros Hv. revert bs. pattern v. apply varint_ind; [| |exact Hv]; clear v Hv.
  - intros v Hv bs. rewrite encode_varint_small by exact Hv.
    intros [= <-]. exists [], (byte_of_N (Z.to_N v)). split; [reflexivity|].
    now rewrite byte_val_of_Z by lia.
  - intros v Hv IH bs. rewrite encode_varint_big by exact Hv.
    intros H. apply rbind_Ok_inv in H as (bs' & Hbs' & [= <-]).
    destruct (IH bs' Hbs') as (init & final & -> & Hfinal).
    exists (byte_of_N (Z.to_N (Z.lor (Z.land v 0x7F) 0x80)) :: init), final.
    split; [reflexivity|].
    intros Hz. apply Hfinal in Hz.
    pose proof (shiftr7_bounds v Hv). lia.
Qed.

Lemma encode_varint_minimal_witness :
  exists init final,
    [byte_of_N 0xAC; byte_of_N 0x02] = init ++ [final]
    /\ (byte_val final = 0 -> 300 = 0).
Proof.
  apply (encode_varint_minimal 300 [byte_of_N 0xAC; byte_of_N 0x02]);
    [lia|reflexivity].
Defined.

(* ================================================================= *)
(** ** Further properties of the event messages *)

(** The text of a passing test event around the target name. *)
Lemma test_success_content_shape :
  exists X Y : str,
    (forall target_name target_index,
        test_event_content target_name true target_index
        = X ++ 34%N :: target_name ++ 34%N :: Y)
    /\ (forall tok,
           In tok ["FAILED"; "failed"; "error"; "testFailureMessage"]%string ->
           str_contains (lit tok) X = false
           /\ str_contains (lit tok) Y = false).
Proof.
  exists (List.firstn 48 (test_event_content [] true 0)),
         (List.skipn 50 (test_event_content [] true 0)).
  split.
  - intros target_name target_index.
    unfold test_event_content, fstring. cbn [List.map List.concat].
    rewrite <- !app_assoc. reflexivity.
  - intros tok [<-|[<-|[<-|[<-|[]]]]]; split; vm_compute; reflexivity.
Qed.

(** X5.  A failing test event holds ["status": "FAILED"],
    ["testAttemptDurationMillis": "1000"] and [testFailureMessage]; a passing
    one holds ["status": "PASSED"], and none of [FAILED], [failed], [error]
    and [testFailureMessage] unless the target name holds it. *)
Theorem test_event_tokens (target_name : str) (target_index : Z) :
  (forall p,
      create_test_event_message target_name false target_index = Ok p ->
      bytes_contain
        (List.map byte_of_N (Q "status" ++ lit ": " ++ Q "FAILED")) p = true
      /\ bytes_contain
           (List.map byte_of_N
              (Q "testAttemptDurationMillis" ++ lit ": " ++ Q "1000")) p = true
      /\ bytes_contain (B "testFailureMessage") p = true)
  /\ (forall p,
         create_test_event_message target_name true target_index = Ok p ->
         bytes_contain
           (List.map byte_of_N (Q "status" ++ lit ": " ++ Q "PASSED")) p = true
         /\ forall tok,
              In tok ["FAILED"; "failed"; "error"; "testFailureMessage"]%string ->
              str_contains (lit tok) target_name = false ->
              bytes_contain (B tok) p = false).
Proof.
  split.
  - intros p Hp. unfold create_test_event_message in Hp.
    rewrite <- !map_byte_of_N_lit.
    repeat split; (eapply token_in_payload; [reflexivity|exact Hp|]);
      cbn [test_event_content].
    + eapply infix_trans; [|apply infix_fstring with
        (l := lit "    " ++ Q "status" ++ lit ": " ++ Q "FAILED" ++ lit ",");
        in_lines].
      apply infix_app_r.
      exists [], (lit ","). rewrite <- !app_assoc. reflexivity.
    + eapply infix_trans; [|apply infix_fstring with
        (l := lit "    " ++ Q "testAttemptDurationMillis" ++ lit ": "
                ++ Q "1000"); in_lines].
      solve_infix.
    + set (selected := List.nth _ _ _).
      eapply infix_trans; [|apply infix_fstring with
        (l := lit "  " ++ Q "testFailureMessage" ++ lit ": " ++ dq
                ++ selected ++ dq); in_lines].
      unfold Q. solve_infix.
  - intros p Hp. unfold create_test_event_message in Hp. split.
    + eapply token_in_payload; [reflexivity|exact Hp|].
      cbn [test_event_content].
      eapply infix_trans; [|apply infix_fstring with
        (l := lit "    " ++ Q "status" ++ lit ": " ++ Q "PASSED"); in_lines].
      solve_infix.
    + intros tok Htok Hname.
      destruct test_success_content_shape as (X & Y & Hshape & Hskel).
      destruct (Hskel tok Htok) as [HX HY].
      assert (Hascii : is_ascii (lit tok) = true /\ lit tok <> []
                       /\ ~ In 34%N (lit tok)).
      { destruct Htok as [<-|[<-|[<-|[<-|[]]]]];
          (split; [reflexivity|split; [discriminate|]]);
          cbn; intuition discriminate. }
      destruct Hascii as (Hascii & Hne & Hq).
      rewrite <- map_byte_of_N_lit.
      apply (token_not_in_payload (lit tok) _ p Hne Hascii Hp).
      destruct (str_contains (lit tok)
                  (test_event_content target_name true target_index)) eqn:Hc;
        [|reflexivity].
      exfalso. apply str_contains_spec in Hc. rewrite Hshape in Hc.
      apply (infix_split_at _ _ _ _ Hq) in Hc as [Hc|Hc].
      * apply str_contains_spec in Hc. congruence.
      * apply (infix_split_at _ _ _ _ Hq) in Hc as [Hc|Hc];
          apply str_contains_spec in Hc; congruence.
Qed.

Lemma test_event_tokens_witness :
  (exists p,
      create_test_event_message (lit "//pkg0000:target000001") false 1 = Ok p
      /\ bytes_contain (B "testFailureMessage") p = true)
  /\ (exists p,
         create_test_event_message (lit "//pkg0000:target000001") true 1 = Ok p
         /\ bytes_contain (B "FAILED") p = false).
Proof.
  destruct (test_event_tokens (lit "//pkg0000:target000001") 1) as (Hf & Hs).
  split; eexists; (split; [vm_compute; reflexivity|]).
  - edestruct Hf as (_ & _ & H3); [vm_compute; reflexivity|]. exact H3.
  - edestruct Hs as (_ & Hnone); [vm_compute; reflexivity|].
    apply (Hnone "FAILED"%string); [now left|reflexivity].
Defined.

(** The label line is part of every event text. *)
Lemma label_in_content (target_name : str) (success : bool) (target_index : Z) :
  let label := Q "label" ++ lit ": " ++ dq ++ target_name ++ dq in
  infix label (build_event_content target_name success target_index)
  /\ infix label (test_event_content target_name success target_index).
Proof.
  intros label. subst label.
  unfold build_event_content, test_event_content.
  destruct success; split;
    (eapply infix_trans; [|apply infix_fstring with
       (l := lit "      " ++ Q "label" ++ lit ": " ++ dq ++ target_name ++ dq);
       in_lines]);
    apply infix_app_r, infix_refl.
Qed.

(** X6.  Whenever the target name can be encoded, both kinds of event are
    produced, failing or not, and hold the line ["label": "<target_name>"]
    with the UTF-8 bytes of the name between the quotes, unescaped. *)
Theorem messages_embed_label (target_name : str) (success : bool)
  (target_index : Z) (name_bytes : bytes) :
  encode_utf8 target_name = Ok name_bytes ->
  let label :=
    List.map byte_of_N (Q "label" ++ lit ": " ++ dq)
      ++ name_bytes ++ List.map byte_of_N dq in
  (exists p,
      create_build_event_message target_name success target_index = Ok p
      /\ bytes_contain label p = true)
  /\ (exists p,
         create_test_event_message target_name success target_index = Ok p
         /\ bytes_contain label p = true).
Proof.
  intros Hname label.
  assert (Hn : encodable target_name) by now exists name_bytes.
  assert (Hlabel : encode_utf8 (Q "label" ++ lit ": " ++ dq ++ target_name ++ dq)
                   = Ok label).
  { subst label.
    change (Q "label" ++ lit ": " ++ dq ++ target_name ++ dq)
      with ((Q "label" ++ lit ": " ++ dq) ++ target_name ++ dq).
    rewrite (encode_utf8_app (Q "label" ++ lit ": " ++ dq)).
    rewrite (encode_utf8_app target_name), Hname.
    rewrite (encode_utf8_ascii (Q "label" ++ lit ": " ++ dq) eq_refl).
    rewrite (encode_utf8_ascii dq eq_refl). reflexivity. }
  destruct (label_in_content target_name success target_index) as [Hb Ht].
  destruct (create_build_event_message_total target_name success target_index Hn)
    as [pb Hpb].
  destruct (create_test_event_message_total target_name success target_index Hn)
    as [pt Hpt].
  split.
  - exists pb. split; [exact Hpb|]. apply bytes_contain_spec.
    exact (infix_encode_utf8 _ _ _ _ Hpb Hlabel Hb).
  - exists pt. split; [exact Hpt|]. apply bytes_contain_spec.
    exact (infix_encode_utf8 _ _ _ _ Hpt Hlabel Ht).
Qed.

Lemma messages_embed_label_witness :
  (exists p,
      create_build_event_message (lit "//a:b") false 4 = Ok p
      /\ bytes_contain
           (List.map byte_of_N (Q "label" ++ lit ": " ++ dq)
              ++ B "//a:b" ++ List.map byte_of_N dq) p = true)
  /\ (exists p,
         create_test_event_message (lit "//a:b") false 4 = Ok p
         /\ bytes_contain
              (List.map byte_of_N (Q "label" ++ lit ": " ++ dq)
                 ++ B "//a:b" ++ List.map byte_of_N dq) p = true).
Proof.
  apply (messages_embed_label (lit "//a:b") false 4 (B "//a:b")). reflexivity.
Defined.


Lemma utf8_char_surrogate (c : N) :
  is_surrogate c -> utf8_char c = Raise UnicodeEncodeError.
Proof.
  intros [Hlo Hhi]. unfold utf8_char.
  destruct (N.ltb_spec c 0x80); [lia|].
  destruct (N.ltb_spec c 0x800); [lia|].
  destruct (N.leb_spec 0xD800 c); [|lia].
  destruct (N.leb_spec c 0xDFFF); [|lia].
  reflexivity.
Qed.

Lemma utf8_char_code_point (c : N) :
  is_code_point c -> ~ is_surrogate c -> exists bc, utf8_char c = Ok bc.
Proof.
  intros Hc Hs. unfold utf8_char, is_code_point, is_surrogate in *.
  destruct (N.ltb_spec c 0x80); [eauto|].
  destruct (N.ltb_spec c 0x800); [eauto|].
  destruct (N.leb_spec 0xD800 c); destruct (N.leb_spec c 0xDFFF);
    cbn [andb]; try lia;
    (destruct (N.ltb_spec c 0x10000); [eauto|]);
    (destruct (N.ltb_spec 0x10FFFF c); [lia|eauto]).
Qed.

Lemma is_surrogate_dec (c : N) : is_surrogate c \/ ~ is_surrogate c.
Proof.
  unfold is_surrogate.
  destruct (N.leb_spec 0xD800 c); destruct (N.leb_spec c 0xDFFF);
    [left|right|right|right]; lia.
Qed.

Lemma encode_utf8_lone_surrogate (s : str) :
  List.Forall is_code_point s -> List.Exists is_surrogate s ->
  encode_utf8 s = Raise UnicodeEncodeError.
Proof.
  intros Hall. induction Hall as [|c s Hc _ IH]; intros Hex.
  - inversion Hex.
  - cbn [encode_utf8]. destruct (is_surrogate_dec c) as [Hs|Hs].
    + now rewrite utf8_char_surrogate.
    + destruct (utf8_char_code_point c Hc Hs) as [bc ->]. cbn [rbind].
      rewrite IH; [reflexivity|].
      inversion Hex; subst; [contradiction|assumption].
Qed.

(** Every event text opens with ASCII up to the target name. *)
Lemma content_opening :
  exists Xb Xt : str,
    is_ascii Xb = true /\ is_ascii Xt = true
    /\ forall target_name success target_index,
         (exists rest,
             build_event_content target_name success target_index
             = Xb ++ target_name ++ rest)
         /\ (exists rest,
                test_event_content target_name success target_index
                = Xt ++ target_name ++ rest).
Proof.
  exists (List.firstn 54 (build_event_content [] true 0)),
         (List.firstn 49 (test_event_content [] true 0)).
  split; [reflexivity|]. split; [reflexivity|].
  intros target_name success target_index.
  unfold build_event_content, test_event_content, fstring.
  destruct success; cbn [List.map List.concat]; rewrite <- !app_assoc;
    split; eexists; reflexivity.
Qed.

Lemma encode_utf8_raise_after_ascii (X s rest : str) (e : exn) :
  is_ascii X = true -> encode_utf8 s = Raise e ->
  encode_utf8 (X ++ s ++ rest) = Raise e.
Proof.
  intros HX Hs. rewrite !encode_utf8_app, Hs.
  now rewrite (encode_utf8_ascii X HX).
Qed.

(** X7.  A target name that holds a surrogate code point makes both
    functions raise [UnicodeEncodeError], failing event or not: the text is
    built, and [content.encode('utf-8')] refuses it. *)
Theorem messages_reject_lone_surrogate (target_name : str) (success : bool)
  (target_index : Z) :
  List.Forall is_code_point target_name ->
  List.Exists is_surrogate target_name ->
  create_build_event_message target_name success target_index
  = Raise UnicodeEncodeError
  /\ create_test_event_message target_name success target_index
     = Raise UnicodeEncodeError.
Proof.
  intros Hall Hex.
  pose proof (encode_utf8_lone_surrogate target_name Hall Hex) as Hraise.
  destruct content_opening as (Xb & Xt & HXb & HXt & Hshape).
  destruct (Hshape target_name success target_index) as [[rb Hb] [rt Ht]].
  unfold create_build_event_message, create_test_event_message.
  rewrite Hb, Ht. split; now apply encode_utf8_raise_after_ascii.
Qed.

Lemma messages_reject_lone_surrogate_witness :
  create_build_event_message (lit "//pkg:" ++ [0xD800%N]) true 0
  = Raise UnicodeEncodeError
  /\ create_test_event_message (lit "//pkg:" ++ [0xD800%N]) true 0
     = Raise UnicodeEncodeError.
Proof.
  apply (messages_reject_lone_surrogate (lit "//pkg:" ++ [0xD800%N]) true 0).
  - repeat constructor; unfold is_code_point; cbn; lia.
  - do 6 apply List.Exists_cons_tl. apply List.Exists_cons_hd.
    unfold is_surrogate. lia.
Defined.

(* ================================================================= *)
(** ** The package path *)

Lemma split_first_segment (sep : N) (a b : str) :
  ~ In sep a -> List.nth 0 (split sep (a ++ sep :: b)) [] = a.
Proof.
  induction a as [|c a IH]; intros Hsep.
  - cbn [app split]. now rewrite N.eqb_refl.
  - cbn [app split].
    destruct (N.eqb_spec c sep) as [->|Hne]; [exfalso; apply Hsep; now left|].
    assert (Ha : ~ In sep a) by (intros Hin; apply Hsep; now right).
    specialize (IH Ha).
    destruct (split sep (a ++ sep :: b)) as [|w ws]; cbn [List.nth] in *;
      now subst.
Qed.

Lemma split_first_no_sep (sep : N) (s : str) :
  ~ In sep (List.nth 0 (split sep s) []).
Proof.
  induction s as [|c s IH]; cbn [split]; [simpl; tauto|].
  destruct (N.eqb_spec c sep) as [->|Hne]; [simpl; tauto|].
  destruct (split sep s) as [|w ws]; cbn [List.nth] in *.
  - intros [->|[]]. contradiction.
  - intros [->|Hin]; [contradiction|now apply IH].
Qed.

Lemma split_first_prefix (sep : N) (s : str) :
  exists post, s = List.nth 0 (split sep s) [] ++ post.
Proof.
  induction s as [|c s [post IH]]; cbn [split]; [now exists []|].
  destruct (N.eqb_spec c sep) as [->|Hne]; [now exists (sep :: s)|].
  destruct (split sep s) as [|w ws]; cbn [List.nth] in *.
  - exists s. reflexivity.
  - exists post. cbn [app]. now rewrite <- IH.
Qed.

Lemma lstrip_suffix (chars s : str) :
  exists pre,
    s = pre ++ lstrip chars s
    /\ List.Forall (fun c => List.existsb (N.eqb c) chars = true) pre.
Proof.
  induction s as [|c s (pre & IH & Hpre)]; cbn [lstrip]; [now exists []|].
  destruct (List.existsb (N.eqb c) chars) eqn:Hc.
  - exists (c :: pre). split; [cbn [app]; now rewrite <- IH|now constructor].
  - now exists [].
Qed.

Lemma lstrip_head (chars s : str) (c : N) (rest : str) :
  lstrip chars s = c :: rest -> List.existsb (N.eqb c) chars = false.
Proof.
  induction s as [|d s IH]; cbn [lstrip]; [discriminate|].
  destruct (List.existsb (N.eqb d) chars) eqn:Hd; [exact IH|].
  now intros [= <- _].
Qed.

(** X8.  The package path [target_name.split(':')[0].lstrip('//')] of any
    target name holds no colon, does not start with a slash, and is a slice
    of the name: before it stand slashes only, and after it the name ends or
    a colon follows. *)
Theorem pkg_path_of_shape (target_name : str) :
  ~ In 58%N (pkg_path_of target_name)
  /\ (forall c rest, pkg_path_of target_name = c :: rest -> c <> 47%N)
  /\ exists slashes rest,
       target_name = slashes ++ pkg_path_of target_name ++ rest
       /\ List.Forall (fun c => c = 47%N) slashes
       /\ (rest = [] \/ exists rest', rest = 58%N :: rest').
Proof.
  unfold pkg_path_of. split; [|split].
  - intros Hin. apply In_lstrip in Hin.
    now apply split_first_no_sep in Hin.
  - intros c rest H. apply lstrip_head in H.
    intros ->. discriminate H.
  - destruct (lstrip_suffix (lit "//") (List.nth 0 (split 58%N target_name) []))
      as (pre & Hseg & Hpre).
    exists pre.
    assert (Hrest : exists rest,
               target_name = List.nth 0 (split 58%N target_name) [] ++ rest
               /\ (rest = [] \/ exists rest', rest = 58%N :: rest')).
    { clear. induction target_name as [|c s (rest & IH & Hrest)]; cbn [split].
      - exists []. split; [reflexivity|now left].
      - destruct (N.eqb_spec c 58%N) as [->|Hne].
        + exists (58%N :: s). split; [reflexivity|right; now exists s].
        + destruct (split 58%N s) as [|w ws]; cbn [List.nth] in *.
          * exists rest. split; [cbn [app]; now rewrite IH at 1|exact Hrest].
          * exists rest. split; [cbn [app]; now rewrite <- IH|exact Hrest]. }
    destruct Hrest as (rest & Htn & Hrest).
    exists rest. split; [|split; [|exact Hrest]].
    + rewrite Htn at 1. rewrite Hseg at 1. now rewrite <- app_assoc.
    + eapply List.Forall_impl; [|exact Hpre].
      intros c Hc. cbn in Hc.
      destruct (N.eqb_spec c 47%N); [assumption|discriminate].
Qed.

(* ================================================================= *)
(** ** The targets the generator names *)

Lemma string_of_uint_no_colon (d : Decimal.uint) :
  ~ In 58%N (lit (NilEmpty.string_of_uint d)).
Proof.
  induction d; cbn; intros H; try tauto;
    (destruct H as [H|H]; [discriminate H|now apply IHd]).
Qed.

Lemma str_of_int_no_colon (n : Z) : ~ In 58%N (str_of_int n).
Proof.
  unfold str_of_int. destruct n as [|p|p]; cbn [Z.to_int NilEmpty.string_of_int].
  - cbn. intros [H|[]]. discriminate H.
  - apply string_of_uint_no_colon.
  - intros H. cbn in H. destruct H as [H|H]; [discriminate H|].
    now apply string_of_uint_no_colon in H.
Qed.

Lemma format_0d_no_colon (width : nat) (n : Z) : ~ In 58%N (format_0d width n).
Proof.
  unfold format_0d. intros H.
  apply in_app_or in H as [H|H].
  - destruct (n <? 0); cbn in H; [|tauto].
    destruct H as [H|[]]. discriminate H.
  - apply in_app_or in H as [H|H].
    + apply List.repeat_spec in H. discriminate H.
    + now apply str_of_int_no_colon in H.
Qed.

(** The package path of the name the generator gives target [i]. *)
Lemma pkg_path_of_target_name (i : Z) :
  pkg_path_of (target_name_of i) = lit "pkg" ++ format_0d 4 (i / 50).
Proof.
  unfold pkg_path_of, target_name_of. cbv zeta.
  replace (lit "//pkg" ++ format_0d 4 (i / 50) ++ lit ":target" ++ format_0d 6 i)
    with ((lit "//pkg" ++ format_0d 4 (i / 50))
            ++ 58%N :: (lit "target" ++ format_0d 6 i))
    by (now rewrite <- app_assoc).
  rewrite split_first_segment.
  - reflexivity.
  - intros H. apply in_app_or in H as [H|H].
    + cbn in H. intuition discriminate.
    + now apply format_0d_no_colon in H.
Qed.

Lemma infix_slash (a r : str) : infix (a ++ lit "/") (a ++ 47%N :: r).
Proof. exists [], r. cbn [app]. now rewrite <- app_assoc. Qed.

Lemma generated_build_error_under_package (pkg_path : str) (i : Z) :
  i mod 2 = 0 ->
  infix (pkg_path ++ lit "/")
    (List.nth (Z.to_nat (i mod len (error_types pkg_path i)))
       (error_types pkg_path i) []).
Proof.
  intros Heven.
  change (len (error_types pkg_path i)) with 6.
  assert (Hr : i mod 6 = 0 \/ i mod 6 = 2 \/ i mod 6 = 4).
  { pose proof (Z.mod_pos_bound i 6). pose proof (Z.div_mod i 6).
    pose proof (Z.div_mod i 2). pose proof (Z.mod_pos_bound i 2). lia. }
  unfold error_types.
  destruct Hr as [Hr|[Hr|Hr]]; rewrite Hr;
    cbn [Z.to_nat Pos.to_nat Pos.iter_op Nat.add List.nth];
    apply infix_slash.
Qed.

Lemma generated_test_error_under_package (pkg_path : str) (i : Z) :
  infix (pkg_path ++ lit "/")
    (List.nth (Z.to_nat (i mod len (test_errors pkg_path i)))
       (test_errors pkg_path i) []).
Proof.
  change (len (test_errors pkg_path i)) with 6.
  unfold test_errors.
  case_mod6 i (i mod 6);
    cbn [Z.to_nat Pos.to_nat Pos.iter_op Nat.add List.nth];
    apply infix_slash.
Qed.

(** X9.  The name the generator gives target [i] has the package path
    [pkg<i // 50>], zero-padded to four digits, and the failing event of
    target [i], which is always produced, holds a path under that
    directory, [pkg<i // 50>/]. *)
Theorem generated_failure_under_package (i : Z) :
  pkg_path_of (target_name_of i) = lit "pkg" ++ format_0d 4 (i / 50)
  /\ exists p,
       event_payload true i = Ok p
       /\ bytes_contain
            (List.map byte_of_N (lit "pkg" ++ format_0d 4 (i / 50) ++ lit "/"))
            p
          = true.
Proof.
  split; [apply pkg_path_of_target_name|].
  destruct (event_payload_total true i) as [p Hp].
  exists p. split; [exact Hp|].
  unfold event_payload in Hp. cbn [negb] in Hp.
  assert (Hascii : is_ascii (lit "pkg" ++ format_0d 4 (i / 50) ++ lit "/")
                   = true)
    by now rewrite !is_ascii_app, format_0d_ascii.
  rewrite (app_assoc (lit "pkg")) in Hascii |- *.
  rewrite <- pkg_path_of_target_name in Hascii |- *.
  destruct (Z.eqb_spec (i mod 2) 0) as [Heven|Hodd].
  - eapply token_in_payload; [exact Hascii|exact Hp|].
    eapply infix_trans; [|apply build_failure_content_error].
    now apply generated_build_error_under_package.
  - eapply token_in_payload; [exact Hascii|exact Hp|].
    eapply infix_trans; [|apply test_failure_content_error].
    apply generated_test_error_under_package.
Qed.

(* ================================================================= *)
(** ** The number of failing targets *)

Lemma range_from_snoc (a : Z) (n : nat) :
  range_from a (S n) = range_from a n ++ [a + Z.of_nat n].
Proof.
  revert a. induction n as [|n IH]; intros a.
  - cbn. now rewrite Z.add_0_r.
  - change (range_from a (S (S n))) with (a :: range_from (a + 1) (S n)).
    rewrite IH. cbn [range_from app]. do 3 f_equal. lia.
Qed.

Lemma count_failing_app (failing : Z -> bool) (l l' : list Z) :
  count_failing failing (l ++ l')
  = count_failing failing l + count_failing failing l'.
Proof.
  unfold count_failing, len. rewrite List.filter_app, length_app. lia.
Qed.

Lemma ceil_div_succ (n k : Z) :
  0 <= n -> 1 <= k ->
  (n + 1 + k - 1) / k
  = (n + k - 1) / k + (if n mod k =? 0 then 1 else 0).
Proof.
  intros Hn Hk.
  pose proof (Z.div_mod n k ltac:(lia)) as Hdm.
  pose proof (Z.mod_pos_bound n k ltac:(lia)) as Hb.
  set (q := n / k) in *. set (r := n mod k) in *.
  assert (H1 : (n + 1 + k - 1) / k = q + 1).
  { symmetry. apply (Z.div_unique _ _ _ r); lia. }
  rewrite H1.
  destruct (Z.eqb_spec r 0) as [Hr|Hr].
  - assert (H2 : (n + k - 1) / k = q).
    { symmetry. apply (Z.div_unique _ _ _ (k - 1)); lia. }
    lia.
  - assert (H2 : (n + k - 1) / k = q + 1).
    { symmetry. apply (Z.div_unique _ _ _ (r - 1)); lia. }
    lia.
Qed.

Lemma count_multiples (k : Z) (n : nat) :
  1 <= k ->
  count_failing (fun i => i mod k =? 0) (range_from 0 n)
  = (Z.of_nat n + k - 1) / k.
Proof.
  intros Hk. induction n as [|n IH].
  - cbn [range_from]. unfold count_failing. cbn.
    symmetry. apply Z.div_small. lia.
  - rewrite range_from_snoc, count_failing_app, IH.
    rewrite count_failing_cons, Z.add_0_l.
    replace (count_failing (fun i => i mod k =? 0) []) with 0 by reflexivity.
    rewrite Nat2Z.inj_succ. unfold Z.succ.
    rewrite (ceil_div_succ (Z.of_nat n) k) by lia. lia.
Qed.

Lemma is_failure_at_of_period (failure_rate : float) (k i : Z) :
  float_gt failure_rate (float_of_int 0) = true ->
  (q <- truediv (float_of_int 1) failure_rate ;; int_of_float q) = Ok k ->
  k <> 0 ->
  is_failure_at failure_rate i = Ok (i mod k =? 0).
Proof.
  intros Hgt Hk Hk0.
  apply rbind_Ok_inv in Hk as (q & Hq & Hk).
  now apply (is_failure_at_period failure_rate q).
Qed.

(** X10.  When the rate is positive and [int(1 / failure_rate)] is a
    period [k >= 1], a run over [num_targets >= 0] targets returns after
    counting [ceil(num_targets / k)] failures, which is at most
    [num_targets]. *)
Theorem failure_count_of_period (num_targets : Z) (failure_rate : float)
  (k : Z) :
  float_gt failure_rate (float_of_int 0) = true ->
  (q <- truediv (float_of_int 1) failure_rate ;; int_of_float q) = Ok k ->
  1 <= k ->
  0 <= num_targets ->
  snd (generate_large_bep_file num_targets failure_rate)
  = Ok ((num_targets + k - 1) / k)
  /\ (num_targets + k - 1) / k <= num_targets.
Proof.
  intros Hgt Hk Hk1 HN.
  destruct (generate_large_bep_file_run num_targets failure_rate
              (fun i => i mod k =? 0))
    as (events & completion_msg & stream & _ & _ & _ & Hrun).
  { intros j _. apply is_failure_at_of_period; [assumption..|lia]. }
  rewrite Hrun. cbn [snd]. unfold range.
  rewrite count_multiples by exact Hk1. rewrite Z2Nat.id by exact HN.
  split; [reflexivity|].
  destruct (Z.eq_dec num_targets 0) as [->|Hpos].
  - rewrite Z.div_small by lia. lia.
  - apply Z.div_le_upper_bound; [lia|]. nia.
Qed.

Lemma failure_count_of_period_witness :
  snd (generate_large_bep_file 45 default_failure_rate) = Ok ((45 + 20 - 1) / 20)
  /\ (45 + 20 - 1) / 20 <= 45.
Proof.
  apply (failure_count_of_period 45 default_failure_rate 20);
    [reflexivity|reflexivity|lia|lia].
Defined.

(* ================================================================= *)
(** ** Rates, counts and what a run leaves behind *)

(** X12.  A rate that is not above zero (zero, negative, or NaN) makes no
    target fail, whatever the number of targets: the run completes, every
    event is a passing one, and the completion record carries code 0. *)
Theorem generate_large_bep_file_rate_not_positive (num_targets : Z)
  (failure_rate : float) :
  float_gt failure_rate (float_of_int 0) = false ->
  exists events stream,
    generate_large_bep_file num_targets failure_rate = (stream, Ok 0)
    /\ List.Forall2 (event_of (fun _ => false)) (range num_targets) events
    /\ framed (header_msg :: events ++ [completion_bytes "0"]) stream.
Proof.
  intros Hgt.
  destruct (generate_large_bep_file_records num_targets failure_rate
              (fun _ => false))
    as (events & completion_msg & stream & Hrun & Hev & Hcm & Hfr & _).
  { intros j _. now apply is_failure_at_not_positive. }
  rewrite count_failing_none in Hrun, Hcm. cbn in Hcm. subst completion_msg.
  now exists events, stream.
Qed.

Lemma generate_large_bep_file_rate_not_positive_witness :
  exists events stream,
    generate_large_bep_file 3 S754_nan = (stream, Ok 0)
    /\ List.Forall2 (event_of (fun _ => false)) (range 3) events
    /\ framed (header_msg :: events ++ [completion_bytes "0"]) stream.
Proof.
  apply (generate_large_bep_file_rate_not_positive 3 S754_nan). reflexivity.
Defined.

(** X13.  With no target to write ([num_targets <= 0], for which [range]
    is empty) the rate is never looked at: for every rate, also one whose
    reciprocal cannot be taken, the file is the header record followed by
    the completion record with code 0. *)
Theorem generate_large_bep_file_no_targets (num_targets : Z)
  (failure_rate : float) :
  num_targets <= 0 ->
  exists header_prefix completion_prefix,
    encode_varint (len header_msg) = Ok header_prefix
    /\ encode_varint (len (completion_bytes "0")) = Ok completion_prefix
    /\ generate_large_bep_file num_targets failure_rate
       = (header_prefix ++ header_msg
            ++ completion_prefix ++ completion_bytes "0",
          Ok 0).
Proof.
  intros HN. do 2 eexists. split; [reflexivity|]. split; [reflexivity|].
  unfold generate_large_bep_file, generate_large_bep_file_body.
  replace (Z.to_nat num_targets) with 0%nat by lia.
  reflexivity.
Qed.

Lemma generate_large_bep_file_no_targets_witness :
  exists header_prefix completion_prefix,
    encode_varint (len header_msg) = Ok header_prefix
    /\ encode_varint (len (completion_bytes "0")) = Ok completion_prefix
    /\ generate_large_bep_file (-5) smallest_subnormal
       = (header_prefix ++ header_msg
            ++ completion_prefix ++ completion_bytes "0",
          Ok 0).
Proof.
  apply (generate_large_bep_file_no_targets (-5) smallest_subnormal). lia.
Defined.



(* ================================================================= *)
(** ** The reciprocal of rates near and above one *)

Lemma shiftl_one (mq : positive) :
  2 ^ 52 <= Zpos mq < 2 ^ 53 -> Z.shiftl (Zpos mq) (-52) = 1.
Proof.
  intros Hm. change (-52) with (- (52)). rewrite Z.shiftl_opp_r.
  rewrite Z.shiftr_div_pow2 by lia.
  symmetry. apply (Z.div_unique _ _ _ (Zpos mq - 2 ^ 52)); lia.
Qed.

Lemma shiftl_zero (mq : positive) (eq : Z) :
  Zpos mq < 2 ^ 53 -> eq <= -53 -> Z.shiftl (Zpos mq) eq = 0.
Proof.
  intros Hm He. rewrite <- (Z.opp_involutive eq), Z.shiftl_opp_r.
  rewrite Z.shiftr_div_pow2 by lia.
  apply Z.div_small. split; [lia|].
  eapply Z.lt_le_trans; [exact Hm|]. apply Z.pow_le_mono_r; lia.
Qed.

(** The reciprocal of a rate above one half, and at most one, truncates to
    one. *)
Lemma reciprocal_above_half (m : positive) (e : Z) :
  valid_binary prec emax (S754_finite false m e) = true ->
  float_lt one_half (S754_finite false m e) = true ->
  float_le (S754_finite false m e) (float_of_int 1) = true ->
  exists mq eq,
    SFdiv prec emax (float_of_int 1) (S754_finite false m e)
    = S754_finite false mq eq
    /\ Z.shiftl (Zpos mq) eq = 1.
Proof.
  intros Hvalid Hlt Hle.
  cbn [valid_binary] in Hvalid. unfold bounded, canonical_mantissa in Hvalid.
  apply andb_true_iff in Hvalid as [Hcanon _].
  apply Z.eqb_eq in Hcanon. unfold fexp, emin, prec, emax in Hcanon.
  pose proof (digits2_pos_bounds m) as [Dlo Dhi].
  set (d := Zpos (digits2_pos m)) in *.
  change (float_of_int 1) with (S754_finite false 4503599627370496 (-52))
    in Hle |- *.
  unfold float_le, SFleb, SFcompare in Hle.
  unfold float_lt, one_half, SFltb, SFcompare in Hlt.
  rewrite Pos.compare_cont_spec in Hle, Hlt. cbn [Pos.switch_Eq] in Hle, Hlt.
  assert (Hshape : (e = -52 /\ m = 4503599627370496%positive)
                   \/ (e = -53 /\ 2 ^ 52 < Zpos m /\ d = 53)).
  { destruct (Z.compare_spec e (-52)) as [He|He|He]; [| |discriminate].
    - left. split; [exact He|].
      assert (Hd : d = 53) by lia.
      destruct (Pos.compare_spec m 4503599627370496) as [Hm|Hm|Hm];
        try discriminate; [exact Hm|].
      apply Pos2Z.pos_lt_pos in Hm. exfalso.
      rewrite Hd in Dlo. change (2 ^ (53 - 1)) with 4503599627370496 in Dlo.
      lia.
    - right.
      destruct (Z.compare_spec (-53) e) as [He'|He'|He']; try discriminate;
        [|lia].
      split; [now symmetry|].
      destruct (Pos.compare_spec (2 ^ 52) m) as [Hm|Hm|Hm]; try discriminate.
      apply Pos2Z.pos_lt_pos in Hm.
      change (Zpos (2 ^ 52)) with (2 ^ 52) in Hm. split; [exact Hm|lia]. }
  destruct Hshape as [[-> ->]|(-> & Hm & Hd)].
  - exists (2 ^ 52)%positive, (-52). split; reflexivity.
  - cbn [SFdiv xorb].
    rewrite (SFdiv_core_binary_one m (-53) d eq_refl) by lia.
    rewrite Hd. change (-52 - 53 - -53) with (-52).
    change (2 ^ (52 + 53)) with (2 ^ 105).
    set (q := 2 ^ 105 / Zpos m).
    rewrite Hd in Dhi.
    assert (Hq : 2 ^ 52 <= q < 2 ^ 53 - 1).
    { subst q. split.
      - apply Z.div_le_lower_bound; [lia|].
        change (2 ^ 105) with (2 ^ 52 * 2 ^ 53). nia.
      - apply Z.div_lt_upper_bound; [lia|].
        change (2 ^ 105) with (2 ^ 53 * 2 ^ 52). nia. }
    destruct (binary_round_aux_53 q (-52)
                (new_location (Zpos m) (2 ^ 105 mod Zpos m)))
      as (mx & Hmx & ->); [lia|lia|].
    destruct (Z.ltb_spec (Zpos mx) (2 ^ 53)); [|lia].
    cbn [Z.leb Z.compare].
    exists mx, (-52). split; [reflexivity|].
    apply shiftl_one. lia.
Qed.

(** Dividing by a positive float never gives NaN. *)
Lemma iter_pos_shr_1_nonneg (p : positive) :
  forall mrs, 0 <= shr_m mrs -> 0 <= shr_m (iter_pos shr_1 p mrs).
Proof.
  assert (Hstep : forall mrs, 0 <= shr_m mrs -> 0 <= shr_m (shr_1 mrs)).
  { intros [mm r s] H. cbn [shr_m] in H.
    destruct mm as [|[pp|pp|]|pp]; cbn; lia. }
  induction p as [p IH|p IH|]; intros mrs H; cbn [iter_pos]; auto.
Qed.

Lemma shr_fexp_nonneg (q e' : Z) (l : location) :
  0 <= q -> 0 <= shr_m (fst (shr_fexp prec emax q e' l)).
Proof.
  intros Hq. unfold shr_fexp, shr.
  assert (H0 : 0 <= shr_m (shr_record_of_loc q l))
    by (now destruct (loc_of_shr_record_of_loc q l) as [_ ->]).
  destruct (fexp prec emax (Zdigits2 q + e') - e'); cbn [fst]; try exact H0.
  now apply iter_pos_shr_1_nonneg.
Qed.

Lemma binary_round_aux_not_nan (q e' : Z) (l : location) :
  0 <= q -> binary_round_aux prec emax false q e' l <> S754_nan.
Proof.
  intros Hq. unfold binary_round_aux.
  pose proof (shr_fexp_nonneg q e' l Hq) as H1.
  destruct (shr_fexp prec emax q e' l) as [mrs' e1]. cbn [fst] in H1.
  assert (H2 : 0 <= round_nearest_even (shr_m mrs') (loc_of_shr_record mrs')).
  { destruct (round_nearest_even_step (shr_m mrs') (loc_of_shr_record mrs'))
      as [->| ->]; lia. }
  pose proof (shr_fexp_nonneg _ e1 loc_Exact H2) as H3.
  destruct (shr_fexp prec emax _ e1 loc_Exact) as [mrs'' e2]. cbn [fst] in H3.
  destruct (shr_m mrs'') as [|mm|mm]; try discriminate; try lia.
  now destruct (e2 <=? emax - prec).
Qed.

Lemma reciprocal_not_nan (failure_rate : float) :
  float_gt failure_rate (float_of_int 0) = true ->
  SFdiv prec emax (float_of_int 1) failure_rate <> S754_nan.
Proof.
  unfold float_gt, SFltb. change (float_of_int 0) with (S754_zero false).
  change (float_of_int 1) with (S754_finite false 4503599627370496 (-52)).
  destruct failure_rate as [s|s| |s m e]; cbn [SFcompare SFdiv xorb];
    try discriminate; destruct s; try discriminate; intros _.
  unfold SFdiv_core_binary. rewrite div_eucl_div_mod.
  apply binary_round_aux_not_nan.
  apply Z.div_pos; [|lia].
  destruct (-52 - e - _); try lia.
  apply Z.shiftl_nonneg. lia.
Qed.

Lemma Zdigits2_le (q k : Z) : 0 < q < 2 ^ k -> 0 <= k -> Zdigits2 q <= k.
Proof.
  intros [Hq Hk] Hk0. destruct q as [|p|p]; try lia. cbn [Zdigits2].
  pose proof (digits2_pos_bounds p) as [Dlo _].
  destruct (Z_le_gt_dec (Zpos (digits2_pos p)) k) as [|Hgt]; [assumption|].
  assert (2 ^ k <= 2 ^ (Zpos (digits2_pos p) - 1))
    by (apply Z.pow_le_mono_r; lia).
  lia.
Qed.

(** A quotient of at most 53 bits at the least exponent is not shifted. *)
Lemma shr_fexp_least (q : Z) (l : location) :
  0 < q < 2 ^ 53 ->
  shr_fexp prec emax q (-1074) l = (shr_record_of_loc q l, -1074).
Proof.
  intros Hq. unfold shr_fexp, fexp, emin, prec, emax.
  pose proof (Zdigits2_le q 53 Hq ltac:(lia)).
  replace (Z.max (Zdigits2 q + -1074 - 53) (3 - 1024 - 53) - -1074) with 0
    by lia.
  reflexivity.
Qed.

Lemma binary_round_aux_least (q : Z) (l : location) :
  0 < q < 2 ^ 53 - 1 ->
  exists mx : positive,
    Zpos mx < 2 ^ 53
    /\ binary_round_aux prec emax false q (-1074) l
       = S754_finite false mx (-1074).
Proof.
  intros Hq. unfold binary_round_aux.
  rewrite shr_fexp_least by lia.
  destruct (loc_of_shr_record_of_loc q l) as [-> ->].
  destruct (round_nearest_even_step q l) as [Hmx|Hmx]; rewrite Hmx.
  - rewrite shr_fexp_least by lia. cbn [shr_m shr_record_of_loc].
    destruct q as [|mx|mx]; try lia. exists mx. split; [lia|reflexivity].
  - rewrite shr_fexp_least by lia. cbn [shr_m shr_record_of_loc].
    destruct (q + 1) as [|mx|mx] eqn:Hq1; try lia.
    exists mx. split; [lia|reflexivity].
Qed.

(** The quotient and the exponent [SFdiv] rounds for [1.0 / fr] when [fr]
    is above one. *)
Lemma SFdiv_core_binary_above_one (m : positive) (e : Z) :
  Zpos (digits2_pos m) = 53 -> -52 <= e <= 971 ->
  let s := Z.min 53 (1022 - e) in
  SFdiv_core_binary prec emax 4503599627370496 (-52) (Zpos m) e
  = (2 ^ (52 + s) / Zpos m, -52 - e - s,
     new_location (Zpos m) (2 ^ (52 + s) mod Zpos m)).
Proof.
  intros Hd He s. unfold SFdiv_core_binary.
  change (Zdigits2 4503599627370496) with 53.
  cbn [Zdigits2]. rewrite Hd.
  replace (Z.min (fexp prec emax (53 + -52 - (53 + e))) (-52 - e))
    with (-52 - e - s) by (unfold fexp, emin, prec, emax; subst s; lia).
  replace (-52 - e - (-52 - e - s)) with s by lia.
  assert (Hs : 0 < s) by (subst s; lia).
  assert (Hshift : match s with
                   | Z0 => 4503599627370496
                   | Zpos _ => Z.shiftl 4503599627370496 s
                   | Zneg _ => 0
                   end = 2 ^ (52 + s)).
  { destruct s as [|p|p]; try lia.
    rewrite Z.shiftl_mul_pow2 by lia.
    rewrite Z.pow_add_r by lia. reflexivity. }
  rewrite Hshift, div_eucl_div_mod. reflexivity.
Qed.

(** The reciprocal of a rate above one truncates to zero. *)
Lemma reciprocal_above_one (failure_rate : float) :
  valid_binary prec emax failure_rate = true ->
  float_gt failure_rate (float_of_int 1) = true ->
  exists q,
    truediv (float_of_int 1) failure_rate = Ok q /\ int_of_float q = Ok 0.
Proof.
  intros Hvalid Hgt.
  change (float_of_int 1) with (S754_finite false 4503599627370496 (-52))
    in Hgt |- *.
  unfold float_gt, SFltb in Hgt.
  destruct failure_rate as [s|s| |s m e]; cbn [SFcompare] in Hgt;
    try discriminate; destruct s; try discriminate.
  - (* the rate is infinite *)
    eexists. split; reflexivity.
  - cbn [valid_binary] in Hvalid. unfold bounded, canonical_mantissa in Hvalid.
    apply andb_true_iff in Hvalid as [Hcanon Hemax].
    apply Z.eqb_eq in Hcanon. apply Z.leb_le in Hemax.
    unfold fexp, emin, prec, emax in Hcanon, Hemax.
    pose proof (digits2_pos_bounds m) as [Dlo Dhi].
    rewrite Pos.compare_cont_spec in Hgt. cbn [Pos.switch_Eq] in Hgt.
    assert (Hshape : -52 <= e /\ (e = -52 -> 2 ^ 52 < Zpos m)).
    { destruct (Z.compare_spec (-52) e) as [He|He|He]; try discriminate.
      - split; [lia|]. intros _.
        destruct (Pos.compare_spec 4503599627370496 m) as [Hm|Hm|Hm];
          try discriminate.
        apply Pos2Z.pos_lt_pos in Hm. exact Hm.
      - split; lia. }
    destruct Hshape as [He Hm52].
    assert (Hd : Zpos (digits2_pos m) = 53) by lia.
    rewrite Hd in Dlo, Dhi. change (2 ^ (53 - 1)) with (2 ^ 52) in Dlo.
    unfold truediv. cbn [float_is_zero SFdiv xorb].
    rewrite (SFdiv_core_binary_above_one m e Hd) by lia.
    eexists. split; [reflexivity|].
    destruct (Z_le_gt_dec e 969) as [Hnormal|Hsub].
    + (* the quotient is a normal float below one *)
      rewrite Z.min_l by lia.
      replace (-52 - e - 53) with (-105 - e) by lia.
      change (2 ^ (52 + 53)) with (2 ^ 105).
      set (q := 2 ^ 105 / Zpos m).
      assert (Hq : 2 ^ 52 <= q <= 2 ^ 53).
      { subst q. split.
        - apply Z.div_le_lower_bound; [lia|].
          change (2 ^ 105) with (2 ^ 52 * 2 ^ 53). nia.
        - apply Z.div_le_upper_bound; [lia|].
          change (2 ^ 105) with (2 ^ 53 * 2 ^ 52). nia. }
      destruct (Z.eq_dec q (2 ^ 53)) as [Hq53|Hq53].
      * assert (Hm : Zpos m = 2 ^ 52).
        { assert (Zpos m * q <= 2 ^ 105)
            by (subst q; apply Z.mul_div_le; lia).
          rewrite Hq53 in H. change (2 ^ 105) with (2 ^ 52 * 2 ^ 53) in H.
          nia. }
        assert (Hmod : 2 ^ 105 mod Zpos m = 0) by (rewrite Hm; reflexivity).
        assert (He51 : -51 <= e).
        { destruct (Z.eq_dec e (-52)) as [He52|]; [|lia].
          specialize (Hm52 He52). lia. }
        rewrite Hmod, new_location_exact, Hq53.
        rewrite binary_round_aux_2p53 by lia.
        destruct (Z.leb_spec (-105 - e + 1) 971); [|lia].
        cbn [int_of_float cond_Zopp]. f_equal.
        apply shiftl_zero; [reflexivity|lia].
      * assert (Hq' : 2 ^ 52 <= q < 2 ^ 53) by lia.
        destruct (binary_round_aux_53 q (-105 - e)
                    (new_location (Zpos m) (2 ^ 105 mod Zpos m)) Hq')
          as (mx & Hmx & ->); [lia|].
        destruct (Z.ltb_spec (Zpos mx) (2 ^ 53)) as [Hlt53|Hge53].
        -- destruct (Z.leb_spec (-105 - e) 971); [|lia].
           cbn [int_of_float cond_Zopp]. f_equal.
           apply shiftl_zero; [exact Hlt53|lia].
        -- destruct (Z.leb_spec (-105 - e + 1) 971); [|lia].
           cbn [int_of_float cond_Zopp]. f_equal.
           apply shiftl_zero; [reflexivity|].
           destruct (Z.eq_dec e (-52)) as [He52|]; [|lia]. exfalso.
           specialize (Hm52 He52).
           assert (Hqmax : q = 2 ^ 53 - 1) by lia.
           assert (Hbound : 2 ^ 105 < Zpos m * (q + 1)).
           { subst q.
             pose proof (Z.mod_pos_bound (2 ^ 105) (Zpos m)).
             pose proof (Z.div_mod (2 ^ 105) (Zpos m)). nia. }
           assert (Hle : Zpos m * q <= 2 ^ 105)
             by (subst q; apply Z.mul_div_le; lia).
           rewrite Hqmax in Hle.
           change (2 ^ 105) with (2 ^ 53 * 2 ^ 52) in Hle. nia.
    + (* the quotient is subnormal *)
      rewrite Z.min_r by lia.
      replace (-52 - e - (1022 - e)) with (-1074) by lia.
      set (s := 1022 - e). assert (Hs : 51 <= s <= 52) by (subst s; lia).
      set (q := 2 ^ (52 + s) / Zpos m).
      assert (Hpow : 2 ^ (52 + s) = 2 ^ 52 * 2 ^ s)
        by (rewrite <- Z.pow_add_r by lia; reflexivity).
      assert (Hs52 : 2 ^ 51 <= 2 ^ s <= 2 ^ 52)
        by (split; apply Z.pow_le_mono_r; lia).
      assert (Hq : 0 < q < 2 ^ 53 - 1).
      { subst q. split.
        - apply Z.div_str_pos. rewrite Hpow. nia.
        - apply Z.div_lt_upper_bound; [lia|]. rewrite Hpow. nia. }
      destruct (binary_round_aux_least q
                  (new_location (Zpos m) (2 ^ (52 + s) mod Zpos m)) Hq)
        as (mx & Hmx & ->).
      cbn [int_of_float cond_Zopp]. f_equal.
      apply shiftl_zero; [exact Hmx|lia].
Qed.

(** A run of at least one target whose first target cannot be told failing
    or not stops there, with the header written. *)
Lemma generate_large_bep_file_raise (num_targets : Z) (failure_rate : float)
  (e : exn) :
  1 <= num_targets ->
  is_failure_at failure_rate 0 = Raise e ->
  exists header_prefix,
    encode_varint (len header_msg) = Ok header_prefix
    /\ generate_large_bep_file num_targets failure_rate
       = (header_prefix ++ header_msg, Raise e).
Proof.
  intros HN Hraise.
  destruct (encode_varint_total (len header_msg) (len_nonneg _)) as [hp Hhp].
  exists hp. split; [exact Hhp|].
  unfold generate_large_bep_file, generate_large_bep_file_body.
  unfold io_bind at 1. unfold io_eval at 1. rewrite Hhp.
  unfold io_bind at 1. unfold write at 1.
  unfold io_bind at 1. unfold write at 1.
  unfold io_bind at 1.
  destruct (Z.to_nat num_targets) as [|n] eqn:Hn; [lia|].
  cbn [for_range]. unfold io_bind at 1.
  rewrite (target_event_raise failure_rate 0 0 e _ Hraise).
  now rewrite <- app_assoc.
Qed.

(** X11.  For every rate above 0.5 and at most 1, [int(1 / failure_rate)]
    is 1, so every target is marked failing and a run counts as many
    failures as it has targets. *)
Theorem rate_above_half_fails_every_target (num_targets : Z)
  (failure_rate : float) :
  valid_binary prec emax failure_rate = true ->
  float_lt one_half failure_rate = true ->
  float_le failure_rate (float_of_int 1) = true ->
  (forall i, is_failure_at failure_rate i = Ok true)
  /\ snd (generate_large_bep_file num_targets failure_rate)
     = Ok (Z.max 0 num_targets).
Proof.
  intros Hvalid Hlt Hle.
  assert (Hfail : forall i, is_failure_at failure_rate i = Ok true).
  { destruct failure_rate as [s|s| |s m e]; try discriminate.
    - destruct s; discriminate.
    - destruct s; [discriminate|].
      destruct (reciprocal_above_half m e Hvalid Hlt Hle)
        as (mq & eq & Hdiv & Hone).
      intros i.
      rewrite (is_failure_at_period _ (S754_finite false mq eq) 1 i).
      + now rewrite Z.mod_1_r.
      + reflexivity.
      + unfold truediv. cbn [float_is_zero]. now rewrite Hdiv.
      + cbn [int_of_float cond_Zopp]. now rewrite Hone.
      + discriminate. }
  split; [exact Hfail|].
  destruct (generate_large_bep_file_run num_targets failure_rate
              (fun i => i mod 1 =? 0))
    as (events & completion_msg & stream & _ & _ & _ & Hrun).
  { intros j _. rewrite Hfail. now rewrite Z.mod_1_r. }
  rewrite Hrun. cbn [snd]. unfold range.
  rewrite count_multiples by lia. rewrite Z.div_1_r. f_equal. lia.
Qed.

Lemma rate_above_half_fails_every_target_witness :
  (forall i, is_failure_at (S754_finite false 5404319552844595 (-53)) i
             = Ok true)
  /\ snd (generate_large_bep_file 7 (S754_finite false 5404319552844595 (-53)))
     = Ok (Z.max 0 7).
Proof.
  apply (rate_above_half_fails_every_target 7
           (S754_finite false 5404319552844595 (-53))); reflexivity.
Defined.

(** X14.  For every rate above 1 (infinity included), [1 / failure_rate]
    truncates to 0 and [i % 0] raises [ZeroDivisionError] at every target: a
    direct call with at least one target leaves the header record alone in
    the file.  [main] refuses such a rate and returns 1. *)
Theorem rate_above_one_raises (num_targets : Z) (failure_rate : float) :
  valid_binary prec emax failure_rate = true ->
  float_gt failure_rate (float_of_int 1) = true ->
  (forall i, is_failure_at failure_rate i = Raise ZeroDivisionError)
  /\ (1 <= num_targets ->
      exists header_prefix,
        encode_varint (len header_msg) = Ok header_prefix
        /\ generate_large_bep_file num_targets failure_rate
           = (header_prefix ++ header_msg, Raise ZeroDivisionError))
  /\ main num_targets failure_rate = (None, Ok 1).
Proof.
  intros Hvalid Hgt.
  assert (Hpos : float_gt failure_rate (float_of_int 0) = true).
  { revert Hgt. unfold float_gt, SFltb.
    change (float_of_int 1) with (S754_finite false 4503599627370496 (-52)).
    change (float_of_int 0) with (S754_zero false).
    destruct failure_rate as [s|s| |s m e]; cbn [SFcompare];
      try discriminate; destruct s; try discriminate; reflexivity. }
  destruct (reciprocal_above_one failure_rate Hvalid Hgt) as (q & Hq & Hk).
  assert (Hfail : forall i,
             is_failure_at failure_rate i = Raise ZeroDivisionError).
  { intros i. unfold is_failure_at. rewrite Hpos, Hq. cbn [rbind].
    rewrite Hk. reflexivity. }
  split; [exact Hfail|]. split.
  - intros HN. now apply generate_large_bep_file_raise.
  - unfold main. rewrite Hgt. now rewrite orb_true_r.
Qed.

Lemma rate_above_one_raises_witness :
  (forall i, is_failure_at (float_of_int 2) i = Raise ZeroDivisionError)
  /\ (1 <= 3 ->
      exists header_prefix,
        encode_varint (len header_msg) = Ok header_prefix
        /\ generate_large_bep_file 3 (float_of_int 2)
           = (header_prefix ++ header_msg, Raise ZeroDivisionError))
  /\ main 3 (float_of_int 2) = (None, Ok 1).
Proof.
  apply (rate_above_one_raises 3 (float_of_int 2)); reflexivity.
Defined.

(** Whether a target can be told failing does not depend on the target, and
    only two exceptions can keep it from being told. *)
Lemma is_failure_at_outcomes (failure_rate : float) :
  (exists failing, forall i, is_failure_at failure_rate i = Ok (failing i))
  \/ (exists e,
         (e = ZeroDivisionError \/ e = OverflowError)
         /\ forall i, is_failure_at failure_rate i = Raise e).
Proof.
  unfold is_failure_at.
  destruct (float_gt failure_rate (float_of_int 0)) eqn:Hgt;
    [|left; now exists (fun _ => false)].
  pose proof (reciprocal_not_nan failure_rate Hgt) as Hnan.
  unfold truediv. destruct (float_is_zero failure_rate).
  - right. exists ZeroDivisionError. split; [now left|reflexivity].
  - cbn [rbind].
    destruct (SFdiv prec emax (float_of_int 1) failure_rate) as [s|s| |s m e];
      cbn [int_of_float rbind].
    + right. exists ZeroDivisionError. split; [now left|reflexivity].
    + right. exists OverflowError. split; [now right|reflexivity].
    + contradiction.
    + unfold mod_.
      destruct (Z.eqb_spec (cond_Zopp s (Z.shiftl (Zpos m) e)) 0).
      * right. exists ZeroDivisionError. split; [now left|reflexivity].
      * left. now exists (fun i => i mod cond_Zopp s (Z.shiftl (Zpos m) e) =? 0).
Qed.

(** X16.  A run never stops in the middle of the targets.  Either it
    completes: the targets of the run are each told failing or not, and the
    file holds, each behind its varint length, the header, then for every
    target in order its event (a build event for an even index, a test
    event for an odd one, passing unless the target is marked failing, and
    with a location when it is), then the completion record, whose code is
    1 when a target failed and 0 otherwise; the number of failures returned
    counts the targets marked failing and lies between 0 and the number of
    targets.  Or the run has at least one target and stops at the first with
    [ZeroDivisionError] or [OverflowError], the file holding the header
    record alone. *)
Theorem generate_large_bep_file_all_or_header (num_targets : Z)
  (failure_rate : float) :
  (exists failing events stream,
      (forall j, 0 <= j < num_targets ->
                 is_failure_at failure_rate j = Ok (failing j))
      /\ generate_large_bep_file num_targets failure_rate
         = (stream, Ok (count_failing failing (range num_targets)))
      /\ List.Forall2 (event_of failing) (range num_targets) events
      /\ framed
           (header_msg
              :: events
              ++ [completion_bytes
                    (if 0 <? count_failing failing (range num_targets)
                     then "1" else "0")])
           stream
      /\ len events = Z.max 0 num_targets
      /\ 0 <= count_failing failing (range num_targets) <= Z.max 0 num_targets)
  \/ (exists header_prefix e,
         1 <= num_targets
         /\ encode_varint (len header_msg) = Ok header_prefix
         /\ (e = ZeroDivisionError \/ e = OverflowError)
         /\ generate_large_bep_file num_targets failure_rate
            = (header_prefix ++ header_msg, Raise e)).
Proof.
  assert (Hcomplete : forall failing,
             (forall j, 0 <= j < num_targets ->
                        is_failure_at failure_rate j = Ok (failing j)) ->
             exists failing events stream,
               (forall j, 0 <= j < num_targets ->
                          is_failure_at failure_rate j = Ok (failing j))
               /\ generate_large_bep_file num_targets failure_rate
                  = (stream, Ok (count_failing failing (range num_targets)))
               /\ List.Forall2 (event_of failing) (range num_targets) events
               /\ framed
                    (header_msg
                       :: events
                       ++ [completion_bytes
                             (if 0 <? count_failing failing (range num_targets)
                              then "1" else "0")])
                    stream
               /\ len events = Z.max 0 num_targets
               /\ 0 <= count_failing failing (range num_targets)
                  <= Z.max 0 num_targets).
  { intros failing Hfail.
    destruct (generate_large_bep_file_records num_targets failure_rate failing
                Hfail)
      as (events & completion_msg & stream & Hrun & Hev & Hcm & Hfr & _).
    subst completion_msg.
    exists failing, events, stream.
    split; [exact Hfail|]. split; [exact Hrun|]. split; [exact Hev|].
    split; [exact Hfr|].
    assert (Hlen : len (range num_targets) = Z.max 0 num_targets).
    { unfold len, range. rewrite range_from_length. lia. }
    split.
    - apply Forall2_length_eq in Hev. unfold len in *. lia.
    - rewrite <- Hlen. unfold count_failing, len. split; [lia|].
      apply Nat2Z.inj_le, List.filter_length_le. }
  destruct (is_failure_at_outcomes failure_rate)
    as [[failing Hfail]|(e & He & Hraise)].
  - left. apply (Hcomplete failing). intros j _. apply Hfail.
  - destruct (Z_lt_le_dec num_targets 1) as [Hsmall|Hbig].
    + left. apply (Hcomplete (fun _ => false)). intros j Hj. lia.
    + right.
      destruct (generate_large_bep_file_raise num_targets failure_rate e Hbig
                  (Hraise 0)) as (hp & Hhp & Hrun).
      now exists hp, e.
Qed.

(** X15.  The exit status of [main].  A rate below 0 or above 1 gives
    status 1 and no file is opened.  A rate in [0, 1] that is zero or above
    [2^-1024] gives status 0 and the file of a complete run.  NaN passes the
    range check, since both comparisons are false, and gives status 0 with
    no target failing. *)
Theorem main_exit_status (targets : Z) (failure_rate : float) :
  valid_binary prec emax failure_rate = true ->
  (float_lt failure_rate (float_of_int 0) = true
   \/ float_gt failure_rate (float_of_int 1) = true ->
   main targets failure_rate = (None, Ok 1))
  /\ (float_le (float_of_int 0) failure_rate = true ->
      float_le failure_rate (float_of_int 1) = true ->
      float_is_zero failure_rate = true
      \/ float_lt largest_overflowing_rate failure_rate = true ->
      exists stream num_failures,
        generate_large_bep_file targets failure_rate
        = (stream, Ok num_failures)
        /\ main targets failure_rate = (Some stream, Ok 0))
  /\ (exists stream,
         generate_large_bep_file targets S754_nan = (stream, Ok 0)
         /\ main targets S754_nan = (Some stream, Ok 0)).
Proof.
  intros Hvalid. split; [|split].
  - intros Hout. unfold main.
    destruct Hout as [-> | ->]; [reflexivity|now rewrite orb_true_r].
  - intros H0 H1 Hrange.
    destruct (generate_large_bep_file_unit_rate targets failure_rate
                Hvalid H0 H1 Hrange)
      as (failing & events & completion_msg & stream & _ & Hrun & _).
    exists stream, (count_failing failing (range targets)).
    split; [exact Hrun|].
    rewrite (main_accepts targets failure_rate H0 H1), Hrun. reflexivity.
  - destruct (generate_large_bep_file_run targets S754_nan (fun _ => false))
      as (events & completion_msg & stream & _ & _ & _ & Hrun).
    { intros j _. now apply is_failure_at_not_positive. }
    rewrite count_failing_none in Hrun.
    exists stream. split; [exact Hrun|].
    unfold main.
    change (float_lt S754_nan (float_of_int 0)) with false.
    change (float_gt S754_nan (float_of_int 1)) with false.
    cbn [orb]. now rewrite Hrun.
Qed.

Lemma main_exit_status_witness :
  main 10 (float_of_int (-1)) = (None, Ok 1)
  /\ (exists stream num_failures,
         generate_large_bep_file 10 default_failure_rate
         = (stream, Ok num_failures)
         /\ main 10 default_failure_rate = (Some stream, Ok 0)).
Proof.
  split.
  - apply (main_exit_status 10 (float_of_int (-1))); [reflexivity|].
    left. reflexivity.
  - apply (main_exit_status 10 default_failure_rate); try reflexivity.
    right. reflexivity.
Defined.
